(** * The NDB synchronisation engine of pyroute2 (pyroute2/ndb/main.py)

    A shallow embedding of the event sources ([Source.start]), the main
    loop ([NDB.__dbm__]), the handler registry, the object factory
    ([Factory.__getitem__]), [NDB.wait], [NDB.connect_source] and
    [NDB.close], with the properties the specification states about them.

    Threads are modelled by interleaving: the source thread is a program
    counter machine with one step per statement, the main loop takes one
    envelope per step, and the API calls are computations in a resumption
    monad that suspend where the Python code blocks.  Everything outside
    main.py (the RTNL provider, the schema, the RTNL object classes, user
    handlers, the clock) is an oracle indexed by a global tick. *)

From stdpp Require Import gmap strings list fin_maps relations pretty.
From Stdlib Require Import ZArith.

(** ** Python data *)

(** Exception classes.  The first six are the classes main.py declares;
    [BaseOnly] stands for the classes that derive from BaseException but
    not from Exception (SystemExit, KeyboardInterrupt, ...). *)
Inductive exn : Type :=
  | SyncStart
  | SchemaFlush
  | MarkFailed
  | DBMExitException
  | ShutdownException
  | InvalidateHandlerException
  | TypeError
  | KeyError
  | ValueError
  | RuntimeError
  | AttributeError
  | IndexError
  | OtherException (name : string)
  | BaseOnly (name : string).

(** [isinstance(e, Exception)] *)
Definition is_Exception (e : exn) : bool :=
  match e with BaseOnly _ => false | _ => true end.

(** threading.Event objects that travel through the event queue, by
    identity: the [sync] objects a source thread allocates, and the
    objects a caller of [connect_source] passes in. *)
Inductive signal : Type :=
  | SigBarrier (i : nat)
  | SigUser (i : nat).

Inductive value : Type :=
  | VNone
  | VInt (z : Z)
  | VStr (s : string).

(** A netlink message: its class, [msg['header']['error']] (the code of
    the error, when there is one), the raw fields ([msg.get]) and the
    NLA chain ([msg.get_attr]). *)
Record nlmsg : Type := {
  msg_class : string;
  header_error : option Z;
  msg_fields : list (string * value);
  msg_nla : list (string * value)
}.

(** The items of an envelope's payload. *)
Inductive item : Type :=
  | E_exc (e : exn)
  | E_signal (s : signal)
  | E_msg (m : nlmsg)
  | E_obj (cls : string).

(** [event.__class__], the key of the handler registry. *)
Inductive kind : Type :=
  | K_exc (e : exn)
  | K_Event
  | K_msg (cls : string)
  | K_obj (cls : string).

Definition class_of (ev : item) : kind :=
  match ev with
  | E_exc e => K_exc e
  | E_signal _ => K_Event
  | E_msg m => K_msg (msg_class m)
  | E_obj c => K_obj c
  end.

(** [(target, events)] *)
Definition envelope : Type := string * list item.

Global Instance exn_eq_dec : EqDecision exn.
Proof. solve_decision. Defined.
Global Instance signal_eq_dec : EqDecision signal.
Proof. solve_decision. Defined.
Global Instance value_eq_dec : EqDecision value.
Proof. solve_decision. Defined.
Global Instance nlmsg_eq_dec : EqDecision nlmsg.
Proof. solve_decision. Defined.
Global Instance item_eq_dec : EqDecision item.
Proof. solve_decision. Defined.
Global Instance kind_eq_dec : EqDecision kind.
Proof. solve_decision. Defined.

Definition exn_code (e : exn) : nat + (string + string) :=
  match e with
  | SyncStart => inl 0
  | SchemaFlush => inl 1
  | MarkFailed => inl 2
  | DBMExitException => inl 3
  | ShutdownException => inl 4
  | InvalidateHandlerException => inl 5
  | TypeError => inl 6
  | KeyError => inl 7
  | ValueError => inl 8
  | RuntimeError => inl 9
  | AttributeError => inl 10
  | IndexError => inl 11
  | OtherException s => inr (inl s)
  | BaseOnly s => inr (inr s)
  end.

Definition exn_decode (c : nat + (string + string)) : option exn :=
  match c with
  | inl 0 => Some SyncStart
  | inl 1 => Some SchemaFlush
  | inl 2 => Some MarkFailed
  | inl 3 => Some DBMExitException
  | inl 4 => Some ShutdownException
  | inl 5 => Some InvalidateHandlerException
  | inl 6 => Some TypeError
  | inl 7 => Some KeyError
  | inl 8 => Some ValueError
  | inl 9 => Some RuntimeError
  | inl 10 => Some AttributeError
  | inl 11 => Some IndexError
  | inl _ => None
  | inr (inl s) => Some (OtherException s)
  | inr (inr s) => Some (BaseOnly s)
  end.

Global Instance exn_countable : Countable exn.
Proof. apply (inj_countable exn_code exn_decode). by intros []. Defined.

Definition kind_code (k : kind) : exn + (unit + (string + string)) :=
  match k with
  | K_exc e => inl e
  | K_Event => inr (inl tt)
  | K_msg c => inr (inr (inl c))
  | K_obj c => inr (inr (inr c))
  end.

Definition kind_decode (c : exn + (unit + (string + string))) : kind :=
  match c with
  | inl e => K_exc e
  | inr (inl _) => K_Event
  | inr (inr (inl c)) => K_msg c
  | inr (inr (inr c)) => K_obj c
  end.

Global Instance kind_countable : Countable kind.
Proof. apply (inj_countable' kind_code kind_decode). by intros []. Defined.

(** ** Handlers

    The callables that appear in the registry, by identity.  The three
    lambdas and [check_sources_started] are the built-in handlers of
    [__dbm__]; [wr_handler wr fname] is [partial(wr_handler, wr, fname)]
    of [Factory.__getitem__]; [wait_handler q] is [partial(handler, evq)]
    of [NDB.wait]; [ext_handler] is any other callable (the schema's
    handlers, a user's). *)
Inductive handler : Type :=
  | default_handler
  | set_lambda
  | flush_lambda
  | mark_lambda
  | check_sources_started
  | wr_handler (wr : nat) (fname : string)
  | wait_handler (q : nat)
  | ext_handler (id : nat).

Global Instance handler_eq_dec : EqDecision handler.
Proof. solve_decision. Defined.

Definition signal_code (s : signal) : nat + nat :=
  match s with SigBarrier i => inl i | SigUser i => inr i end.

Global Instance signal_countable : Countable signal.
Proof.
  apply (inj_countable' signal_code
           (fun c => match c with inl i => SigBarrier i | inr i => SigUser i end)).
  by intros [].
Defined.

(** ** The source object and its thread *)

(** Which [return] ended the thread routine [t]. *)
Inductive returned : Type :=
  | RetStopped (b : nat)      (* line 517, after the barrier [b] was released *)
  | RetShutdown               (* line 531 *)
  | RetNotPersistent.         (* line 533 *)

(** Program points of the thread routine [t] of [Source.start], one per
    statement (a statement that calls the provider and then puts the
    result on the queue has two: the call, and the put that may block). *)
Inductive pc : Type :=
  | P_top                                   (* 470-475 *)
  | P_connecting                            (* 477 *)
  | P_select                                (* 478-483 *)
  | P_loading                               (* 484 *)
  | P_bind                                  (* 486 *)
  | P_put_flush                             (* 490 *)
  | P_get_links                             (* 491, the call *)
  | P_put_links (l : list nlmsg)            (* 491, the put *)
  | P_get_addr
  | P_put_addr (l : list nlmsg)
  | P_get_neighbours
  | P_put_neighbours (l : list nlmsg)
  | P_get_routes
  | P_put_routes (l : list nlmsg)
  | P_started_set                           (* 495 *)
  | P_shutdown_clear                        (* 496 *)
  | P_running                               (* 497 *)
  | P_put_event                             (* 498-499 *)
  | P_get                                   (* 501-506 *)
  | P_check (msg : option (list nlmsg))     (* 507-509 *)
  | P_stopped                               (* 510 *)
  | P_new_sync                              (* 514 *)
  | P_put_sync (b : nat)                    (* 515 *)
  | P_wait_sync (b : nat)                   (* 516 *)
  | P_put_msg (msg : list nlmsg)            (* 518 *)
  | P_except                                (* 521-522 *)
  | P_failed                                (* 523-524 *)
  | P_put_markfailed                        (* 525 *)
  | P_persistent                            (* 526 *)
  | P_sleep                                 (* 528 *)
  | P_is_set                                (* 529 *)
  | P_return (r : returned)                 (* the thread has returned *)
  | P_raise (e : exn).                      (* the thread died of [e] *)

(** [th.is_alive()] for a thread at program point [p] *)
Definition is_alive (p : pc) : bool :=
  match p with P_return _ | P_raise _ => false | _ => true end.

(** What [nl_prime] is: an instance of NetlinkMixin, a class, or anything
    else. *)
Inductive prime : Type :=
  | NetlinkMixin_instance (h : nat)
  | a_type (cls : string)
  | not_supported.

Record Source : Type := {
  th : option pc;
  nl : option nat;
  target : string;
  nl_prime : prime;
  nl_kwarg : list (string * value);
  event : option item;
  shutdown : bool;
  started : bool;
  lock : bool;
  persistent : bool;
  state : string
}.

(** [Source.__init__] *)
Definition Source_init (target : string) (source : prime)
    (event : option item) (persistent : bool)
    (nl_kwarg : list (string * value)) : Source :=
  {| th := None; nl := None; target := target; nl_prime := source;
     nl_kwarg := nl_kwarg; event := event; shutdown := false;
     started := false; lock := false; persistent := persistent;
     state := "init" |}.

Definition SOURCE_FAIL_PAUSE : Z := 5.

(** ** The engine state *)

(** A value of [NDB.sources]: a Source object (by reference), or the class
    [Source] itself, which line 833 stores. *)
Inductive src_ref : Type :=
  | Ref (sid : nat)
  | Source_class.

(** The key of [Factory.__getitem__]: a name or a dict. *)
Inductive key : Type :=
  | key_name (s : string)
  | key_dict (d : list (string * value)).

(** Calls that leave main.py. *)
Inductive call : Type :=
  | nl_close (h : nat) (err : option Z)
  | nl_new (cls : string) (kw : list (string * value))
  | nl_bind (h : nat)
  | nl_get_links (h : nat)
  | nl_get_addr (h : nat)
  | nl_get_neighbours (h : nat)
  | nl_get_routes (h : nat)
  | nl_get (h : nat)
  | schema_flush (t : string)
  | schema_mark (t : string) (flag : Z)
  | schema_commit
  | schema_close
  | call_handler (id : nat) (t : string) (ev : item)
  | call_method (wr : nat) (fname : string) (t : string) (ev : item)
  | iclass_new (table : string) (k : key).

(** What the threads do that another thread or a caller can observe; the
    engine state keeps the sequence as a ghost field. *)
Inductive entry : Type :=
  | T_call (c : call)
  | T_put (env : envelope)
  | T_apply (t : string) (ev : item)
  | T_log (level text : string)
  | T_state (sid : nat) (s : string)
  | T_started_set (sid : nat)
  | T_shutdown_clear (sid : nat)
  | T_shutdown_set (sid : nat)
  | T_shutdown_wait (sid : nat) (timeout : Z)
  | T_sync_wait (sid : nat) (b : nat).

(** The attributes of the NDB object ([_event_map] to [atexit_registered];
    [countdown] is [_locals['countdown']] of [__dbm__] and [_dbm_thread]
    tells whether the main loop is running), the interpreter's side (the
    Source objects, the RTNL objects still referenced, the allocator of
    object identities, the Event objects that are set, the queues of the
    [wait] calls in progress, the tick of the oracle) and the ghost trace. *)
Record NDB : Type := {
  _event_map : gmap kind (list handler);
  _rtnl_objects : gset nat;
  _event_queue : list envelope;
  sources : gmap string src_ref;
  schema : bool;
  _dbm_thread : bool;
  _dbm_ready : bool;
  _global_lock : bool;
  gctime : Z;
  countdown : Z;
  atexit_registered : bool;
  objs : gmap nat Source;
  live : gset nat;
  next_id : nat;
  signals : gset signal;
  wait_queues : gmap nat (list (string * item));
  tick : nat;
  trace : list entry
}.

(** Updates of one attribute. *)
Definition with_th (v : option pc) (x : Source) : Source :=
  Build_Source v (nl x) (target x) (nl_prime x) (nl_kwarg x) (event x)
    (shutdown x) (started x) (lock x) (persistent x) (state x).
Definition with_nl (v : option nat) (x : Source) : Source :=
  Build_Source (th x) v (target x) (nl_prime x) (nl_kwarg x) (event x)
    (shutdown x) (started x) (lock x) (persistent x) (state x).
Definition with_shutdown (v : bool) (x : Source) : Source :=
  Build_Source (th x) (nl x) (target x) (nl_prime x) (nl_kwarg x) (event x)
    v (started x) (lock x) (persistent x) (state x).
Definition with_started (v : bool) (x : Source) : Source :=
  Build_Source (th x) (nl x) (target x) (nl_prime x) (nl_kwarg x) (event x)
    (shutdown x) v (lock x) (persistent x) (state x).
Definition with_lock (v : bool) (x : Source) : Source :=
  Build_Source (th x) (nl x) (target x) (nl_prime x) (nl_kwarg x) (event x)
    (shutdown x) (started x) v (persistent x) (state x).
Definition with_state (v : string) (x : Source) : Source :=
  Build_Source (th x) (nl x) (target x) (nl_prime x) (nl_kwarg x) (event x)
    (shutdown x) (started x) (lock x) (persistent x) v.
Definition set_event_map (v : gmap kind (list handler)) (x : NDB) : NDB :=
  Build_NDB v (_rtnl_objects x) (_event_queue x) (sources x) (schema x)
    (_dbm_thread x) (_dbm_ready x) (_global_lock x) (gctime x) (countdown x)
    (atexit_registered x) (objs x) (live x) (next_id x) (signals x)
    (wait_queues x) (tick x) (trace x).
Definition set_rtnl_objects (v : gset nat) (x : NDB) : NDB :=
  Build_NDB (_event_map x) v (_event_queue x) (sources x) (schema x)
    (_dbm_thread x) (_dbm_ready x) (_global_lock x) (gctime x) (countdown x)
    (atexit_registered x) (objs x) (live x) (next_id x) (signals x)
    (wait_queues x) (tick x) (trace x).
Definition set_event_queue (v : list envelope) (x : NDB) : NDB :=
  Build_NDB (_event_map x) (_rtnl_objects x) v (sources x) (schema x)
    (_dbm_thread x) (_dbm_ready x) (_global_lock x) (gctime x) (countdown x)
    (atexit_registered x) (objs x) (live x) (next_id x) (signals x)
    (wait_queues x) (tick x) (trace x).
Definition set_sources (v : gmap string src_ref) (x : NDB) : NDB :=
  Build_NDB (_event_map x) (_rtnl_objects x) (_event_queue x) v (schema x)
    (_dbm_thread x) (_dbm_ready x) (_global_lock x) (gctime x) (countdown x)
    (atexit_registered x) (objs x) (live x) (next_id x) (signals x)
    (wait_queues x) (tick x) (trace x).
Definition set_schema (v : bool) (x : NDB) : NDB :=
  Build_NDB (_event_map x) (_rtnl_objects x) (_event_queue x) (sources x) v
    (_dbm_thread x) (_dbm_ready x) (_global_lock x) (gctime x) (countdown x)
    (atexit_registered x) (objs x) (live x) (next_id x) (signals x)
    (wait_queues x) (tick x) (trace x).
Definition set_dbm_thread (v : bool) (x : NDB) : NDB :=
  Build_NDB (_event_map x) (_rtnl_objects x) (_event_queue x) (sources x)
    (schema x) v (_dbm_ready x) (_global_lock x) (gctime x) (countdown x)
    (atexit_registered x) (objs x) (live x) (next_id x) (signals x)
    (wait_queues x) (tick x) (trace x).
Definition set_dbm_ready (v : bool) (x : NDB) : NDB :=
  Build_NDB (_event_map x) (_rtnl_objects x) (_event_queue x) (sources x)
    (schema x) (_dbm_thread x) v (_global_lock x) (gctime x) (countdown x)
    (atexit_registered x) (objs x) (live x) (next_id x) (signals x)
    (wait_queues x) (tick x) (trace x).
Definition set_global_lock (v : bool) (x : NDB) : NDB :=
  Build_NDB (_event_map x) (_rtnl_objects x) (_event_queue x) (sources x)
    (schema x) (_dbm_thread x) (_dbm_ready x) v (gctime x) (countdown x)
    (atexit_registered x) (objs x) (live x) (next_id x) (signals x)
    (wait_queues x) (tick x) (trace x).
Definition set_gctime (v : Z) (x : NDB) : NDB :=
  Build_NDB (_event_map x) (_rtnl_objects x) (_event_queue x) (sources x)
    (schema x) (_dbm_thread x) (_dbm_ready x) (_global_lock x) v (countdown
    x) (atexit_registered x) (objs x) (live x) (next_id x) (signals x)
    (wait_queues x) (tick x) (trace x).
Definition set_countdown (v : Z) (x : NDB) : NDB :=
  Build_NDB (_event_map x) (_rtnl_objects x) (_event_queue x) (sources x)
    (schema x) (_dbm_thread x) (_dbm_ready x) (_global_lock x) (gctime x) v
    (atexit_registered x) (objs x) (live x) (next_id x) (signals x)
    (wait_queues x) (tick x) (trace x).
Definition set_atexit_registered (v : bool) (x : NDB) : NDB :=
  Build_NDB (_event_map x) (_rtnl_objects x) (_event_queue x) (sources x)
    (schema x) (_dbm_thread x) (_dbm_ready x) (_global_lock x) (gctime x)
    (countdown x) v (objs x) (live x) (next_id x) (signals x) (wait_queues
    x) (tick x) (trace x).
Definition set_objs (v : gmap nat Source) (x : NDB) : NDB :=
  Build_NDB (_event_map x) (_rtnl_objects x) (_event_queue x) (sources x)
    (schema x) (_dbm_thread x) (_dbm_ready x) (_global_lock x) (gctime x)
    (countdown x) (atexit_registered x) v (live x) (next_id x) (signals x)
    (wait_queues x) (tick x) (trace x).
Definition set_live (v : gset nat) (x : NDB) : NDB :=
  Build_NDB (_event_map x) (_rtnl_objects x) (_event_queue x) (sources x)
    (schema x) (_dbm_thread x) (_dbm_ready x) (_global_lock x) (gctime x)
    (countdown x) (atexit_registered x) (objs x) v (next_id x) (signals x)
    (wait_queues x) (tick x) (trace x).
Definition set_next_id (v : nat) (x : NDB) : NDB :=
  Build_NDB (_event_map x) (_rtnl_objects x) (_event_queue x) (sources x)
    (schema x) (_dbm_thread x) (_dbm_ready x) (_global_lock x) (gctime x)
    (countdown x) (atexit_registered x) (objs x) (live x) v (signals x)
    (wait_queues x) (tick x) (trace x).
Definition set_signals (v : gset signal) (x : NDB) : NDB :=
  Build_NDB (_event_map x) (_rtnl_objects x) (_event_queue x) (sources x)
    (schema x) (_dbm_thread x) (_dbm_ready x) (_global_lock x) (gctime x)
    (countdown x) (atexit_registered x) (objs x) (live x) (next_id x) v
    (wait_queues x) (tick x) (trace x).
Definition set_wait_queues (v : gmap nat (list (string * item))) (x : NDB) : NDB :=
  Build_NDB (_event_map x) (_rtnl_objects x) (_event_queue x) (sources x)
    (schema x) (_dbm_thread x) (_dbm_ready x) (_global_lock x) (gctime x)
    (countdown x) (atexit_registered x) (objs x) (live x) (next_id x)
    (signals x) v (tick x) (trace x).
Definition set_tick (v : nat) (x : NDB) : NDB :=
  Build_NDB (_event_map x) (_rtnl_objects x) (_event_queue x) (sources x)
    (schema x) (_dbm_thread x) (_dbm_ready x) (_global_lock x) (gctime x)
    (countdown x) (atexit_registered x) (objs x) (live x) (next_id x)
    (signals x) (wait_queues x) v (trace x).
Definition set_trace (v : list entry) (x : NDB) : NDB :=
  Build_NDB (_event_map x) (_rtnl_objects x) (_event_queue x) (sources x)
    (schema x) (_dbm_thread x) (_dbm_ready x) (_global_lock x) (gctime x)
    (countdown x) (atexit_registered x) (objs x) (live x) (next_id x)
    (signals x) (wait_queues x) (tick x) v.

(** Everything main.py does not define.  [raises i c] tells whether the
    call [c], made at tick [i], raises; [returns i c] is the sequence of
    messages it returns otherwise; [clock i] is [time.time()] at tick [i]. *)
Record oracle : Type := {
  raises : nat -> call -> option exn;
  returns : nat -> call -> list nlmsg;
  clock : nat -> Z;
  gc_timeout : Z;                               (* config.gc_timeout *)
  schema_classes : string -> option string;     (* schema.classes[name] *)
  schema_event_map : list (kind * list nat);    (* schema.event_map *)
  iclass_event_map : string -> gmap kind string; (* the event_map of a class *)
  name2nla : string -> string -> string         (* msg.name2nla, by class *)
}.

(** ** Computations that may raise or block

    The result of running a piece of code on a state: it returned, it
    raised, or it is suspended until [ready] holds of the shared state, to
    be resumed by [k] on the state it finds then. *)
Inductive outcome (A : Type) : Type :=
  | Ret (a : A) (n : NDB)
  | Exc (e : exn) (n : NDB)
  | Wait (n : NDB) (ready : NDB -> bool) (k : NDB -> outcome A).

Arguments Ret {A} a n.
Arguments Exc {A} e n.
Arguments Wait {A} n ready k.

Definition M (A : Type) : Type := NDB -> outcome A.

Fixpoint bind_out {A B : Type} (o : outcome A) (f : A -> M B) : outcome B :=
  match o with
  | Ret a n => f a n
  | Exc e n => Exc e n
  | Wait n r k => Wait n r (fun n' => bind_out (k n') f)
  end.

Definition ret {A : Type} (a : A) : M A := fun n => Ret a n.
Definition raise {A : Type} (e : exn) : M A := fun n => Exc e n.
Definition bind {A B : Type} (c : M A) (f : A -> M B) : M B :=
  fun n => bind_out (c n) f.

Notation "x <- c ;; k" := (bind c (fun x => k))
  (at level 100, c at next level, right associativity,
   format "'[v' x  <-  c  ;;  '/' k ']'").
Notation "c ;;; k" := (bind c (fun _ => k))
  (at level 100, right associativity, format "'[v' c  ;;;  '/' k ']'").

(** [try: c  except: h] -- [h] decides which exceptions it handles and
    re-raises the others. *)
Fixpoint catch_out {A : Type} (o : outcome A) (h : exn -> M A) : outcome A :=
  match o with
  | Ret a n => Ret a n
  | Exc e n => h e n
  | Wait n r k => Wait n r (fun n' => catch_out (k n') h)
  end.

Definition try_except {A : Type} (c : M A) (h : exn -> M A) : M A :=
  fun n => catch_out (c n) h.

(** [except Exception:] *)
Definition except_Exception {A : Type} (h : exn -> M A) (e : exn) : M A :=
  if is_Exception e then h e else raise e.

Definition gets {A : Type} (f : NDB -> A) : M A := fun n => Ret (f n) n.
Definition modify (f : NDB -> NDB) : M unit := fun n => Ret tt (f n).

(** Block until [ready] holds. *)
Definition await (ready : NDB -> bool) : M unit :=
  fun n => if ready n then Ret tt n else Wait n ready (fun n' => Ret tt n').

Definition when (b : bool) (c : M unit) : M unit := if b then c else ret tt.

Fixpoint for_each {A : Type} (l : list A) (body : A -> M unit) : M unit :=
  match l with
  | [] => ret tt
  | a :: l' => body a ;;; for_each l' body
  end.

Definition emit (e : entry) : M unit :=
  modify (fun n => set_trace (trace n ++ [e]) n).

Definition log (level text : string) : M unit := emit (T_log level text).

Section Engine.

Variable O : oracle.

(** A call that leaves main.py: it is recorded, the tick advances, and
    the oracle tells whether it raises. *)
Definition ext (c : call) : M unit :=
  fun n =>
    let n' := set_tick (S (tick n)) (set_trace (trace n ++ [T_call c]) n) in
    match raises O (tick n) c with
    | Some e => Exc e n'
    | None => Ret tt n'
    end.

(** Such a call that returns messages. *)
Definition ext_msgs (c : call) : M (list nlmsg) :=
  fun n => bind_out (ext c n) (fun _ => ret (returns O (tick n) c)).

(** [time.time()] *)
Definition time_time : M Z :=
  fun n => Ret (clock O (tick n)) (set_tick (S (tick n)) n).

(** A new object identity. *)
Definition fresh : M nat :=
  fun n => Ret (next_id n) (set_next_id (S (next_id n)) n).

(** *** The handler registry (lines 646-652) *)

(** [list.remove]: the first occurrence goes, [None] stands for the
    ValueError of an absent element. *)
Fixpoint list_remove {A : Type} `{EqDecision A} (x : A) (l : list A)
    : option (list A) :=
  match l with
  | [] => None
  | y :: l' =>
      if decide (x = y) then Some l'
      else match list_remove x l' with
           | Some r => Some (y :: r)
           | None => None
           end
  end.

Definition register_handler (event : kind) (handler : handler) : M unit :=
  modify (fun n =>
    set_event_map
      (<[event := default [] (_event_map n !! event) ++ [handler]]>
         (_event_map n)) n).

Definition unregister_handler (event : kind) (handler : handler) : M unit :=
  fun n =>
    match _event_map n !! event with
    | None => Exc KeyError n
    | Some l =>
        match list_remove handler l with
        | None => Exc ValueError n
        | Some l' => Ret tt (set_event_map (<[event := l']> (_event_map n)) n)
        end
    end.

(** *** The event queue: [queue.Queue(maxsize=100)] *)

Definition maxsize : nat := 100.

(** [put] blocks while the queue is full. *)
Definition put (env : envelope) : M unit :=
  await (fun n => bool_decide (length (_event_queue n) < maxsize)) ;;;
  modify (fun n =>
    set_event_queue (_event_queue n ++ [env])
      (set_trace (trace n ++ [T_put env]) n)).

(** *** Source objects *)

Definition dangling : exn := OtherException "dangling reference".

(** Read, and write, an attribute of the Source object [sid]. *)
Definition self_get {A : Type} (sid : nat) (f : Source -> A) : M A :=
  fun n =>
    match objs n !! sid with
    | Some s => Ret (f s) n
    | None => Exc dangling n
    end.

Definition self_set (sid : nat) (f : Source -> Source) : M unit :=
  modify (fun n => set_objs (alter f sid (objs n)) n).

Definition lock_free (sid : nat) (n : NDB) : bool :=
  match objs n !! sid with
  | Some s => negb (lock s)
  | None => true
  end.

(** [with self.lock:] *)
Definition with_self_lock {A : Type} (sid : nat) (body : M A) : M A :=
  await (lock_free sid) ;;;
  self_set sid (with_lock true) ;;;
  try_except
    (a <- body ;; self_set sid (with_lock false) ;;; ret a)
    (fun e => self_set sid (with_lock false) ;;; raise e).

(** [Source.start], lines 537-544; the thread begins at the head of [t]. *)
Definition Source_start (sid : nat) : M unit :=
  with_self_lock sid
    (t <- self_get sid th ;;
     match t with
     | Some p => if is_alive p then raise RuntimeError
                 else self_set sid (with_th (Some P_top))
     | None => self_set sid (with_th (Some P_top))
     end).

Definition thread_done (sid : nat) (n : NDB) : bool :=
  match objs n !! sid with
  | Some s => match th s with Some p => negb (is_alive p) | None => true end
  | None => true
  end.

(** [Source.close], lines 546-554 *)
Definition Source_close (sid : nat) : M unit :=
  with_self_lock sid
    (h <- self_get sid nl ;;
     match h with
     | Some h =>
         try_except (ext (nl_close h None))
           (except_Exception (fun _ => log "error" "source close"))
     | None => ret tt
     end ;;;
     t <- self_get sid th ;;
     match t with
     | Some _ => await (thread_done sid)       (* self.th.join() *)
     | None => ret tt
     end).

(** A method called on a value of [NDB.sources]; on the class [Source]
    itself the call lacks [self]. *)
Definition ref_start (r : src_ref) : M unit :=
  match r with Ref sid => Source_start sid | Source_class => raise TypeError end.

Definition ref_close (r : src_ref) : M unit :=
  match r with Ref sid => Source_close sid | Source_class => raise TypeError end.

(** *** Handlers, called *)

Definition invoke (h : handler) (target : string) (ev : item) : M unit :=
  match h with
  | default_handler =>                                  (* lines 847-850 *)
      match ev with
      | E_exc e =>
          if is_Exception e then raise e
          else log "warning" "unsupported event ignored"
      | _ => log "warning" "unsupported event ignored"
      end
  | set_lambda =>                                       (* x.set() *)
      match ev with
      | E_signal s =>
          modify (fun n => set_signals ({[ s ]} ∪ signals n) n)
      | _ => raise AttributeError
      end
  | flush_lambda => ext (schema_flush target)
  | mark_lambda => ext (schema_mark target 1)
  | check_sources_started =>                            (* lines 852-855 *)
      modify (fun n => set_countdown (countdown n - 1) n) ;;;
      c <- gets countdown ;;
      when (bool_decide (c = 0%Z))
        (modify (fun n => set_dbm_ready true n))
  | wr_handler wr fname =>                              (* lines 248-255 *)
      alive <- gets (fun n => bool_decide (wr ∈ live n)) ;;
      if (alive : bool) then ext (call_method wr fname target ev)
      else raise InvalidateHandlerException
  | wait_handler q =>                                   (* lines 673-684 *)
      modify (fun n =>
        match wait_queues n !! q with
        | Some l =>
            if bool_decide (length l < 512)
            then set_wait_queues (<[q := l ++ [(target, ev)]]> (wait_queues n)) n
            else n                                      (* queue.Full *)
        | None => n
        end)
  | ext_handler id => ext (call_handler id target ev)
  end.

(** *** The main loop, lines 884-909 *)

(** Whether the loop goes on or [__dbm__] returns (line 901). *)
Inductive flow : Type :=
  | Continue
  | Return.

(** Lines 892-896: [handlers.remove(handler)].  [handlers] is the list of
    the registry when the class of the event is registered ([registered]),
    and the list [[default_handler]] made for the occasion when it is
    not. *)
Definition invalidate (registered : bool) (k : kind) (h : handler) : M unit :=
  if registered then
    fun n =>
      match list_remove h (default [] (_event_map n !! k)) with
      | Some l' => Ret tt (set_event_map (<[k := l']> (_event_map n)) n)
      | None => log "error" "could not invalidate event handler" n
      end
  else ret tt.

(** Lines 898-899.  The loop rebinds [target]: what comes back is its
    value after the loop. *)
Fixpoint shutdown_all (l : list (string * src_ref)) (target : string)
    : M string :=
  match l with
  | [] => ret target
  | (t, Ref sid) :: l' =>
      self_set sid (with_shutdown true) ;;;
      emit (T_shutdown_set sid) ;;;
      shutdown_all l' t
  | (t, Source_class) :: _ => raise AttributeError
  end.

(** Lines 888-904: the handlers of one event, over the snapshot
    [tuple(handlers)]. *)
Fixpoint run_handlers (registered : bool) (ev : item) (hs : list handler)
    (target : string) : M (string * flow) :=
  match hs with
  | [] => ret (target, Continue)
  | h :: hs' =>
      r <- try_except (invoke h target ev ;;; ret None)
             (fun e => ret (Some e)) ;;
      match r with
      | None => run_handlers registered ev hs' target
      | Some InvalidateHandlerException =>
          invalidate registered (class_of ev) h ;;;
          run_handlers registered ev hs' target
      | Some ShutdownException =>
          srcs <- gets sources ;;
          target' <- shutdown_all (map_to_list srcs) target ;;
          run_handlers registered ev hs' target'
      | Some DBMExitException => ret (target, Return)
      | Some _ =>
          log "error" "could not load event" ;;;
          run_handlers registered ev hs' target
      end
  end.

(** The sweep of lines 907-909. *)
Definition sweep (n : NDB) : NDB :=
  set_rtnl_objects (filter (fun wr => wr ∈ live n) (_rtnl_objects n)) n.

(** Lines 905-909 *)
Definition gc_check : M unit :=
  now <- time_time ;;
  g <- gets gctime ;;
  when (bool_decide (gc_timeout O < now - g)%Z)
    (now' <- time_time ;;
     modify (fun n => sweep (set_gctime now' n))).

(** Lines 886-909 for one event; [t0] is the target the envelope came
    with, [target] the variable. *)
Definition dispatch_event (t0 : string) (ev : item) (target : string)
    : M (string * flow) :=
  emit (T_apply t0 ev) ;;;
  em <- gets _event_map ;;
  r <- match em !! class_of ev with
       | Some handlers => run_handlers true ev handlers target
       | None => run_handlers false ev [default_handler] target
       end ;;
  match r with
  | (target', Continue) => gc_check ;;; ret (target', Continue)
  | (target', Return) => ret (target', Return)
  end.

Fixpoint dispatch_events (t0 : string) (events : list item) (target : string)
    : M flow :=
  match events with
  | [] => ret Continue
  | ev :: events' =>
      r <- dispatch_event t0 ev target ;;
      match r with
      | (target', Continue) => dispatch_events t0 events' target'
      | (_, Return) => ret Return
      end
  end.

(** One turn of [while True] (lines 884-909): the loop takes an envelope
    from the queue and handles its events.  It cannot move on an empty
    queue; it is over when it returns or dies of an exception. *)
Definition dbm_step (n : NDB) : option NDB :=
  if _dbm_thread n then
    match _event_queue n with
    | [] => None
    | (target, events) :: q =>
        Some match dispatch_events target events target
                     (set_event_queue q n) with
             | Ret Continue n' => n'
             | Ret Return n' => set_dbm_thread false n'
             | Exc e n' =>
                 set_dbm_thread false
                   (set_trace (trace n' ++ [T_log "died" "NDB main loop"]) n')
             | Wait n' _ _ => n'
             end
    end
  else None.

(** The loop on its own, for [k] turns or until it cannot move. *)
Fixpoint dbm_run (k : nat) (n : NDB) : NDB :=
  match k with
  | 0 => n
  | S k' =>
      match dbm_step n with
      | Some n' => dbm_run k' n'
      | None => n
      end
  end.

(** *** The source thread: the routine [t] of [Source.start], lines 468-533 *)

Definition set_state (sid : nat) (s : string) : M unit :=
  self_set sid (with_state s) ;;; emit (T_state sid s).

Definition barrier_set (b : nat) (n : NDB) : bool :=
  bool_decide (SigBarrier b ∈ signals n).

(** [self.evq.put((self.target, events))] *)
Definition self_put (sid : nat) (events : list item) : M unit :=
  fun n =>
    match objs n !! sid with
    | Some s => put (target s, events) n
    | None => Exc dangling n
    end.

(** [self.nl.<method>()] *)
Definition self_nl {A : Type} (sid : nat) (f : nat -> M A) : M A :=
  h <- self_get sid nl ;;
  match h with
  | Some h => f h
  | None => raise AttributeError
  end.

(** Line 507-509: the test on what [get] returned. *)
Definition interrupted (msg : option (list nlmsg)) : M bool :=
  match msg with
  | None => ret true
  | Some [] => raise IndexError
  | Some (m :: _) =>
      ret match header_error m with
          | Some code => bool_decide (code = 104%Z)
          | None => false
          end
  end.

(** The statement at a program point and the point that follows it. *)
Definition stmt (sid : nat) (p : pc) : M pc :=
  match p with
  | P_top =>
      h <- self_get sid nl ;;
      match h with
      | Some h =>
          try_except (ext (nl_close h (Some 0%Z)))
            (except_Exception (fun _ => log "warning" "source restart"))
      | None => ret tt
      end ;;;
      ret P_connecting
  | P_connecting => set_state sid "connecting" ;;; ret P_select
  | P_select =>
      prime <- self_get sid nl_prime ;;
      match prime with
      | NetlinkMixin_instance h => self_set sid (with_nl (Some h))
      | a_type cls =>
          kw <- self_get sid nl_kwarg ;;
          ext (nl_new cls kw) ;;;
          h <- fresh ;;
          self_set sid (with_nl (Some h))
      | not_supported => raise TypeError
      end ;;;
      ret P_loading
  | P_loading => set_state sid "loading" ;;; ret P_bind
  | P_bind => self_nl sid (fun h => ext (nl_bind h)) ;;; ret P_put_flush
  | P_put_flush => self_put sid [E_exc SchemaFlush] ;;; ret P_get_links
  | P_get_links =>
      l <- self_nl sid (fun h => ext_msgs (nl_get_links h)) ;;
      ret (P_put_links l)
  | P_put_links l => self_put sid (E_msg <$> l) ;;; ret P_get_addr
  | P_get_addr =>
      l <- self_nl sid (fun h => ext_msgs (nl_get_addr h)) ;;
      ret (P_put_addr l)
  | P_put_addr l => self_put sid (E_msg <$> l) ;;; ret P_get_neighbours
  | P_get_neighbours =>
      l <- self_nl sid (fun h => ext_msgs (nl_get_neighbours h)) ;;
      ret (P_put_neighbours l)
  | P_put_neighbours l => self_put sid (E_msg <$> l) ;;; ret P_get_routes
  | P_get_routes =>
      l <- self_nl sid (fun h => ext_msgs (nl_get_routes h)) ;;
      ret (P_put_routes l)
  | P_put_routes l => self_put sid (E_msg <$> l) ;;; ret P_started_set
  | P_started_set =>
      self_set sid (with_started true) ;;;
      emit (T_started_set sid) ;;;
      ret P_shutdown_clear
  | P_shutdown_clear =>
      self_set sid (with_shutdown false) ;;;
      emit (T_shutdown_clear sid) ;;;
      ret P_running
  | P_running => set_state sid "running" ;;; ret P_put_event
  | P_put_event =>
      ev <- self_get sid event ;;
      match ev with
      | Some ev => self_put sid [ev]
      | None => ret tt
      end ;;;
      ret P_get
  | P_get =>
      try_except
        (l <- self_nl sid (fun h => ext_msgs (nl_get h)) ;;
         ret (P_check (Some l)))
        (except_Exception
           (fun _ => log "error" "source error" ;;; ret (P_check None)))
  | P_check msg =>
      stop <- interrupted msg ;;
      ret (if (stop : bool) then P_stopped else P_put_msg (default [] msg))
  | P_stopped => set_state sid "stopped" ;;; ret P_new_sync
  | P_new_sync => b <- fresh ;; ret (P_put_sync b)
  | P_put_sync b =>
      self_put sid [E_signal (SigBarrier b)] ;;; ret (P_wait_sync b)
  | P_wait_sync b =>
      await (barrier_set b) ;;;
      emit (T_sync_wait sid b) ;;;
      ret (P_return (RetStopped b))
  | P_put_msg msg => self_put sid (E_msg <$> msg) ;;; ret P_get
  | P_except =>
      self_set sid (with_started true) ;;;
      emit (T_started_set sid) ;;;
      ret P_failed
  | P_failed =>
      set_state sid "failed" ;;;
      log "error" "source error" ;;;
      ret P_put_markfailed
  | P_put_markfailed => self_put sid [E_exc MarkFailed] ;;; ret P_persistent
  | P_persistent =>
      pers <- self_get sid persistent ;;
      ret (if (pers : bool) then P_sleep else P_return RetNotPersistent)
  | P_sleep =>
      log "debug" "sleeping before restart" ;;;
      emit (T_shutdown_wait sid SOURCE_FAIL_PAUSE) ;;;
      ret P_is_set
  | P_is_set =>
      stop <- self_get sid shutdown ;;
      ret (if (stop : bool) then P_return RetShutdown else P_top)
  | P_return r => ret (P_return r)
  | P_raise e => ret (P_raise e)
  end.

(** The statements inside [try:] (lines 477-518). *)
Definition in_try (p : pc) : bool :=
  match p with
  | P_top | P_except | P_failed | P_put_markfailed | P_persistent
  | P_sleep | P_is_set | P_return _ | P_raise _ => false
  | _ => true
  end.

(** Lines 519-521: where an exception raised inside [try:] leads.  A
    TypeError is raised again, and so is what [except Exception] does not
    catch; both end the thread. *)
Definition except_clauses (e : exn) : pc :=
  match e with
  | TypeError => P_raise TypeError
  | _ => if is_Exception e then P_except else P_raise e
  end.

Definition goto (sid : nat) (p : pc) (n : NDB) : NDB :=
  set_objs (alter (with_th (Some p)) sid (objs n)) n.

(** One step of the thread of the source [sid]: nothing when there is no
    live thread or when its statement blocks. *)
Definition pump_step (sid : nat) (n : NDB) : option NDB :=
  match objs n !! sid with
  | Some s =>
      match th s with
      | Some p =>
          if is_alive p then
            match stmt sid p n with
            | Ret p' n' => Some (goto sid p' n')
            | Exc e n' =>
                Some (goto sid (if in_try p then except_clauses e
                                else P_raise e) n')
            | Wait _ _ _ => None
            end
          else None
      | None => None
      end
  | None => None
  end.

(** The thread of [sid] on its own, for [k] steps or until it cannot
    move. *)
Fixpoint pump_run (k : nat) (sid : nat) (n : NDB) : NDB :=
  match k with
  | 0 => n
  | S k' =>
      match pump_step sid n with
      | Some n' => pump_run k' sid n'
      | None => n
      end
  end.

(** *** Connecting and disconnecting sources, lines 788-843 *)

(** The [source] argument of [connect_source]: an instance of
    NetlinkMixin, a dict (with what it holds under 'class' and under
    'persistent', and the other items), a Source, or anything else. *)
Inductive source_spec : Type :=
  | a_NetlinkMixin (h : nat)
  | a_dict (cls : option prime) (pers : option bool)
           (kw : list (string * value))
  | a_Source
  | unsupported.

(** [self.sources[target] = Source(...)] *)
Definition new_source (s : Source) : M unit :=
  sid <- fresh ;;
  modify (fun n =>
    set_sources (<[target s := Ref sid]> (sources n))
      (set_objs (<[sid := s]> (objs n)) n)).

Definition del_source (target : string) : M unit :=
  modify (fun n => set_sources (delete target (sources n)) n).

Definition disconnect_source (target : string) (flush : bool) : M unit :=
  srcs <- gets sources ;;
  match srcs !! target with
  | None => raise KeyError
  | Some r =>
      ref_close r ;;;
      del_source target ;;;
      when flush (ext (schema_flush target))
  end.

Definition connect_source (target : string) (source : source_spec)
    (event : option item) : M unit :=
  ext (schema_flush target) ;;;
  srcs <- gets sources ;;
  when (bool_decide (is_Some (srcs !! target)))
    (disconnect_source target true) ;;;
  try_except
    (match source with
     | a_NetlinkMixin h =>
         new_source
           (Source_init target (NetlinkMixin_instance h) event true [])
     | a_dict cls pers kw =>
         match cls with
         | None => raise KeyError                    (* source.pop('class') *)
         | Some iclass =>
             new_source
               (Source_init target iclass event (default false pers) kw)
         end
     | a_Source =>                                   (* line 833 *)
         modify (fun n =>
           set_sources (<[target := Source_class]> (sources n)) n)
     | unsupported => raise TypeError
     end ;;;
     srcs <- gets sources ;;
     match srcs !! target with
     | Some r => ref_start r
     | None => raise KeyError
     end)
    (fun e =>
       srcs <- gets sources ;;
       match srcs !! target with
       | Some r => ref_close r ;;; del_source target
       | None => ret tt
       end ;;;
       ext (schema_flush target) ;;;
       raise e).

(** *** [NDB.close], lines 744-764 *)

Definition with_global_lock {A : Type} (body : M A) : M A :=
  await (fun n => negb (_global_lock n)) ;;;
  modify (set_global_lock true) ;;;
  try_except
    (a <- body ;; modify (set_global_lock false) ;;; ret a)
    (fun e => modify (set_global_lock false) ;;; raise e).

Definition close : M unit :=
  with_global_lock
    (modify (set_atexit_registered false) ;;;
     s <- gets schema ;;
     when s
       (put ("localhost", [E_exc ShutdownException]) ;;;
        srcs <- gets sources ;;
        for_each (map_to_list srcs) (fun tr => ref_close tr.2) ;;;
        put ("localhost", [E_exc DBMExitException]) ;;;
        await (fun n => negb (_dbm_thread n)) ;;;   (* _dbm_thread.join() *)
        ext schema_commit ;;;
        ext schema_close)).

(** *** [Factory.__getitem__], lines 239-274 *)

Definition Factory_classes : list string :=
  ["interfaces"; "vlan"; "bridge"; "addresses"; "routes"; "neighbours"].

(** The result is the new object, which its caller references; [wr], the
    weak reference to it, has the same identity in this model. *)
Definition Factory_getitem (self_table : string) (k : key)
    (table : option string) : M nat :=
  let tbl := match table with
             | Some t => if bool_decide (t = "") then self_table else t
             | None => self_table
             end in
  if bool_decide (tbl ∈ Factory_classes) then
    ext (iclass_new tbl k) ;;;
    wr <- fresh ;;
    modify (fun n =>
      set_rtnl_objects ({[ wr ]} ∪ _rtnl_objects n)
        (set_live ({[ wr ]} ∪ live n) n)) ;;;
    for_each (map_to_list (iclass_event_map O tbl))
      (fun ef => register_handler ef.1 (wr_handler wr ef.2)) ;;;
    ret wr
  else raise KeyError.

(** The last reference to the object [oid] goes away. *)
Definition drop (oid : nat) : M unit :=
  modify (fun n => set_live (live n ∖ {[ oid ]}) n).

(** *** Start-up: [NDB.__init__] and the head of [__dbm__] *)

(** The state [__init__] (lines 571-598) leaves to the main loop thread;
    [now] is [time.time()]. *)
Definition NDB_init (now : Z) : NDB :=
  {| _event_map := ∅; _rtnl_objects := ∅; _event_queue := [];
     sources := ∅; schema := false; _dbm_thread := true;
     _dbm_ready := false; _global_lock := false; gctime := now;
     countdown := 0; atexit_registered := true; objs := ∅; live := ∅;
     next_id := 0; signals := ∅; wait_queues := ∅; tick := 0;
     trace := [] |}.

(** Lines 860-864 *)
Definition builtin_event_map : gmap kind (list handler) :=
  <[K_Event := [set_lambda]]>
    (<[K_exc SchemaFlush := [flush_lambda]]>
       (<[K_exc MarkFailed := [mark_lambda]]>
          (<[K_exc SyncStart := [check_sources_started]]> ∅))).

(** Lines 766-786 *)
Definition initdb : M unit :=
  with_global_lock
    (s <- gets schema ;;
     when s (ext schema_commit ;;; ext schema_close)).

(** Lines 857-882, [_nl] being the sources the engine was made with. *)
Definition dbm_startup (_nl : list (string * source_spec)) : M unit :=
  modify (fun n =>
    set_event_map builtin_event_map
      (set_countdown (Z.of_nat (length _nl)) n)) ;;;
  initdb ;;;
  modify (set_schema true) ;;;
  for_each _nl (fun ts =>
    try_except (connect_source ts.1 ts.2 (Some (E_exc SyncStart)))
      (except_Exception
         (fun _ => log "error" "could not connect source"))) ;;;
  for_each (schema_event_map O) (fun eh =>
    for_each eh.2 (fun h => register_handler eh.1 (ext_handler h))).

(** *** [NDB.wait], lines 657-742 *)

(** A dict of field matches, in the order of its items. *)
Definition dict : Type := list (string * value).

(** [d.get(key)] *)
Fixpoint dict_get {V : Type} (d : list (string * V)) (key : string)
    : option V :=
  match d with
  | [] => None
  | (k, v) :: d' => if bool_decide (k = key) then Some v else dict_get d' key
  end.

(** An entry of [wait_for]: [(event, self.schema.classes[event], obj)] *)
Definition cond : Type := string * kind * dict.

(** The factories [NDB.__init__] makes (lines 600-605): attribute, table. *)
Definition NDB_factories : list (string * string) :=
  [("interfaces", "interfaces"); ("addresses", "addresses");
   ("routes", "routes"); ("neighbours", "neighbours");
   ("vlans", "vlan"); ("bridges", "bridge")].

(** [self.schema.classes[event]] *)
Definition classes (event : string) : M kind :=
  match schema_classes O event with
  | Some c => ret (K_msg c)
  | None => raise KeyError
  end.

(** [getattr(self, event)[obj]]; the object is referenced by nothing once
    the statement is over. *)
Definition db_lookup (event : string) (obj : dict) : M unit :=
  match dict_get NDB_factories event with
  | Some table =>
      oid <- Factory_getitem table (key_dict obj) None ;;
      drop oid
  | None => raise AttributeError
  end.

(** Why an entry left [wait_for]: the lookup made at tick [i] succeeded,
    or the event [msg] that came with [target] matched.  The Python code
    keeps no such record; the functions below return it next to what the
    code computes. *)
Inductive seen : Type :=
  | by_lookup (c : cond) (i : nat)
  | by_event (c : cond) (target : string) (msg : item).

Definition seen_cond (s : seen) : cond :=
  match s with
  | by_lookup c _ => c
  | by_event c _ _ => c
  end.

(** The body of the loop of [check_db] (lines 700-708) for one entry:
    the tick of the lookup when the entry is to be removed. *)
Definition check_one (c : cond) : M (option nat) :=
  let '(event, evc, obj) := c in
  srcs <- gets sources ;;
  match default (VStr "localhost") (dict_get obj "target") with
  | VStr target =>
      match srcs !! target with
      | Some (Ref sid) =>
          st <- self_get sid state ;;
          if bool_decide (st = "running") then
            i <- gets tick ;;
            try_except (db_lookup event obj ;;; ret (Some i))
              (fun e => if bool_decide (e = KeyError) then ret None
                        else raise e)
          else raise RuntimeError
      | Some Source_class => raise AttributeError
      | None => raise KeyError
      end
  | _ => raise KeyError
  end.

(** [check_db(l)], lines 698-708: [snapshot] is what is left of
    [tuple(l)]; the result is [l] after the removals, and the record of
    the removals. *)
Fixpoint check_db (snapshot l : list cond) : M (list cond * list seen) :=
  match snapshot with
  | [] => ret (l, [])
  | c :: snapshot' =>
      sat <- check_one c ;;
      match sat with
      | Some i =>
          match list_remove c l with
          | Some l' =>
              r <- check_db snapshot' l' ;;
              ret (r.1, by_lookup c i :: r.2)
          | None => raise ValueError
          end
      | None => check_db snapshot' l
      end
  end.

(** [msg.get(key)] and [msg.get_attr(msg.name2nla(key))]; both give None
    for what the message does not have. *)
Definition msg_get (m : nlmsg) (key : string) : value :=
  default VNone (dict_get (msg_fields m) key).

Definition msg_get_attr (m : nlmsg) (key : string) : value :=
  default VNone (dict_get (msg_nla m) (name2nla O (msg_class m) key)).

(** Lines 726-731: the loop over [obj.items()] runs to its end. *)
Fixpoint fields_match (target : string) (m : nlmsg) (obj : dict) : bool :=
  match obj with
  | [] => true
  | (key, value) :: obj' =>
      if bool_decide (key = "target") && negb (bool_decide (value = VStr target))
      then false
      else if negb (bool_decide (value = msg_get m key)
                    || bool_decide (value = msg_get_attr m key))
      then false
      else fields_match target m obj'
  end.

(** Lines 724-733 for one entry: the entry is to be removed. *)
Definition event_matches (target : string) (msg : item) (c : cond) : bool :=
  let '(event, evc, obj) := c in
  match msg with
  | E_msg m => bool_decide (evc = class_of msg) && fields_match target m obj
  | _ => false
  end.

(** Lines 723-733, with the record of the removals. *)
Fixpoint match_event (target : string) (msg : item) (snapshot l : list cond)
    : M (list cond * list seen) :=
  match snapshot with
  | [] => ret (l, [])
  | c :: snapshot' =>
      if event_matches target msg c then
        match list_remove c l with
        | Some l' =>
            r <- match_event target msg snapshot' l' ;;
            ret (r.1, by_event c target msg :: r.2)
        | None => raise ValueError
        end
      else match_event target msg snapshot' l
  end.

(** [evq.get(timeout=1)]: the caller is suspended, and finds an item or
    nothing ([queue.Empty]) when it goes on. *)
Definition evq_get (q : nat) : M (option (string * item)) :=
  fun n =>
    Wait n (fun _ => true)
      (fun n' =>
         match wait_queues n' !! q with
         | Some (x :: l) =>
             Ret (Some x) (set_wait_queues (<[q := l]> (wait_queues n')) n')
         | _ => Ret None n'
         end).

(** How far a call of [wait] got when its fuel ran out. *)
Inductive progress : Type :=
  | Done
  | Waiting.

(** Lines 714-733: [while wait_for], at most [fuel] times. *)
Fixpoint wait_loop (fuel : nat) (q : nat) (wait_for : list cond)
    : M (progress * list seen) :=
  match wait_for, fuel with
  | [], _ => ret (Done, [])
  | _, 0 => ret (Waiting, [])
  | _, S fuel' =>
      got <- evq_get q ;;
      checked <- check_db wait_for wait_for ;;             (* finally: *)
      match got with
      | None =>                                            (* continue *)
          r <- wait_loop fuel' q checked.1 ;;
          ret (r.1, checked.2 ++ r.2)
      | Some (target, msg) =>
          matched <- match_event target msg checked.1 checked.1 ;;
          r <- wait_loop fuel' q matched.1 ;;
          ret (r.1, checked.2 ++ matched.2 ++ r.2)
      end
  end.

(** Lines 692-695 *)
Fixpoint build_wait_for (spec : list (string * list dict)) : M (list cond) :=
  match spec with
  | [] => ret []
  | (event, objs) :: spec' =>
      evc <- classes event ;;
      rest <- build_wait_for spec' ;;
      ret (((fun obj => (event, evc, obj)) <$> objs) ++ rest)
  end.

(** [wait(spec)]; [None] is a [spec] that is not a dict. *)
Definition wait (fuel : nat) (spec : option (list (string * list dict)))
    : M (progress * list seen) :=
  match spec with
  | None => raise ValueError
  | Some spec =>
      q <- fresh ;;
      modify (fun n => set_wait_queues (<[q := []]> (wait_queues n)) n) ;;;
      for_each spec (fun eo =>
        evc <- classes eo.1 ;; register_handler evc (wait_handler q)) ;;;
      wait_for <- build_wait_for spec ;;
      checked <- check_db wait_for wait_for ;;
      r <- wait_loop fuel q checked.1 ;;
      match r.1 with
      | Done =>
          for_each spec (fun eo =>
            evc <- classes eo.1 ;; unregister_handler evc (wait_handler q)) ;;;
          ret (Done, checked.2 ++ r.2)
      | Waiting => ret (Waiting, checked.2 ++ r.2)
      end
  end.

(** A computation that is suspended goes on each time the other threads
    let it: [envs] is what they do to the state in the meantime. *)
Fixpoint resume {A : Type} (envs : list (NDB -> NDB)) (o : outcome A)
    : outcome A :=
  match o with
  | Wait n ready k =>
      match envs with
      | [] => o
      | env :: envs' =>
          if ready (env n) then resume envs' (k (env n))
          else resume envs' (Wait (env n) ready k)
      end
  | _ => o
  end.

(** *** Notions used in the statements *)

(** The thread of a source has nothing more to do. *)
Definition finished (sid : nat) (n : NDB) : Prop :=
  forall k, pump_run k sid n = n.

(** What a connection attempt whose calls succeed adds to the trace and to
    the queue between line 484 and line 497; [i] is the tick at which
    [bind] is called. *)
Definition loaded (sid h : nat) (t : string) (i : nat)
    : list entry * list envelope :=
  let links := E_msg <$> returns O (1 + i) (nl_get_links h) in
  let addr := E_msg <$> returns O (2 + i) (nl_get_addr h) in
  let neigh := E_msg <$> returns O (3 + i) (nl_get_neighbours h) in
  let routes := E_msg <$> returns O (4 + i) (nl_get_routes h) in
  ([T_state sid "loading"; T_call (nl_bind h);
    T_put (t, [E_exc SchemaFlush]);
    T_call (nl_get_links h); T_put (t, links);
    T_call (nl_get_addr h); T_put (t, addr);
    T_call (nl_get_neighbours h); T_put (t, neigh);
    T_call (nl_get_routes h); T_put (t, routes);
    T_started_set sid; T_shutdown_clear sid; T_state sid "running"],
   [(t, [E_exc SchemaFlush]); (t, links); (t, addr); (t, neigh);
    (t, routes)]).

(** The call to the provider a statement of the connect and load phase
    makes (lines 481-494). *)
Definition load_call (p : pc) (s : Source) : option call :=
  match p, nl s, nl_prime s with
  | P_select, _, a_type cls => Some (nl_new cls (nl_kwarg s))
  | P_bind, Some h, _ => Some (nl_bind h)
  | P_get_links, Some h, _ => Some (nl_get_links h)
  | P_get_addr, Some h, _ => Some (nl_get_addr h)
  | P_get_neighbours, Some h, _ => Some (nl_get_neighbours h)
  | P_get_routes, Some h, _ => Some (nl_get_routes h)
  | _, _, _ => None
  end.

(** The handlers registered for a class of events. *)
Definition handlers (n : NDB) (k : kind) : list handler :=
  default [] (_event_map n !! k).




(** [ndb.<table>[k]] for each [k] of [keys]; the objects, in order. *)
Fixpoint getitems (table : string) (keys : list key) : M (list nat) :=
  match keys with
  | [] => ret []
  | k :: keys' =>
      o <- Factory_getitem table k None ;;
      os <- getitems table keys' ;;
      ret (o :: os)
  end.

(** Objects are made for [keys], all but the [j]-th are dropped, and the
    check of lines 905-909 runs. *)
Definition register_drop_sweep (table : string) (keys : list key) (j : nat)
    : M unit :=
  os <- getitems table keys ;;
  for_each (delete j os) drop ;;;
  gc_check.

(** The entries of [wait_for] for a [spec] whose events the schema
    knows. *)
Definition conditions (spec : list (string * list dict)) : list cond :=
  flat_map (fun eo =>
    match schema_classes O eo.1 with
    | Some c => (fun obj => (eo.1, K_msg c, obj)) <$> eo.2
    | None => []
    end) spec.

(** The state of the source an entry refers to. *)
Definition source_state (n : NDB) (c : cond) : option string :=
  match default (VStr "localhost") (dict_get c.2 "target") with
  | VStr target =>
      match sources n !! target with
      | Some (Ref sid) => state <$> objs n !! sid
      | _ => None
      end
  | _ => None
  end.

(** What the specification says of an event that matches an entry: the
    fields are compared one by one, 'target' with the target the event
    came with, any other with the raw field of the message or with its
    NLA. *)
Definition matches_spec (target : string) (m : nlmsg) (obj : dict) : Prop :=
  forall key value, (key, value) ∈ obj ->
    if bool_decide (key = "target") then value = VStr target
    else value = msg_get m key \/ value = msg_get_attr m key.

(** An entry left [wait_for] for a reason: the lookup in the store did
    not raise, or the event matches. *)
Definition justified (s : seen) : Prop :=
  match s with
  | by_lookup (event, _, obj) i =>
      exists table, dict_get NDB_factories event = Some table /\
                    raises O i (iclass_new table (key_dict obj)) = None
  | by_event (_, _, obj) target msg =>
      exists m, msg = E_msg m /\ matches_spec target m obj
  end.

(** The schema knows the events of [spec]. *)
Definition known (spec : list (string * list dict)) : Prop :=
  Forall (fun eo => is_Some (schema_classes O eo.1)) spec.

(** What [wait] does once its handlers are registered (lines 711-737). *)
Definition wait_body (fuel q : nat) (spec : list (string * list dict))
    : M (progress * list seen) :=
  checked <- check_db (conditions spec) (conditions spec) ;;
  r <- wait_loop fuel q checked.1 ;;
  match r.1 with
  | Done =>
      for_each spec (fun eo =>
        evc <- classes eo.1 ;; unregister_handler evc (wait_handler q)) ;;;
      ret (Done, checked.2 ++ r.2)
  | Waiting => ret (Waiting, checked.2 ++ r.2)
  end.





(** The exceptions lines 891-901 give a meaning to. *)
Definition control (e : exn) : bool :=
  match e with
  | InvalidateHandlerException | ShutdownException | DBMExitException => true
  | _ => false
  end.

Definition logged (level text : string) (n : NDB) : NDB :=
  set_trace (trace n ++ [T_log level text]) n.



(** What the handlers leave alone. *)
Definition same_loop (n n1 : NDB) : Prop :=
  _dbm_thread n1 = _dbm_thread n /\ _event_queue n1 = _event_queue n.

(** The source object after lines 522-523. *)
Definition failed (s : Source) : Source :=
  with_state "failed" (with_started true s).

End Engine.

(** The code is not suspended. *)
Definition no_wait {A : Type} (o : outcome A) : Prop :=
  match o with Wait _ _ _ => False | _ => True end.

(** What a check of the store leaves alone: the sources, and the handlers
    that are registered, after which it may add some. *)
Definition keeps (n n' : NDB) : Prop :=
  objs n' = objs n /\ sources n' = sources n /\
  (forall k, handlers n k `prefix_of` handlers n' k).

Definition steady {A : Type} (n : NDB) (o : outcome A) : Prop :=
  match o with
  | Ret _ n' => keeps n n'
  | Exc _ n' => keeps n n'
  | Wait _ _ _ => False
  end.


(** ** The history of the queue, read off the trace *)

(** The events of an envelope, each with the target of the envelope. *)
Definition items (env : envelope) : list (string * item) :=
  (fun ev => (env.1, ev)) <$> env.2.

(** The envelopes that were put on the queue, in the order of the puts. *)
Definition envs (tr : list entry) : list envelope :=
  tr ≫= fun e => match e with T_put env => [env] | _ => [] end.

(** The events that were enqueued, and the events the main loop took up,
    in order. *)
Definition puts (tr : list entry) : list (string * item) := envs tr ≫= items.

Definition applies (tr : list entry) : list (string * item) :=
  tr ≫= fun e => match e with T_apply t ev => [(t, ev)] | _ => [] end.

(** The barriers among events, and those a thread has waited for and
    seen set. *)
Definition item_barrier (ev : item) : list nat :=
  match ev with E_signal (SigBarrier b) => [b] | _ => [] end.

Definition barriers (tr : list entry) : list nat :=
  puts tr ≫= fun x => item_barrier x.2.

Definition syncs (tr : list entry) : list nat :=
  tr ≫= fun e => match e with T_sync_wait _ b => [b] | _ => [] end.

(** The event a source announces itself with is not a barrier: a barrier
    is an object its thread makes (line 512). *)
Definition event_ok (ev : option item) : Prop :=
  match ev with Some ev => item_barrier ev = [] | None => True end.

(** The handler of line 861 is the first one of its class. *)
Definition head_set (n : NDB) : Prop :=
  exists hs, handlers n K_Event = set_lambda :: hs.

(** What is true of the engine whatever its threads have done. *)
Record Inv (n : NDB) : Prop := {
  inv_prefix : applies (trace n) `prefix_of` puts (trace n);
  inv_queue :
    _dbm_thread n = true ->
    puts (trace n) = applies (trace n) ++ (_event_queue n ≫= items);
  inv_signals :
    forall s, s ∈ signals n -> exists t, (t, E_signal s) ∈ applies (trace n);
  inv_syncs :
    forall i sid b, trace n !! i = Some (T_sync_wait sid b) ->
      exists t, (t, E_signal (SigBarrier b)) ∈ applies (take i (trace n));
  inv_nodup : NoDup (barriers (trace n));
  inv_below : forall b, b ∈ barriers (trace n) -> b < next_id n;
  inv_pending :
    forall sid s b, objs n !! sid = Some s -> th s = Some (P_put_sync b) ->
      b < next_id n /\ b ∉ barriers (trace n);
  inv_distinct :
    forall sid sid' s s' b,
      objs n !! sid = Some s -> objs n !! sid' = Some s' ->
      th s = Some (P_put_sync b) -> th s' = Some (P_put_sync b) -> sid = sid';
  inv_events : forall sid s, objs n !! sid = Some s -> event_ok (event s)
}.

(** What a stretch of the code of a call of the API, run between two
    points at which it may block, does to the engine. *)
Record guarantee (n n' : NDB) : Prop := {
  g_signals : signals n' = signals n;
  g_thread : _dbm_thread n' = _dbm_thread n;
  g_next : next_id n <= next_id n';
  g_trace : trace n `prefix_of` trace n';
  g_queue :
    exists l, _event_queue n' = _event_queue n ++ l /\
              envs (trace n') = envs (trace n) ++ l;
  g_applies : applies (trace n') = applies (trace n);
  g_syncs : syncs (trace n') = syncs (trace n);
  g_barriers : barriers (trace n') = barriers (trace n);
  g_pending :
    forall sid s' b, objs n' !! sid = Some s' -> th s' = Some (P_put_sync b) ->
      exists s, objs n !! sid = Some s /\ th s = Some (P_put_sync b);
  g_events :
    (forall sid s, objs n !! sid = Some s -> event_ok (event s)) ->
    forall sid s, objs n' !! sid = Some s -> event_ok (event s);
  g_head : head_set n -> head_set n'
}.

(** What the main loop does while it handles events: [new] is what it
    took up, and [sigs] the events whose signal it may have set. *)
Record loop_frame (new : list (string * item)) (sigs : list item)
    (n n' : NDB) : Prop := {
  l_queue : _event_queue n' = _event_queue n;
  l_next : next_id n' = next_id n;
  l_trace : trace n `prefix_of` trace n';
  l_envs : envs (trace n') = envs (trace n);
  l_applies : applies (trace n') = applies (trace n) ++ new;
  l_syncs : syncs (trace n') = syncs (trace n);
  l_signals : signals n ⊆ signals n';
  l_set : forall s, s ∈ signals n' -> s ∈ signals n \/ E_signal s ∈ sigs;
  l_objs :
    forall sid s', objs n' !! sid = Some s' ->
      exists s, objs n !! sid = Some s /\ th s = th s' /\ event s = event s';
  l_head : head_set n -> head_set n'
}.

(** The code runs to its end, and [R] relates the state it ends in to
    the state it started in. *)
Definition quick {A : Type} (R : NDB -> NDB -> Prop) (n : NDB)
    (o : outcome A) : Prop :=
  match o with
  | Ret _ n' => R n n'
  | Exc _ n' => R n n'
  | Wait _ _ _ => False
  end.

(** [R] relates the two ends of every stretch of the code between two
    points at which it may block, whatever the state it is resumed in. *)
Fixpoint safe {A : Type} (R : NDB -> NDB -> Prop) (n : NDB)
    (o : outcome A) : Prop :=
  match o with
  | Ret _ n' => R n n'
  | Exc _ n' => R n n'
  | Wait n' _ k => R n n' /\ forall m, safe R m (k m)
  end.

Definition framed {A : Type} (R : NDB -> NDB -> Prop) (c : M A) : Prop :=
  forall n, safe R n (c n).

(** An entry that is neither a put, nor an event taken up, nor a barrier
    seen set. *)
Definition silent (e : entry) : bool :=
  match e with
  | T_put _ | T_apply _ _ | T_sync_wait _ _ => false
  | _ => true
  end.

(** The barriers the statement at [p] puts on the queue. *)
Definition pc_barriers (s : Source) (p : pc) : list nat :=
  match p with
  | P_put_sync b => [b]
  | P_put_event => from_option item_barrier [] (event s)
  | _ => []
  end.

(** What a step of the thread of the source [sid], which was [s] and at
    [p], does to the engine. *)
Record pumped (sid : nat) (s : Source) (p : pc) (n n' : NDB) : Prop := {
  p_signals : signals n' = signals n;
  p_thread : _dbm_thread n' = _dbm_thread n;
  p_map : _event_map n' = _event_map n;
  p_next : next_id n <= next_id n';
  p_new :
    exists new,
      trace n' = trace n ++ new /\
      _event_queue n' = _event_queue n ++ envs new /\
      applies new = [] /\
      barriers new = pc_barriers s p /\
      (syncs new = [] \/
       exists b, p = P_wait_sync b /\ new = [T_sync_wait sid b] /\
                 SigBarrier b ∈ signals n);
  p_others : forall sid', sid' <> sid -> objs n' !! sid' = objs n !! sid';
  p_self :
    exists s', objs n' !! sid = Some s' /\ event s' = event s /\
      forall b, th s' = Some (P_put_sync b) ->
        p = P_new_sync /\ b = next_id n /\ next_id n < next_id n'
}.

(** A step of the engine: a step of the thread of a source, a turn of
    the main loop, or a stretch of a call of the API. *)
Definition step (O : oracle) (n n' : NDB) : Prop :=
  (exists sid, pump_step O sid n = Some n') \/
  dbm_step O n = Some n' \/
  guarantee n n'.

(** A change of a source object that neither moves its thread to the
    statement that enqueues a barrier nor touches its event. *)
Definition benign (f : Source -> Source) : Prop :=
  forall s, event (f s) = event s /\
            forall b, th (f s) = Some (P_put_sync b) -> th s = Some (P_put_sync b).

(** A weak handler whose referent is gone. *)
Definition dead_handler (n : NDB) (h : handler) : bool :=
  match h with
  | wr_handler wr _ => negb (bool_decide (wr ∈ live n))
  | _ => false
  end.

(** ** Reports: [Factory._csv] and [Factory._match] *)

(** A field of a record of a report: an int, None, or anything else, of
    which [s] is what ['%s'] prints. *)
Inductive cell : Type :=
  | F_int (z : Z)
  | F_None
  | F_other (s : string).

(** Lines 322-328 *)
Definition csv_field (f : cell) : string :=
  match f with
  | F_int z => pretty z
  | F_None => ""
  | F_other s => "'" +:+ s +:+ "'"
  end.

(** Line 329: [','.join(row)] *)
Definition csv_row (record : list cell) : string :=
  String.concat "," (csv_field <$> record).

(** [_csv(dump=dump)], lines 318-330 *)
Definition _csv (dump : list (list cell)) : list string := csv_row <$> dump.

(** [d[key] = v] *)
Fixpoint dict_set {V : Type} (d : list (string * V)) (key : string) (v : V)
    : list (string * V) :=
  match d with
  | [] => [(key, v)]
  | (k, x) :: d' =>
      if bool_decide (k = key) then (k, v) :: d'
      else (k, x) :: dict_set d' key v
  end.

(** Lines 367-372: the first of [match_src] that has [r_key]. *)
Fixpoint first_src (match_src : list dict) (r_key : string) : option value :=
  match match_src with
  | [] => None
  | src :: match_src' =>
      match dict_get src r_key with
      | Some v => Some v
      | None => first_src match_src' r_key
      end
  end.

(** Lines 365-372 *)
Definition match_fill (match_src : list dict)
    (match_pairs : list (string * string)) (m : dict) : dict :=
  if bool_decide (match_src <> []) && bool_decide (match_pairs <> []) then
    fold_left (fun m lr =>
                 match first_src match_src lr.2 with
                 | Some v => dict_set m lr.1 v
                 | None => m
                 end) match_pairs m
  else m.

Section Match.

(** [cls.name2nla], [keys], [alias] and [self.ndb.schema.plch] *)
Variables (cls_name2nla : string -> string) (keys : list string)
          (alias plch : string).

(** Lines 378-382 *)
Definition keyc (key : string) : list string :=
  (if bool_decide (cls_name2nla key ∈ keys) then [cls_name2nla key] else []) ++
  (if bool_decide (key ∈ keys) then [key] else []).

(** The two formats of lines 386 and 390 *)
Definition one_key (k : string) : string :=
  alias +:+ ".f_" +:+ k +:+ " = " +:+ plch.

Definition two_keys (k1 k2 : string) : string :=
  "(" +:+ alias +:+ ".f_" +:+ k1 +:+ " = " +:+ plch +:+ " OR " +:+
  alias +:+ ".f_" +:+ k2 +:+ " = " +:+ plch +:+ ")".

(** The loop of lines 377-394: [conditions] and [values], or the
    KeyError of line 384. *)
Fixpoint match_conditions (items : dict)
    : exn + (list string * list value) :=
  match items with
  | [] => inr ([], [])
  | (key, value) :: items' =>
      match keyc key with
      | [] => inl KeyError
      | kc =>
          match match_conditions items' with
          | inl e => inl e
          | inr (conditions, values) =>
              match kc with
              | [k] => inr (one_key k :: conditions, value :: values)
              | [k1; k2] =>
                  inr (two_keys k1 k2 :: conditions, value :: value :: values)
              | _ => inr (conditions, values)
              end
          end
      end
  end.

(** [_match], lines 362-398 *)
Definition _match (match_src : list dict)
    (match_pairs : list (string * string)) (m : option dict)
    : exn + (string * list value) :=
  let m := match_fill match_src match_pairs (default [] m) in
  if bool_decide (m <> []) then
    match match_conditions m with
    | inl e => inl e
    | inr (conditions, values) =>
        inr (" WHERE " +:+ String.concat " AND " conditions, values)
    end
  else inr ("", []).

End Match.

(** The number of times the character [c] occurs in [s]. *)
Fixpoint occ (c : Ascii.ascii) (s : string) : nat :=
  match s with
  | EmptyString => 0
  | String a s' => (if bool_decide (a = c) then 1 else 0) + occ c s'
  end.

(** The characters of the text [_match] writes around the names. *)
Definition match_text : string := " WHERE AND OR .f_ = ()".

(** ** [NDB.debug], lines 626-644 *)

(** The calls to the logger. *)
Inductive logcall : Type :=
  | addHandler
  | setLevel (level : string)
  | removeHandler.

#[global] Instance logcall_eq_dec : EqDecision logcall.
Proof. solve_decision. Defined.

(** [debug(mode)]: [_debug] tells whether [self._debug] is set; the
    result is what is returned ([None] for None), the calls made to the
    logger, and whether [self._debug] is set afterwards. *)
Definition debug (mode : option string) (_debug : bool)
    : option bool * list logcall * bool :=
  match mode with
  | None => (Some _debug, [], _debug)
  | Some m =>
      if bool_decide (m = "on") && negb _debug
      then (None, [addHandler; setLevel "DEBUG"], true)
      else if bool_decide (m = "off") && _debug
      then (None, [setLevel "INFO"; removeHandler], _debug)
      else (None, [], _debug)
  end.

(** Calls of [debug] one after the other: the calls to the logger, and
    the state at the end. *)
Fixpoint debug_calls (modes : list (option string)) (_debug : bool)
    : list logcall * bool :=
  match modes with
  | [] => ([], _debug)
  | mode :: modes' =>
      let '(_, calls, d) := debug mode _debug in
      let '(calls', d') := debug_calls modes' d in
      (calls ++ calls', d')
  end.

(** ** A concrete engine

    One source, 'localhost', made from a class; a provider that never
    fails and returns one link; an interface class that subscribes to one
    kind of message. *)

Definition state_of {A : Type} (o : outcome A) : NDB :=
  match o with
  | Ret _ n => n
  | Exc _ n => n
  | Wait n _ _ => n
  end.



Definition lo : nlmsg :=
  {| msg_class := "ifinfmsg"; header_error := None;
     msg_fields := [("index", VInt 1)];
     msg_nla := [("IFLA_IFNAME", VStr "lo")] |}.

Definition quiet : oracle :=
  {| raises := fun _ _ => None;
     returns := fun _ c => match c with nl_get_links _ => [lo] | _ => [] end;
     clock := fun i => (100 * Z.of_nat i)%Z;
     gc_timeout := 60;
     schema_classes := fun name =>
       if bool_decide (name = "interfaces") then Some "ifinfmsg" else None;
     schema_event_map := [(K_msg "ifinfmsg", [0])];
     iclass_event_map := fun table =>
       if bool_decide (table = "interfaces")
       then {[ K_msg "ifinfmsg" := "load_rtnlmsg" ]} else ∅;
     name2nla := fun _ key =>
       if bool_decide (key = "ifname") then "IFLA_IFNAME" else key |}.

Definition one_source : list (string * source_spec) :=
  [("localhost", a_dict (Some (a_type "IPRoute")) None [])].

(** The engine after start-up, and its source once it has reached the
    statement of line 484. *)
Definition booted : NDB := state_of (dbm_startup quiet one_source (NDB_init 0)).

Definition at_loading : NDB := pump_run quiet 3 0 booted.

(** A provider whose [bind] raises a TypeError, and a persistent source
    on it. *)
Definition bind_TypeError : oracle :=
  {| raises := fun _ c => match c with nl_bind _ => Some TypeError | _ => None end;
     returns := returns quiet; clock := clock quiet;
     gc_timeout := gc_timeout quiet; schema_classes := schema_classes quiet;
     schema_event_map := schema_event_map quiet;
     iclass_event_map := iclass_event_map quiet;
     name2nla := name2nla quiet |}.

Definition one_persistent_source : list (string * source_spec) :=
  [("localhost", a_dict (Some (a_type "IPRoute")) (Some true) [])].

Definition bind_TypeError_run : NDB :=
  pump_run bind_TypeError 10 0
    (state_of (dbm_startup bind_TypeError one_persistent_source (NDB_init 0))).

(** A provider whose [get_addr] raises an OSError, for a source that is
    persistent and one that is not. *)
Definition get_addr_OSError : oracle :=
  {| raises := fun _ c =>
       match c with nl_get_addr _ => Some (OtherException "OSError") | _ => None end;
     returns := returns quiet; clock := clock quiet;
     gc_timeout := gc_timeout quiet; schema_classes := schema_classes quiet;
     schema_event_map := schema_event_map quiet;
     iclass_event_map := iclass_event_map quiet;
     name2nla := name2nla quiet |}.

(** Waiting for the interface 'lo'. *)
Definition wait_for_lo : list (string * list dict) :=
  [("interfaces", [[("ifname", VStr "lo")]])].

(** A store in which no lookup succeeds, the source of an engine on it
    once it runs (the main loop has not run yet and the queue holds the
    snapshots), and two turns of the main loop. *)
Definition absent : oracle :=
  {| raises := fun _ c =>
       match c with iclass_new _ _ => Some KeyError | _ => None end;
     returns := returns quiet; clock := clock quiet;
     gc_timeout := gc_timeout quiet; schema_classes := schema_classes quiet;
     schema_event_map := schema_event_map quiet;
     iclass_event_map := iclass_event_map quiet;
     name2nla := name2nla quiet |}.

Definition running_absent : NDB :=
  pump_run absent 17 0 (state_of (dbm_startup absent one_source (NDB_init 0))).

Definition two_turns (n : NDB) : NDB :=
  default n (dbm_step absent n ≫= dbm_step absent).

Definition lo_by_event : outcome (progress * list seen) :=
  resume [two_turns] (wait absent 3 (Some wait_for_lo) running_absent).

(** The source of the engine [booted] once it runs, and a wait on it. *)
Definition running : NDB := pump_run quiet 17 0 booted.

Definition lo_by_lookup : outcome (progress * list seen) :=
  wait quiet 3 (Some wait_for_lo) running.

(** A provider whose [get] raises an OSError, as one that was closed
    does; the engine on it once its source has stopped and the main loop
    has applied what the source sent; that engine closed, the main loop
    running while [close] waits for it; and closed again and again. *)
Definition hangup : oracle :=
  {| raises := fun _ c =>
       match c with nl_get _ => Some (OtherException "OSError") | _ => None end;
     returns := returns quiet; clock := clock quiet;
     gc_timeout := gc_timeout quiet; schema_classes := schema_classes quiet;
     schema_event_map := schema_event_map quiet;
     iclass_event_map := iclass_event_map quiet;
     name2nla := name2nla quiet |}.




(** The engine on [hangup] after its start-up; its source at line 504,
    about to call [get]; the source waiting for its barrier, the main loop
    not having run; and the main loop about to take up the barrier. *)
Definition hangup_booted : NDB :=
  state_of (dbm_startup hangup one_source (NDB_init 0)).

Definition hangup_at_get : NDB := pump_run hangup 18 0 hangup_booted.

Definition hangup_waiting : NDB := pump_run hangup 30 0 hangup_booted.

Definition barrier_next : NDB := dbm_run hangup 6 hangup_waiting.

(** What the source of [hangup_at_get] is. *)
Definition source_at_get : Source :=
  {| th := Some P_get; nl := Some 1; target := "localhost";
     nl_prime := a_type "IPRoute"; nl_kwarg := [];
     event := Some (E_exc SyncStart); shutdown := false; started := true;
     lock := false; persistent := false; state := "running" |}.

(** Three objects of the table 'interfaces' made on [booted], the first
    and the last of which are gone. *)
Definition two_dead : NDB :=
  state_of (register_drop_sweep quiet "interfaces"
              [key_name "eth0"; key_name "eth1"; key_name "eth2"] 1 booted).

(** The names of a table, as [_match] gets them. *)
Definition link_names : list string := ["index"; "IFLA_IFNAME"; "IFLA_MTU"].






Definition at_get_addr : NDB :=
  pump_run get_addr_OSError 8 0
    (state_of (dbm_startup get_addr_OSError one_persistent_source (NDB_init 0))).

(** ** Properties *)

(** Symbolic execution of the monadic code on a state that is not known. *)
Ltac norm1 :=
  cbv [bind ret raise gets modify emit log try_except except_Exception
       self_get self_set self_nl self_put set_state put await when ext
       ext_msgs fresh time_time interrupted];
  cbn [_event_map _rtnl_objects _event_queue sources schema _dbm_thread
       _dbm_ready _global_lock gctime countdown atexit_registered objs live
       next_id signals wait_queues tick trace
       set_event_map set_rtnl_objects set_event_queue set_sources set_schema
       set_dbm_thread set_dbm_ready set_global_lock set_gctime set_countdown
       set_atexit_registered set_objs set_live set_next_id set_signals
       set_wait_queues set_tick set_trace
       th nl target nl_prime nl_kwarg event shutdown started lock persistent
       state with_th with_nl with_shutdown with_started with_lock with_state
       goto is_alive in_try fmap option_fmap option_map
       bind_out catch_out stmt pump_run].

Ltac norm := repeat (progress norm1).



Ltac look Hs := rewrite ?lookup_alter_eq, Hs; norm.

Ltac room :=
  rewrite bool_decide_eq_true_2
    by (unfold maxsize in *; rewrite ?length_app; simpl; lia);
  norm.

Lemma pump_run_S (O : oracle) (k sid : nat) (n n1 : NDB) :
  pump_step O sid n = Some n1 -> pump_run O (S k) sid n = pump_run O k sid n1.
Proof. intros H. simpl. by rewrite H. Qed.

(** One step of the thread of the source whose object is known by [Hs];
    what is left is to run its statement. *)
Ltac pstep Hs :=
  erewrite pump_run_S;
    [| unfold pump_step; norm; look Hs; repeat (look Hs)].

Section Properties.

Variable O : oracle.

(** C2.  A source thread that enters line 484 and whose provider answers
    [bind] and the four snapshot calls sets the state to 'loading', binds,
    and puts on the queue, in this order and as five envelopes that carry
    its target, the schema flush, the links, the addresses, the neighbours
    and the routes; it sets [started], clears [shutdown] and sets the
    state to 'running' after the fifth put, and does nothing else in
    between. *)
Theorem C2_initial_load_order (n : NDB) (sid h : nat) (s : Source) :
  objs n !! sid = Some s -> th s = Some P_loading -> nl s = Some h ->
  raises O (tick n) (nl_bind h) = None ->
  raises O (1 + tick n) (nl_get_links h) = None ->
  raises O (2 + tick n) (nl_get_addr h) = None ->
  raises O (3 + tick n) (nl_get_neighbours h) = None ->
  raises O (4 + tick n) (nl_get_routes h) = None ->
  length (_event_queue n) + 5 <= maxsize ->
  let n' := pump_run O 14 sid n in
  trace n' = trace n ++ (loaded O sid h (target s) (tick n)).1 /\
  _event_queue n' = _event_queue n ++ (loaded O sid h (target s) (tick n)).2 /\
  objs n' !! sid =
    Some (with_th (Some P_put_event)
            (with_state "running"
               (with_shutdown false (with_started true s)))).
Proof.
  intros Hs Hth Hnl Hb H1 H2 H3 H4 Hroom n'. simpl plus in *.
  eassert (Hrun : n' = _).
  { subst n'.
    erewrite pump_run_S;
      [| unfold pump_step; rewrite Hs, Hth; norm; reflexivity].
    pstep Hs; [|rewrite Hnl; norm; rewrite Hb; norm; reflexivity].
    pstep Hs; [|room; reflexivity].
    pstep Hs; [|rewrite Hnl; norm; rewrite H1; norm; reflexivity].
    pstep Hs; [|room; reflexivity].
    pstep Hs; [|rewrite Hnl; norm; rewrite H2; norm; reflexivity].
    pstep Hs; [|room; reflexivity].
    pstep Hs; [|rewrite Hnl; norm; rewrite H3; norm; reflexivity].
    pstep Hs; [|room; reflexivity].
    pstep Hs; [|rewrite Hnl; norm; rewrite H4; norm; reflexivity].
    pstep Hs; [|room; reflexivity].
    pstep Hs; [|reflexivity].
    pstep Hs; [|reflexivity].
    pstep Hs; [|reflexivity].
    reflexivity. }
  rewrite Hrun. clear Hrun n'. norm. unfold loaded. cbn [fst snd].
  rewrite <- !app_assoc. simpl app. split; [done|]. split; [done|].
  rewrite !lookup_alter_eq, Hs. simpl. by f_equal.
Qed.

Lemma except_clauses_Exception e :
  is_Exception e = true -> e <> TypeError -> except_clauses e = P_except.
Proof. by destruct e. Qed.

Lemma pump_step_dead (sid : nat) (n : NDB) (s : Source) (p : pc) :
  objs n !! sid = Some s -> th s = Some p -> is_alive p = false ->
  pump_step O sid n = None.
Proof. intros Hs Hth Hp. unfold pump_step. by rewrite Hs, Hth, Hp. Qed.

Lemma finished_dead (sid : nat) (n : NDB) (s : Source) (p : pc) :
  objs n !! sid = Some s -> th s = Some p -> is_alive p = false ->
  finished O sid n.
Proof.
  intros Hs Hth Hp k. destruct k; [done|]. simpl.
  by rewrite (pump_step_dead _ _ _ _ Hs Hth Hp).
Qed.

Lemma failed_attempt (n : NDB) (sid : nat) (s : Source) (p : pc) (c : call) (e : exn) :
  objs n !! sid = Some s -> th s = Some p -> load_call p s = Some c ->
  raises O (tick n) c = Some e -> is_Exception e = true -> e <> TypeError ->
  length (_event_queue n) < maxsize ->
  let n1 := pump_run O 4 sid n in
  trace n1 = trace n ++ [T_call c; T_started_set sid; T_state sid "failed";
                         T_log "error" "source error";
                         T_put (target s, [E_exc MarkFailed])] /\
  _event_queue n1 = _event_queue n ++ [(target s, [E_exc MarkFailed])] /\
  objs n1 !! sid = Some (with_th (Some P_persistent) (failed s)).
Proof.
  intros Hs Hth Hc Hr He Hne Hroom n1.
  eassert (Hrun : n1 = _).
  { subst n1.
    erewrite pump_run_S.
    2:{ unfold pump_step. rewrite Hs, Hth.
        unfold load_call in Hc.
        destruct p; try discriminate Hc; norm; rewrite ?Hs; norm;
          destruct (nl s) eqn:Hnl; try discriminate Hc;
          destruct (nl_prime s) eqn:Hp; try discriminate Hc; norm;
          injection Hc as <-; rewrite ?Hs; norm; rewrite ?Hp, ?Hnl; norm;
          rewrite Hr; norm;
          rewrite (except_clauses_Exception _ He Hne); reflexivity. }
    pstep Hs; [|reflexivity].
    pstep Hs; [|reflexivity].
    pstep Hs; [|room; reflexivity].
    reflexivity. }
  rewrite Hrun. clear Hrun n1. norm.
  rewrite <- !app_assoc. simpl app. split; [done|]. split; [done|].
  rewrite !lookup_alter_eq, Hs. simpl. by f_equal.
Qed.

Lemma after_failure (n : NDB) (sid : nat) (s : Source) :
  objs n !! sid = Some s -> th s = Some P_persistent ->
  (persistent s = true ->
   let n2 := pump_run O 3 sid n in
   trace n2 = trace n ++ [T_log "debug" "sleeping before restart";
                          T_shutdown_wait sid 5] /\
   _event_queue n2 = _event_queue n /\
   objs n2 !! sid =
     Some (with_th (Some (if shutdown s then P_return RetShutdown
                          else P_top)) s)) /\
  (persistent s = false ->
   let n2 := pump_run O 1 sid n in
   trace n2 = trace n /\ _event_queue n2 = _event_queue n /\
   objs n2 !! sid = Some (with_th (Some (P_return RetNotPersistent)) s)).
Proof.
  intros Hs Hth. split; intros Hp n2.
  - eassert (Hrun : n2 = _).
    { subst n2.
      erewrite pump_run_S;
        [| unfold pump_step; rewrite Hs, Hth; norm; rewrite Hs; norm;
           rewrite Hp; reflexivity].
      pstep Hs; [|reflexivity].
      pstep Hs; [|reflexivity].
      reflexivity. }
    rewrite Hrun. clear Hrun n2. norm.
    rewrite <- !app_assoc. simpl app. split; [done|]. split; [done|].
    by rewrite !lookup_alter_eq, Hs.
  - eassert (Hrun : n2 = _).
    { subst n2.
      erewrite pump_run_S;
        [| unfold pump_step; rewrite Hs, Hth; norm; rewrite Hs; norm;
           rewrite Hp; reflexivity].
      reflexivity. }
    rewrite Hrun. clear Hrun n2. norm. split; [done|]. split; [done|].
    by rewrite !lookup_alter_eq, Hs.
Qed.

(** C3, amended.  When a call of the connect and load phase raises an
    exception that derives from Exception and is not a TypeError, the
    thread sets [started], sets the state to 'failed' and puts a
    mark-failed signal on the queue.  A persistent source then waits on
    [shutdown] for SOURCE_FAIL_PAUSE = 5, returns if [shutdown] is set,
    and is back at the head of the loop otherwise; a source that is not
    persistent returns, and its state stays 'failed'. *)
Theorem C3_failure_policy (n : NDB) (sid : nat) (s : Source) (p : pc)
    (c : call) (e : exn) :
  objs n !! sid = Some s -> th s = Some p -> load_call p s = Some c ->
  raises O (tick n) c = Some e -> is_Exception e = true -> e <> TypeError ->
  length (_event_queue n) < maxsize ->
  let n1 := pump_run O 4 sid n in
  (trace n1 = trace n ++ [T_call c; T_started_set sid; T_state sid "failed";
                          T_log "error" "source error";
                          T_put (target s, [E_exc MarkFailed])] /\
   _event_queue n1 = _event_queue n ++ [(target s, [E_exc MarkFailed])] /\
   objs n1 !! sid = Some (with_th (Some P_persistent) (failed s))) /\
  (persistent s = true ->
   let n2 := pump_run O 3 sid n1 in
   trace n2 = trace n1 ++ [T_log "debug" "sleeping before restart";
                           T_shutdown_wait sid SOURCE_FAIL_PAUSE] /\
   _event_queue n2 = _event_queue n1 /\
   objs n2 !! sid =
     Some (with_th (Some (if shutdown s then P_return RetShutdown
                          else P_top)) (failed s)) /\
   (shutdown s = true -> finished O sid n2)) /\
  (persistent s = false ->
   let n2 := pump_run O 1 sid n1 in
   trace n2 = trace n1 /\ _event_queue n2 = _event_queue n1 /\
   objs n2 !! sid =
     Some (with_th (Some (P_return RetNotPersistent)) (failed s)) /\
   finished O sid n2).
Proof.
  intros Hs Hth Hc Hr He Hne Hroom n1.
  destruct (failed_attempt n sid s p c e Hs Hth Hc Hr He Hne Hroom)
    as (Ht & Hq & Ho).
  fold n1 in Ht, Hq, Ho. split; [done|].
  destruct (after_failure n1 sid _ Ho eq_refl) as [Hpers Hnot].
  split; intros Hp.
  - destruct (Hpers Hp) as (Ht2 & Hq2 & Ho2). intros n2.
    split; [done|]. split; [done|]. split; [done|].
    intros Hsh. eapply finished_dead; [exact Ho2|reflexivity|].
    simpl. by rewrite Hsh.
  - destruct (Hnot Hp) as (Ht2 & Hq2 & Ho2). intros n2.
    split; [done|]. split; [done|]. split; [done|].
    by eapply finished_dead.
Qed.


(** Handlers do not block. *)
Lemma invoke_no_wait h target ev n :
  match invoke O h target ev n with Wait _ _ _ => False | _ => True end.
Proof.
  destruct h; simpl; norm; try done.
  - destruct ev as [e| | |]; norm; try done. by destruct (is_Exception e).
  - by destruct ev.
  - by destruct (raises O (tick n) _).
  - by destruct (raises O (tick n) _).
  - by destruct (bool_decide _).
  - destruct (bool_decide _); norm; [|done]. by destruct (raises O (tick n) _).
  - by destruct (raises O (tick n) _).
Qed.

Lemma run_handlers_failure registered ev h hs target n e n1 :
  invoke O h target ev n = Exc e n1 -> control e = false ->
  run_handlers O registered ev (h :: hs) target n
  = run_handlers O registered ev hs target
      (logged "error" "could not load event" n1).
Proof.
  intros Hi Hc. cbn [run_handlers]. norm. rewrite Hi. norm.
  by destruct e.
Qed.

Lemma run_handlers_ok registered ev h hs target n n1 :
  invoke O h target ev n = Ret tt n1 ->
  run_handlers O registered ev (h :: hs) target n
  = run_handlers O registered ev hs target n1.
Proof. intros Hi. cbn [run_handlers]. norm. by rewrite Hi. Qed.





Lemma same_loop_refl n : same_loop n n.
Proof. done. Qed.




Lemma gc_check_ret n :
  exists n1, gc_check O n = Ret tt n1 /\ same_loop n n1 /\ trace n1 = trace n.
Proof.
  unfold gc_check. norm. destruct (bool_decide _); norm; by eexists.
Qed.




Remark emptied_class_ignored t0 ev target n :
  _event_map n !! class_of ev = Some [] ->
  exists n1,
    dispatch_event O t0 ev target n = Ret (target, Continue) n1 /\
    trace n1 = trace n ++ [T_apply t0 ev].
Proof.
  intros He. unfold dispatch_event. norm. rewrite He. cbn [run_handlers]. norm.
  match goal with |- context [gc_check O ?m] =>
    destruct (gc_check_ret m) as (n2 & -> & _ & Ht) end.
  norm. exists n2. split; [done|]. by rewrite Ht.
Qed.














Lemma keeps_refl n : keeps n n.
Proof. done. Qed.

Lemma keeps_trans n1 n2 n3 : keeps n1 n2 -> keeps n2 n3 -> keeps n1 n3.
Proof.
  intros (Ho & Hs & Hh) (Ho' & Hs' & Hh').
  split; [congruence|]. split; [congruence|].
  intros k. etrans; [apply Hh|apply Hh'].
Qed.

Lemma steady_keeps {A} (n n1 : NDB) (o : outcome A) :
  keeps n n1 -> steady n1 o -> steady n o.
Proof. intros Hk. destruct o; simpl; eauto using keeps_trans. Qed.

Lemma steady_bind {A B} (c : M A) (f : A -> M B) n :
  steady n (c n) -> (forall a n1, steady n1 (f a n1)) ->
  steady n (bind c f n).
Proof.
  intros Hc Hf. unfold bind. destruct (c n) as [a n1|e n1|]; simpl in *;
    [|done|done]. by eapply steady_keeps.
Qed.

Lemma steady_try {A} (c : M A) (h : exn -> M A) n :
  steady n (c n) -> (forall e n1, steady n1 (h e n1)) ->
  steady n (try_except c h n).
Proof.
  intros Hc Hh. unfold try_except. destruct (c n) as [a n1|e n1|]; simpl in *;
    [done| |done]. by eapply steady_keeps.
Qed.

Lemma steady_register k h n : steady n (register_handler k h n).
Proof.
  unfold register_handler. norm. split; [done|]. split; [done|].
  intros k'. unfold handlers. norm. simpl.
  destruct (decide (k = k')) as [<-|Hne].
  - rewrite lookup_insert_eq. simpl. by eexists.
  - by rewrite lookup_insert_ne.
Qed.

Lemma steady_for_each {A} (l : list A) (body : A -> M unit) n :
  (forall a m, steady m (body a m)) -> steady n (for_each l body n).
Proof.
  intros Hb. revert n. induction l as [|a l IH]; intros n; [done|].
  cbn [for_each]. apply steady_bind; [apply Hb|]. intros _ n1. apply IH.
Qed.

Lemma steady_ext c n : steady n (ext O c n).
Proof. unfold ext. by destruct (raises O (tick n) c). Qed.

Lemma steady_getitem table k n :
  steady n (Factory_getitem O table k None n).
Proof.
  unfold Factory_getitem. destruct (bool_decide _); [|done].
  apply steady_bind; [apply steady_ext|]. intros _ n1.
  apply steady_bind; [done|]. intros wr n2.
  apply steady_bind; [done|]. intros _ n3.
  apply steady_bind; [|done]. apply steady_for_each.
  intros a m. apply steady_register.
Qed.

Lemma steady_db_lookup event obj n : steady n (db_lookup O event obj n).
Proof.
  unfold db_lookup. destruct (dict_get _ _); [|done].
  apply steady_bind; [apply steady_getitem|]. by intros oid n1.
Qed.

Lemma steady_check_one c n : steady n (check_one O c n).
Proof.
  destruct c as [[event evc] obj]. unfold check_one.
  apply steady_bind; [done|]. intros srcs n1.
  destruct (default _ _); try done.
  destruct (srcs !! s) as [[sid|]|]; try done.
  apply steady_bind.
  { unfold self_get. by destruct (objs n1 !! sid). }
  intros st n2. destruct (bool_decide _); [|done].
  apply steady_bind; [done|]. intros i n3.
  apply steady_try.
  - apply steady_bind; [apply steady_db_lookup|]. by intros.
  - intros e n4. by destruct (bool_decide _).
Qed.


Lemma source_state_keeps n n' c :
  keeps n n' -> source_state n' c = source_state n c.
Proof. intros (Ho & Hs & _). unfold source_state. by rewrite Ho, Hs. Qed.

Lemma check_one_raises c n :
  source_state n c <> Some "running" ->
  exists e n', check_one O c n = Exc e n'.
Proof.
  destruct c as [[event evc] obj]. unfold source_state, check_one. simpl.
  norm. destruct (default _ _); try by eauto.
  destruct (sources n !! s) as [[sid|]|]; try by eauto.
  norm. destruct (objs n !! sid) as [src|]; [|by eauto]. simpl. norm.
  intros Hst. rewrite bool_decide_eq_false_2 by congruence. eauto.
Qed.

Lemma getitem_ret table k n o n' :
  Factory_getitem O table k None n = Ret o n' ->
  raises O (tick n) (iclass_new table k) = None.
Proof.
  unfold Factory_getitem. destruct (bool_decide _); [|done]. norm.
  by destruct (raises O (tick n) _).
Qed.

Lemma check_one_justified c n i n' :
  check_one O c n = Ret (Some i) n' -> justified O (by_lookup c i).
Proof.
  destruct c as [[event evc] obj]. unfold check_one. norm.
  destruct (default _ _); try done.
  destruct (sources n !! s) as [[sid|]|]; try done.
  norm. destruct (objs n !! sid) as [src|]; [|done]. norm.
  destruct (bool_decide _); [|done]. norm.
  unfold db_lookup. destruct (dict_get NDB_factories event) as [table|] eqn:Et;
    [|by norm].
  norm. destruct (Factory_getitem O table (key_dict obj) None n)
    as [o n1|e n1|] eqn:Eg; norm.
  - unfold drop. norm. intros [= <- _]. exists table. split; [done|].
    by eapply getitem_ret.
  - by destruct (bool_decide _).
  - by pose proof (steady_getitem table (key_dict obj) n) as H; rewrite Eg in H.
Qed.

Lemma list_remove_perm {A} `{EqDecision A} (x : A) (l l' : list A) :
  list_remove x l = Some l' -> l ≡ₚ x :: l'.
Proof.
  revert l'. induction l as [|y l IH]; intros l'; [done|]. simpl.
  destruct (decide (x = y)) as [->|Hne]; [by intros [= ->]|].
  destruct (list_remove x l) as [r|]; [|done]. intros [= <-].
  rewrite (IH r eq_refl). apply Permutation_swap.
Qed.

Lemma check_db_steady snapshot l n : steady n (check_db O snapshot l n).
Proof.
  revert l n. induction snapshot as [|c snapshot IH]; intros l n; [done|].
  cbn [check_db]. apply steady_bind; [apply steady_check_one|].
  intros [i|] n1; [|apply IH].
  destruct (list_remove c l); [|done].
  apply steady_bind; [apply IH|]. by intros.
Qed.

Lemma check_db_raises snapshot l n :
  (exists c, c ∈ snapshot /\ source_state n c <> Some "running") ->
  exists e n', check_db O snapshot l n = Exc e n'.
Proof.
  revert l n. induction snapshot as [|c snapshot IH]; intros l n (c0 & Hin & Hst).
  - by apply elem_of_nil in Hin.
  - cbn [check_db]. unfold bind.
    pose proof (steady_check_one c n) as Hk.
    destruct (decide (source_state n c = Some "running")) as [Hrun|Hrun].
    + apply elem_of_cons in Hin as [->|Hin]; [done|].
      destruct (check_one O c n) as [sat n1|e n1|]; simpl in *; [|by eauto|done].
      assert (Hex : exists c, c ∈ snapshot /\
                source_state n1 c <> Some "running").
      { exists c0. split; [done|]. by rewrite (source_state_keeps n n1). }
      destruct sat as [i|].
      * destruct (list_remove c l) as [l'|]; [|by eauto].
        destruct (IH l' n1 Hex) as (e & n2 & ->). simpl. eauto.
      * by apply IH.
    + destruct (check_one_raises c n Hrun) as (e & n1 & ->). simpl. eauto.
Qed.

Lemma check_db_sound snapshot l n l' ev n' :
  check_db O snapshot l n = Ret (l', ev) n' ->
  l ≡ₚ (seen_cond <$> ev) ++ l' /\ Forall (justified O) ev.
Proof.
  revert l n l' ev n'.
  induction snapshot as [|c snapshot IH]; intros l n l' ev n'.
  - by intros [= <- <- _].
  - cbn [check_db]. unfold bind.
    destruct (check_one O c n) as [[i|] n1|e n1|] eqn:Ec; simpl; try done.
    + destruct (list_remove c l) as [l1|] eqn:Er; [|done].
      destruct (check_db O snapshot l1 n1) as [[l2 ev2] n2|e n2|] eqn:Ed;
        simpl; try done.
      intros [= <- <- _]. destruct (IH _ _ _ _ _ Ed) as [Hp Hj]. split.
      * simpl. rewrite (list_remove_perm _ _ _ Er). by rewrite Hp.
      * constructor; [by eapply check_one_justified|done].
    + apply IH.
Qed.


Lemma fields_match_spec target m obj :
  fields_match O target m obj = true -> matches_spec O target m obj.
Proof.
  induction obj as [|[key value] obj IH]; intros Hm k v Hin.
  - by apply elem_of_nil in Hin.
  - cbn [fields_match] in Hm.
    destruct (bool_decide (key = "target")) eqn:Ek;
      destruct (bool_decide (value = VStr target)) eqn:Et;
      simpl in Hm; try done;
      destruct (bool_decide (value = msg_get m key)) eqn:Eg;
      destruct (bool_decide (value = msg_get_attr O m key)) eqn:Ea;
      simpl in Hm; try done;
      (apply elem_of_cons in Hin as [[= -> ->]|Hin]; [|by apply IH]);
      rewrite Ek;
      try (by apply bool_decide_eq_true_1 in Et);
      try (by left; apply bool_decide_eq_true_1 in Eg);
      try (by right; apply bool_decide_eq_true_1 in Ea).
Qed.

Lemma match_event_sound target msg snapshot l n :
  match match_event O target msg snapshot l n with
  | Ret (l', ev) n' =>
      n' = n /\ l ≡ₚ (seen_cond <$> ev) ++ l' /\ Forall (justified O) ev
  | Exc _ n' => n' = n
  | Wait _ _ _ => False
  end.
Proof.
  revert l. induction snapshot as [|c snapshot IH]; intros l; [done|].
  cbn [match_event]. destruct (event_matches O target msg c) eqn:Em; [|apply IH].
  destruct (list_remove c l) as [l1|] eqn:Er; [|done].
  unfold bind. specialize (IH l1).
  destruct (match_event O target msg snapshot l1 n) as [[l2 ev2] n2|e n2|];
    simpl; try done.
  destruct IH as (-> & Hp & Hj). split; [done|]. split.
  - rewrite (list_remove_perm _ _ _ Er). by rewrite Hp.
  - constructor; [|done]. destruct c as [[event evc] obj]. simpl in *.
    destruct msg as [|?|m|]; try done. exists m. split; [done|].
    apply andb_true_iff in Em as [_ Hf]. by apply fields_match_spec.
Qed.


Lemma resume_no_wait {A} envs (o : outcome A) : no_wait o -> resume envs o = o.
Proof. by destruct o, envs. Qed.

Lemma resume_nil {A} (o : outcome A) : resume [] o = o.
Proof. by destruct o. Qed.

Lemma resume_bind_no_wait {A B} envs (o : outcome A) (f : A -> M B) :
  (forall a m, no_wait (f a m)) ->
  resume envs (bind_out o f) = bind_out (resume envs o) f.
Proof.
  intros Hf. revert o. induction envs as [|env envs IH]; intros o.
  - by rewrite !resume_nil.
  - destruct o as [a m|e m|m r k]; simpl; try done.
    + apply (resume_no_wait (env :: envs)), Hf.
    + destruct (r (env m)); [apply IH|]. apply (IH (Wait (env m) r k)).
Qed.

Lemma bind_out_Ret_inv {A B} (o : outcome A) (f : A -> M B) b n' :
  bind_out o f = Ret b n' -> exists a m, o = Ret a m /\ f a m = Ret b n'.
Proof. destruct o; simpl; try done. eauto. Qed.

Lemma wait_loop_sound fuel envs q l n ev n' :
  resume envs (wait_loop O fuel q l n) = Ret (Done, ev) n' ->
  l ≡ₚ seen_cond <$> ev /\ Forall (justified O) ev.
Proof.
  revert envs l n ev n'. induction fuel as [|fuel IH]; intros envs l n ev n'.
  - destruct l; simpl; [|by destruct envs].
    rewrite resume_no_wait by done. by intros [= <- _].
  - destruct l as [|c l]; cbn [wait_loop].
    { rewrite resume_no_wait by done. by intros [= <- _]. }
    unfold bind at 1. unfold evq_get. cbn [bind_out].
    destruct envs as [|env envs]; [done|]. cbn [resume].
    set (got := match wait_queues (env n) !! q with
                | Some (x :: _) => Some x | _ => None end).
    match goal with |- resume envs (bind_out ?o ?K) = _ -> _ =>
      assert (Ho : exists m, o = Ret got m) end.
    { subst got. destruct (wait_queues (env n) !! q) as [[|x w]|]; eauto. }
    destruct Ho as (m & ->). cbn [bind_out]. unfold bind at 1.
    pose proof (check_db_steady (c :: l) (c :: l) m) as Hst.
    destruct (check_db O (c :: l) (c :: l) m) as [[l1 ev1] m1|e m1|] eqn:Ec;
      cbn [bind_out]; [| by rewrite resume_no_wait |done].
    destruct (check_db_sound _ _ _ _ _ _ Ec) as [Hp1 Hj1].
    cbn [bind_out]. destruct got as [[target msg]|].
    + unfold bind at 1. cbn [fst snd].
      pose proof (match_event_sound target msg l1 l1 m1) as Hm.
      destruct (match_event O target msg l1 l1 m1) as [[l2 ev2] m2|e m2|];
        cbn [bind_out]; [| by rewrite resume_no_wait |done].
      destruct Hm as (-> & Hp2 & Hj2). cbn [bind_out]. unfold bind.
      rewrite resume_bind_no_wait by done.
      intros (r & m3 & Hr & Hret)%bind_out_Ret_inv.
      destruct r as [p ev3]. unfold ret in Hret. simpl in Hret.
      injection Hret as -> <- <-.
      destruct (IH _ _ _ _ _ Hr) as [Hp3 Hj3]. split.
      * rewrite Hp1, Hp2, Hp3. by rewrite !fmap_app.
      * by rewrite !Forall_app.
    + unfold bind. rewrite resume_bind_no_wait by done.
      intros (r & m3 & Hr & Hret)%bind_out_Ret_inv.
      destruct r as [p ev3]. unfold ret in Hret. simpl in Hret.
      injection Hret as -> <- <-.
      destruct (IH _ _ _ _ _ Hr) as [Hp3 Hj3]. split.
      * rewrite Hp1, Hp3. by rewrite !fmap_app.
      * by rewrite !Forall_app.
Qed.


Lemma build_wait_for_ret spec n :
  match build_wait_for O spec n with
  | Ret l n' => l = conditions O spec /\ n' = n
  | Exc _ n' => ~ known O spec /\ n' = n
  | Wait _ _ _ => False
  end.
Proof.
  induction spec as [|[event objs] spec IH]; [done|].
  cbn [build_wait_for]. unfold bind, classes, conditions. simpl.
  destruct (schema_classes O event) as [c|] eqn:Ec; simpl.
  - destruct (build_wait_for O spec n) as [l n1|e n1|]; simpl; [| |done].
    + destruct IH as [-> ->]. done.
    + destruct IH as [Hk ->]. split; [|done]. intros H. apply Hk.
      by apply Forall_cons in H as [_ ?].
  - split; [|done]. intros H. apply Forall_cons in H as [[c Hc] _].
    simpl in Hc. congruence.
Qed.

Lemma register_wait_handlers spec q n :
  known O spec ->
  exists n1,
    for_each spec (fun eo =>
      evc <- classes O eo.1 ;; register_handler evc (wait_handler q)) n
    = Ret tt n1 /\ keeps n n1 /\
    forall eo cls, eo ∈ spec -> schema_classes O eo.1 = Some cls ->
      exists added, handlers n1 (K_msg cls) = handlers n (K_msg cls) ++ added /\
                    wait_handler q ∈ added.
Proof.
  intros Hk. revert n. induction Hk as [|eo spec [cls Hc] _ IH]; intros n.
  - exists n. split; [done|]. split; [done|]. by intros ?? ?%elem_of_nil.
  - cbn [for_each]. unfold bind at 1, classes at 1. rewrite Hc.
    unfold bind at 1. cbn [ret bind_out].
    assert (Hr : keeps n (set_event_map
      (<[K_msg cls := default [] (_event_map n !! K_msg cls)
                      ++ [wait_handler q]]> (_event_map n)) n))
      by apply (steady_register (K_msg cls) (wait_handler q) n).
    unfold register_handler at 1. norm.
    match goal with |- context [for_each spec ?b ?m] =>
      destruct (IH m) as (n1 & E & Hk1 & Hin) end.
    exists n1. split; [exact E|]. split; [by eapply keeps_trans|].
    intros eo' cls' [->|Hin']%elem_of_cons Hc'.
    + destruct Hk1 as (_ & _ & Hmono).
      assert (cls' = cls) as -> by congruence.
      destruct (Hmono (K_msg cls)) as [extra Hextra].
      exists ([wait_handler q] ++ extra). split; [|by left].
      rewrite Hextra. unfold handlers at 1. norm.
      rewrite lookup_insert_eq. simpl. by rewrite <- app_assoc.
    + destruct (Hin eo' cls' Hin' Hc') as (added & Ha & Hq).
      destruct Hr as (_ & _ & Hmono).
      destruct (Hmono (K_msg cls')) as [extra Hextra].
      exists (extra ++ added). split; [|apply elem_of_app; by right].
      by rewrite Ha, Hextra, <- app_assoc.
Qed.


Lemma bind_Ret {A B} (c : M A) (f : A -> M B) n a n1 :
  c n = Ret a n1 -> bind c f n = f a n1.
Proof. intros H. unfold bind. by rewrite H. Qed.

Lemma bind_Exc {A B} (c : M A) (f : A -> M B) n e n1 :
  c n = Exc e n1 -> bind c f n = Exc e n1.
Proof. intros H. unfold bind. by rewrite H. Qed.

Lemma wait_prologue fuel spec n :
  known O spec ->
  exists n1,
    wait O fuel (Some spec) n = wait_body O fuel (next_id n) spec n1 /\
    keeps n n1 /\
    forall eo cls, eo ∈ spec -> schema_classes O eo.1 = Some cls ->
      exists added, handlers n1 (K_msg cls) = handlers n (K_msg cls) ++ added /\
                    wait_handler (next_id n) ∈ added.
Proof.
  intros Hk. unfold wait.
  erewrite bind_Ret; [|reflexivity].
  erewrite bind_Ret; [|reflexivity].
  match goal with |- context [for_each spec ?b] =>
    destruct (register_wait_handlers spec (next_id n)
      (set_wait_queues (<[next_id n:=[]]> (wait_queues n))
         (set_next_id (S (next_id n)) n)) Hk)
      as (n1 & E & Hk1 & Hin) end.
  erewrite bind_Ret; [|exact E].
  pose proof (build_wait_for_ret spec n1) as Hb.
  destruct (build_wait_for O spec n1) as [l n2|e n2|] eqn:Eb; [| |done].
  - destruct Hb as [-> ->]. erewrite bind_Ret; [|exact Eb].
    exists n1. split; [done|]. split.
    { eapply keeps_trans; [|exact Hk1]. done. }
    intros eo cls Heo Hcls. destruct (Hin eo cls Heo Hcls) as (added & Ha & Hq).
    by exists added.
  - by destruct Hb as [? _].
Qed.

Lemma wait_raises fuel spec n :
  known O spec ->
  (exists c, c ∈ conditions O spec /\ source_state n c <> Some "running") ->
  exists e n',
    wait O fuel (Some spec) n = Exc e n' /\
    forall eo cls, eo ∈ spec -> schema_classes O eo.1 = Some cls ->
      exists added, handlers n' (K_msg cls) = handlers n (K_msg cls) ++ added /\
                    wait_handler (next_id n) ∈ added.
Proof.
  intros Hk (c & Hc & Hst).
  destruct (wait_prologue fuel spec n Hk) as (n1 & -> & Hk1 & Hin).
  unfold wait_body, bind.
  pose proof (check_db_steady (conditions O spec) (conditions O spec) n1) as Hs.
  destruct (check_db_raises (conditions O spec) (conditions O spec) n1)
    as (e & n2 & E).
  { exists c. split; [done|]. by rewrite (source_state_keeps n n1). }
  rewrite E in Hs |- *. simpl. exists e, n2. split; [done|].
  intros eo cls Heo Hcls. destruct Hs as (_ & _ & Hmono).
  destruct (Hin eo cls Heo Hcls) as (added & Ha & Hq).
  destruct (Hmono (K_msg cls)) as [extra Hextra].
  exists (added ++ extra). split; [|apply elem_of_app; by left].
  by rewrite Hextra, Ha, <- app_assoc.
Qed.

Lemma no_wait_unregister (spec : list (string * list dict)) q n :
  no_wait (for_each spec (fun eo =>
    evc <- classes O eo.1 ;; unregister_handler evc (wait_handler q)) n).
Proof.
  revert n. induction spec as [|eo spec IH]; intros n; [done|].
  cbn [for_each]. unfold bind at 1, classes at 1.
  destruct (schema_classes O eo.1); [|done].
  unfold bind at 1. cbn [ret bind_out]. unfold unregister_handler at 1.
  destruct (_event_map n !! _); [|done].
  destruct (list_remove _ _); [|done]. cbn [bind_out]. apply IH.
Qed.

Lemma wait_sound envs fuel spec n ev n' :
  resume envs (wait O fuel (Some spec) n) = Ret (Done, ev) n' ->
  conditions O spec ≡ₚ seen_cond <$> ev /\ Forall (justified O) ev.
Proof.
  unfold wait.
  erewrite bind_Ret; [|reflexivity].
  erewrite bind_Ret; [|reflexivity].
  unfold bind at 1.
  match goal with |- context [for_each spec ?b ?m] =>
    assert (Hr : steady m (for_each spec b m));
    [|destruct (for_each spec b m) as [[] n1|e n1|]; [| |done]] end.
  { apply steady_for_each. intros eo m. unfold bind, classes.
    destruct (schema_classes O eo.1); [|done]. apply steady_register. }
  2:{ by rewrite resume_no_wait. }
  cbn [bind_out]. unfold bind at 1.
  pose proof (build_wait_for_ret spec n1) as Hb.
  destruct (build_wait_for O spec n1) as [l n2|e n2|]; [| |done].
  2:{ by rewrite resume_no_wait. }
  destruct Hb as [-> ->]. cbn [bind_out]. unfold bind at 1.
  pose proof (check_db_steady (conditions O spec) (conditions O spec) n1) as Hs.
  destruct (check_db O (conditions O spec) (conditions O spec) n1)
    as [[l1 ev1] n2|e n2|] eqn:Ec; [| |done].
  2:{ by rewrite resume_no_wait. }
  destruct (check_db_sound _ _ _ _ _ _ Ec) as [Hp1 Hj1]. cbn [bind_out].
  unfold bind at 1. rewrite resume_bind_no_wait.
  2:{ intros [[] ev2] m; simpl; [|done]. unfold bind.
      pose proof (no_wait_unregister spec (next_id n) m) as Hu.
      by destruct (for_each _ _ m). }
  intros ([p ev2] & m & Hl & Hret)%bind_out_Ret_inv.
  destruct p; simpl in Hret.
  - unfold bind in Hret.
    destruct (for_each _ _ m) as [[] m1|e m1|]; simpl in Hret; try done.
    injection Hret as <- <-.
    destruct (wait_loop_sound _ _ _ _ _ _ _ Hl) as [Hp2 Hj2]. split.
    + rewrite Hp1, Hp2. by rewrite fmap_app.
    + by rewrite Forall_app.
  - done.
Qed.

Lemma wait_loop_raises fuel q c l n env :
  (exists c', c' ∈ c :: l /\ source_state (env n) c' <> Some "running") ->
  exists e m, resume [env] (wait_loop O (S fuel) q (c :: l) n) = Exc e m.
Proof.
  intros Hex. cbn [wait_loop]. unfold bind at 1, evq_get. cbn [bind_out resume].
  assert (Hgot : exists got m,
    match wait_queues (env n) !! q with
    | Some (x :: w) =>
        Ret (Some x) (set_wait_queues (<[q:=w]> (wait_queues (env n))) (env n))
    | _ => Ret None (env n)
    end = Ret got m /\ keeps (env n) m).
  { destruct (wait_queues (env n) !! q) as [[|x w]|];
      eexists _, _; (split; [reflexivity|done]). }
  destruct Hgot as (got & m & -> & Hk). cbn [bind_out].
  destruct (check_db_raises (c :: l) (c :: l) m) as (e & m' & E).
  { destruct Hex as (c' & Hin & Hst). exists c'. split; [done|].
    by rewrite (source_state_keeps (env n) m). }
  exists e, m'. by rewrite (bind_Exc _ _ _ _ _ E).
Qed.


(** In the code the key 'target' goes through the comparison with the
    fields of the message as well (line 729 is an [elif] of line 727), so
    an entry that names its target is not matched by an event whose
    message has no such field; the store lookup is what satisfies it. *)
Remark target_key_only_by_lookup :
  fields_match quiet "localhost" lo [("target", VStr "localhost")] = false /\
  matches_spec quiet "localhost" lo [("target", VStr "localhost")].
Proof.
  split; [reflexivity|]. intros key value Hin.
  apply list_elem_of_singleton in Hin as [= -> ->]. reflexivity.
Qed.

(** C5.  A direct-store check raises, and does not block, as soon as the
    source of an entry that is still open is not in the state 'running':
    the first check of [wait], and the check of every turn of its loop,
    whatever the other threads did in the meantime.  And a call of [wait]
    that returns has seen every entry of its [spec] leave [wait_for], each
    on its own account: by a lookup in the store that did not raise, or by
    an event that came through the queue and matches the entry field by
    field as the specification says. *)
Theorem C5_wait :
  (forall l n,
     (exists c, c ∈ l /\ source_state n c <> Some "running") ->
     exists e n', check_db O l l n = Exc e n') /\
  (forall fuel spec n,
     known O spec ->
     (exists c, c ∈ conditions O spec /\
                source_state n c <> Some "running") ->
     exists e n', wait O fuel (Some spec) n = Exc e n') /\
  (forall fuel q c l n env,
     (exists c', c' ∈ c :: l /\
                 source_state (env n) c' <> Some "running") ->
     exists e m,
       resume [env] (wait_loop O (S fuel) q (c :: l) n) = Exc e m) /\
  (forall envs fuel spec n ev n',
     resume envs (wait O fuel (Some spec) n) = Ret (Done, ev) n' ->
     conditions O spec ≡ₚ seen_cond <$> ev /\ Forall (justified O) ev).
Proof.
  split; [intros l n; apply check_db_raises|].
  split.
  { intros fuel spec n Hk Hex.
    destruct (wait_raises fuel spec n Hk Hex) as (e & n' & E & _). eauto. }
  split; [apply wait_loop_raises|apply wait_sound].
Qed.

(** C9.  [wait] registers its handler for the class of every event of
    [spec] before its first check of the store; when that check raises
    because the source of an entry is not in the state 'running', the
    call ends with the exception and the handler is still in the
    registry, after the handlers that were there, for each of these
    classes. *)
Theorem C9_wait_leaves_handlers (fuel : nat)
    (spec : list (string * list dict)) (n : NDB) :
  known O spec ->
  (exists c, c ∈ conditions O spec /\ source_state n c <> Some "running") ->
  exists e n',
    wait O fuel (Some spec) n = Exc e n' /\
    forall eo cls, eo ∈ spec -> schema_classes O eo.1 = Some cls ->
      exists added,
        handlers n' (K_msg cls) = handlers n (K_msg cls) ++ added /\
        wait_handler (next_id n) ∈ added.
Proof. apply wait_raises. Qed.



Lemma relock (sid : nat) (s : Source) (m : gmap nat Source) :
  m !! sid = Some s -> lock s = false ->
  alter (with_lock false) sid (alter (with_lock true) sid m) = m.
Proof.
  intros Hs Hl. rewrite alter_alter_eq. apply alter_id.
  intros x Hx. rewrite Hs in Hx. injection Hx as <-.
  destruct s. simpl in *. by subst.
Qed.








End Properties.

(** ** The engine as a whole *)

(** ** Code and what it leaves alone *)

Section Frames.

Context (R : NDB -> NDB -> Prop) `{!PreOrder R}.

Lemma quick_safe {A} n (o : outcome A) : quick R n o -> safe R n o.
Proof. by destruct o. Qed.

Lemma quick_from {A} n m (o : outcome A) : R n m -> quick R m o -> quick R n o.
Proof. intros H. destruct o; simpl; try done; by etrans. Qed.

Lemma safe_from {A} n m (o : outcome A) : R n m -> safe R m o -> safe R n o.
Proof.
  intros H. destruct o; simpl; try (by etrans).
  intros [H1 H2]. split; [by etrans|done].
Qed.

Lemma quick_bind {A B} (c : M A) (k : A -> M B) n :
  quick R n (c n) -> (forall a m, R n m -> quick R m (k a m)) ->
  quick R n (bind c k n).
Proof.
  unfold bind. destruct (c n) as [a m|e m|]; simpl; try done.
  intros H Hk. eapply quick_from; [exact H|]. by apply Hk.
Qed.

Lemma quick_try {A} (c : M A) (h : exn -> M A) n :
  quick R n (c n) -> (forall e m, R n m -> quick R m (h e m)) ->
  quick R n (try_except c h n).
Proof.
  unfold try_except. destruct (c n) as [a m|e m|]; simpl; try done.
  intros H Hk. eapply quick_from; [exact H|]. by apply Hk.
Qed.

Lemma quick_ret {A} (a : A) n : quick R n (ret a n).
Proof. simpl. reflexivity. Qed.

Lemma quick_raise {A} e n : quick R n (raise (A := A) e n).
Proof. simpl. reflexivity. Qed.

Lemma quick_gets {A} (f : NDB -> A) n : quick R n (gets f n).
Proof. simpl. reflexivity. Qed.

Lemma quick_when (b : bool) (c : M unit) n :
  (b = true -> quick R n (c n)) -> quick R n (when b c n).
Proof. destruct b; simpl; [auto|reflexivity]. Qed.

Lemma safe_bind_out {A B} (o : outcome A) (k : A -> M B) n :
  safe R n o -> (forall a, framed R (k a)) -> safe R n (bind_out o k).
Proof.
  intros Ho Hk. revert n Ho.
  induction o as [a m|e m|m r kk IH]; intros n Ho; simpl in *.
  - eapply safe_from; [exact Ho|]. apply Hk.
  - done.
  - destruct Ho as [H1 H2]. split; [done|]. intros m'. apply IH, H2.
Qed.

Lemma framed_bind {A B} (c : M A) (k : A -> M B) :
  framed R c -> (forall a, framed R (k a)) -> framed R (bind c k).
Proof. intros Hc Hk n. apply safe_bind_out; [apply Hc|done]. Qed.

Lemma safe_catch_out {A} (o : outcome A) (h : exn -> M A) n :
  safe R n o -> (forall e, framed R (h e)) -> safe R n (catch_out o h).
Proof.
  intros Ho Hh. revert n Ho.
  induction o as [a m|e m|m r kk IH]; intros n Ho; simpl in *.
  - done.
  - eapply safe_from; [exact Ho|]. apply Hh.
  - destruct Ho as [H1 H2]. split; [done|]. intros m'. apply IH, H2.
Qed.

Lemma framed_try {A} (c : M A) (h : exn -> M A) :
  framed R c -> (forall e, framed R (h e)) -> framed R (try_except c h).
Proof. intros Hc Hh n. apply safe_catch_out; [apply Hc|done]. Qed.

Lemma framed_ret {A} (a : A) : framed R (ret a).
Proof. intros n. simpl. reflexivity. Qed.

Lemma framed_raise {A} e : framed R (raise (A := A) e).
Proof. intros n. simpl. reflexivity. Qed.

Lemma framed_gets {A} (f : NDB -> A) : framed R (gets f).
Proof. intros n. simpl. reflexivity. Qed.

Lemma framed_modify (f : NDB -> NDB) :
  (forall n, R n (f n)) -> framed R (modify f).
Proof. intros H n. apply H. Qed.

Lemma framed_await ready : framed R (await ready).
Proof.
  intros n. unfold await. destruct (ready n); simpl; [reflexivity|].
  split; [reflexivity|]. intros m. simpl. reflexivity.
Qed.

Lemma framed_when (b : bool) (c : M unit) :
  framed R c -> framed R (when b c).
Proof. destruct b; simpl; [done|]. intros _. apply framed_ret. Qed.

Lemma framed_for_each {A} (l : list A) (body : A -> M unit) :
  (forall a, framed R (body a)) -> framed R (for_each l body).
Proof.
  intros Hb. induction l as [|a l IH]; simpl.
  - apply framed_ret.
  - apply framed_bind; [apply Hb|]. intros _. apply IH.
Qed.

Lemma framed_except_Exception {A} (h : exn -> M A) e :
  (forall e, framed R (h e)) -> framed R (except_Exception h e).
Proof.
  intros Hh. unfold except_Exception. destruct (is_Exception e); [apply Hh|].
  apply framed_raise.
Qed.

End Frames.

Lemma envs_app tr tr' : envs (tr ++ tr') = envs tr ++ envs tr'.
Proof. apply bind_app. Qed.

Lemma puts_app tr tr' : puts (tr ++ tr') = puts tr ++ puts tr'.
Proof. unfold puts. by rewrite envs_app, bind_app. Qed.

Lemma applies_app tr tr' : applies (tr ++ tr') = applies tr ++ applies tr'.
Proof. apply bind_app. Qed.

Lemma syncs_app tr tr' : syncs (tr ++ tr') = syncs tr ++ syncs tr'.
Proof. apply bind_app. Qed.

Lemma barriers_app tr tr' :
  barriers (tr ++ tr') = barriers tr ++ barriers tr'.
Proof. unfold barriers. by rewrite puts_app, bind_app. Qed.

Lemma silent_snoc tr e :
  silent e = true ->
  envs (tr ++ [e]) = envs tr /\ applies (tr ++ [e]) = applies tr /\
  syncs (tr ++ [e]) = syncs tr.
Proof.
  intros H. rewrite envs_app, applies_app, syncs_app.
  destruct e; try discriminate H; simpl; by rewrite !app_nil_r.
Qed.

Lemma barriers_envs tr tr' : envs tr' = envs tr -> barriers tr' = barriers tr.
Proof. unfold barriers, puts. by intros ->. Qed.

Section Loop.

Variable O : oracle.

Lemma loop_frame_refl sigs n : loop_frame [] sigs n n.
Proof.
  split; try done.
  - by rewrite app_nil_r.
  - intros s Hs. by left.
  - intros sid s Hs. by exists s.
Qed.

Lemma loop_frame_trans new1 new2 sigs n1 n2 n3 :
  loop_frame new1 sigs n1 n2 -> loop_frame new2 sigs n2 n3 ->
  loop_frame (new1 ++ new2) sigs n1 n3.
Proof.
  intros [l_queue l_next l_trace l_envs l_applies l_syncs l_signals l_set l_objs l_head] [l_queue0 l_next0 l_trace0 l_envs0 l_applies0 l_syncs0 l_signals0 l_set0 l_objs0 l_head0]. split.
  - congruence.
  - congruence.
  - by etrans.
  - congruence.
  - rewrite l_applies0, l_applies. by rewrite app_assoc.
  - congruence.
  - by etrans.
  - intros s Hs. destruct (l_set0 s Hs) as [H|H]; [|by right].
    by apply l_set.
  - intros sid s3 H3. destruct (l_objs0 sid s3 H3) as (s2 & H2 & Ht & He).
    destruct (l_objs sid s2 H2) as (s1 & H1 & Ht' & He').
    exists s1. split; [done|]. split; congruence.
  - auto.
Qed.

#[local] Instance handled_preorder sigs : PreOrder (loop_frame [] sigs).
Proof.
  split; [intros n; apply loop_frame_refl|].
  intros n1 n2 n3 H1 H2. exact (loop_frame_trans [] [] sigs _ _ _ H1 H2).
Qed.

(** The state changes the handlers make *)

Lemma handled_silent sigs e n :
  silent e = true -> loop_frame [] sigs n (set_trace (trace n ++ [e]) n).
Proof.
  intros He. destruct (silent_snoc (trace n) e He) as (H1 & H2 & H3).
  split; simpl; try done.
  - by apply prefix_app_r.
  - by rewrite app_nil_r.
  - intros s Hs. by left.
  - intros sid s Hs. by exists s.
Qed.

Lemma handled_fields sigs n n' :
  _event_queue n' = _event_queue n -> next_id n' = next_id n ->
  trace n' = trace n -> signals n' = signals n -> objs n' = objs n ->
  _event_map n' = _event_map n ->
  loop_frame [] sigs n n'.
Proof.
  intros Hq Hn Ht Hs Ho He. split; rewrite ?Ht, ?Hs, ?Ho; try done.
  - by rewrite app_nil_r.
  - intros s H. by left.
  - intros sid s H. by exists s.
  - unfold head_set, handlers. by rewrite He.
Qed.

Lemma handled_tick sigs t n : loop_frame [] sigs n (set_tick t n).
Proof. by apply handled_fields. Qed.

Lemma handled_ext sigs c n : quick (loop_frame [] sigs) n (ext O c n).
Proof.
  assert (H : loop_frame [] sigs n
            (set_tick (S (tick n)) (set_trace (trace n ++ [T_call c]) n))).
  { etrans; [apply handled_silent|apply handled_tick]. done. }
  unfold ext. by destruct (raises O (tick n) c).
Qed.

Lemma handled_log sigs level text n :
  quick (loop_frame [] sigs) n (log level text n).
Proof. by apply handled_silent. Qed.

Lemma handled_invoke h target ev n :
  quick (loop_frame [] [ev]) n (invoke O h target ev n).
Proof.
  destruct h; simpl.
  - destruct ev as [e| | |]; try apply handled_log.
    destruct (is_Exception e); [apply quick_raise, _|apply handled_log].
  - destruct ev as [|s| |]; try (apply quick_raise, _).
    split; simpl; try done.
    + by rewrite app_nil_r.
    + set_solver.
    + intros s' [->%elem_of_singleton|H]%elem_of_union; [right|by left].
      by left.
    + intros sid s' Hs. by exists s'.
  - apply handled_ext.
  - apply handled_ext.
  - simpl. unfold bind, modify, gets, when, bind_out. simpl.
    destruct (bool_decide _); simpl; by apply handled_fields.
  - unfold bind, gets, bind_out.
    destruct (bool_decide _); [apply handled_ext|apply quick_raise, _].
  - unfold modify. simpl. destruct (wait_queues n !! q) as [l|]; [|reflexivity].
    destruct (bool_decide _); [|reflexivity]. by apply handled_fields.
  - apply handled_ext.
Qed.

Lemma head_set_remove (h : handler) (k : kind) (n : NDB) (l' : list handler) :
  h <> set_lambda ->
  list_remove h (handlers n k) = Some l' -> head_set n ->
  head_set (set_event_map (<[k := l']> (_event_map n)) n).
Proof.
  intros Hh Hr [hs Hs]. unfold head_set, handlers in *. simpl.
  destruct (decide (k = K_Event)) as [->|Hk].
  - rewrite lookup_insert_eq. simpl. rewrite Hs in Hr. simpl in Hr.
    destruct (decide (h = set_lambda)); [done|].
    destruct (list_remove h hs) as [r|]; [|done]. injection Hr as <-. eauto.
  - rewrite lookup_insert_ne by done. eauto.
Qed.

Lemma handled_invalidate sigs registered k h n :
  h <> set_lambda ->
  quick (loop_frame [] sigs) n (invalidate registered k h n).
Proof.
  intros Hh. unfold invalidate. destruct registered; [|apply quick_ret, _].
  destruct (list_remove h (default [] (_event_map n !! k))) as [l'|] eqn:E;
    [|apply handled_log].
  simpl. split; simpl; try done.
  - by rewrite app_nil_r.
  - intros s H. by left.
  - intros sid s H. by exists s.
  - by apply (head_set_remove h).
Qed.

Lemma handled_shutdown_all sigs l target n :
  quick (loop_frame [] sigs) n (shutdown_all l target n).
Proof.
  revert target n. induction l as [|[t [sid|]] l IH]; intros target n.
  - apply quick_ret, _.
  - cbn [shutdown_all]. apply quick_bind; [apply _|..].
    + simpl. split; simpl; try done.
      * by rewrite app_nil_r.
      * intros s H. by left.
      * intros sid' s'. rewrite lookup_alter.
        destruct (decide (sid = sid')) as [->|]; [|by exists s'].
        destruct (objs n !! sid') as [s|]; [|done]. simpl.
        intros [= <-]. by exists s.
    + intros _ m _. apply quick_bind; [apply _|..].
      * by apply handled_silent.
      * intros _ m' _. apply IH.
  - apply quick_raise, _.
Qed.

Lemma invoke_Invalidate h target ev n m :
  invoke O h target ev n = Exc InvalidateHandlerException m ->
  h <> set_lambda.
Proof. intros H ->. by destruct ev. Qed.

Lemma handled_run_handlers registered ev hs target n :
  quick (loop_frame [] [ev]) n (run_handlers O registered ev hs target n).
Proof.
  revert target n. induction hs as [|h hs IH]; intros target n.
  - apply quick_ret, _.
  - cbn [run_handlers]. unfold bind at 1, try_except, bind at 1.
    pose proof (handled_invoke h target ev n) as Hi.
    destruct (invoke O h target ev n) as [[] m|e m|] eqn:E; [| |done];
      simpl in Hi |- *.
    + eapply (quick_from (loop_frame [] [ev])); [exact Hi|]. apply IH.
    + eapply (quick_from (loop_frame [] [ev])); [exact Hi|].
      destruct e; try (apply quick_bind; [apply _|apply handled_log|];
                        intros _ m' _; apply IH).
      * apply quick_ret, _.
      * apply quick_bind; [apply _|apply quick_gets, _|]. intros srcs m' _.
        apply quick_bind; [apply _|apply handled_shutdown_all|].
        intros t' m'' _. apply IH.
      * apply quick_bind; [apply _|..].
        -- apply handled_invalidate. by eapply invoke_Invalidate.
        -- intros _ m' _. apply IH.
Qed.

Lemma handled_gc_check sigs n : quick (loop_frame [] sigs) n (gc_check O n).
Proof.
  unfold gc_check, bind, time_time, gets, bind_out, when. simpl.
  destruct (bool_decide _); simpl; by apply handled_fields.
Qed.

Lemma taken_dispatch_event t0 ev target n :
  quick (loop_frame [(t0, ev)] [ev]) n (dispatch_event O t0 ev target n).
Proof.
  set (n1 := set_trace (trace n ++ [T_apply t0 ev]) n).
  assert (H1 : loop_frame [(t0, ev)] [ev] n n1).
  { split; simpl; try done.
    - by apply prefix_app_r.
    - rewrite envs_app. simpl. by rewrite app_nil_r.
    - by rewrite applies_app.
    - rewrite syncs_app. simpl. by rewrite app_nil_r.
    - intros s H. by left.
    - intros sid s H. by exists s. }
  assert (Hq : forall A (o : outcome A),
             quick (loop_frame [] [ev]) n1 o ->
             quick (loop_frame [(t0, ev)] [ev]) n o).
  { intros A o. destruct o; simpl; try done;
      intros H; exact (loop_frame_trans [(t0, ev)] [] [ev] _ _ _ H1 H). }
  unfold dispatch_event, bind at 1, emit, modify, bind_out. fold n1.
  apply Hq. apply quick_bind; [apply _|apply quick_gets, _|]. intros em m _.
  apply quick_bind; [apply _|..].
  - destruct (em !! class_of ev); apply handled_run_handlers.
  - intros [t' []] m' _.
    + apply quick_bind; [apply _|apply handled_gc_check|].
      intros _ m'' _. apply quick_ret, _.
    + apply quick_ret, _.
Qed.

Lemma loop_frame_weaken new sigs sigs' n n' :
  sigs ⊆ sigs' -> loop_frame new sigs n n' -> loop_frame new sigs' n n'.
Proof.
  intros Hs [l_queue l_next l_trace l_envs l_applies l_syncs l_signals l_set l_objs l_head]. split; try done.
  intros s H. destruct (l_set s H); [by left|right]. by apply Hs.
Qed.

(** The events of an envelope: [done] is what the loop took up before
    it went on to the next envelope, returned or died. *)
Lemma taken_dispatch_events t0 events target n :
  exists done,
    done `prefix_of` events /\
    quick (loop_frame ((fun ev => (t0, ev)) <$> done) done) n
      (dispatch_events O t0 events target n) /\
    (forall n', dispatch_events O t0 events target n = Ret Continue n' ->
                done = events).
Proof.
  revert target n. induction events as [|ev events IH]; intros target n.
  - exists []. split; [done|]. split; [apply loop_frame_refl|done].
  - cbn [dispatch_events]. unfold bind.
    pose proof (taken_dispatch_event t0 ev target n) as H1.
    destruct (dispatch_event O t0 ev target n) as [[t' f] m|e m|] eqn:E;
      [| |done]; simpl in H1 |- *.
    + destruct f.
      * destruct (IH t' m) as (done & Hp & Hq & Hc).
        exists (ev :: done). split; [by apply prefix_cons|]. split.
        -- destruct (dispatch_events O t0 events t' m); simpl in *; try done;
             apply (loop_frame_trans [(t0, ev)] _ (ev :: done) n m);
             try (eapply loop_frame_weaken; [|eassumption]; set_solver).
        -- intros n' Hn'. by rewrite (Hc n' Hn').
      * exists [ev]. split; [apply prefix_cons, prefix_nil|].
        split; [done|]. intros n' [=].
    + exists [ev]. split; [apply prefix_cons, prefix_nil|]. split; [done|done].
Qed.

(** One turn of the main loop. *)
Lemma dbm_step_spec n n' :
  dbm_step O n = Some n' ->
  exists t evs q done,
    _dbm_thread n = true /\ _event_queue n = (t, evs) :: q /\
    done `prefix_of` evs /\ (_dbm_thread n' = true -> done = evs) /\
    loop_frame ((fun ev => (t, ev)) <$> done) done (set_event_queue q n) n'.
Proof.
  unfold dbm_step. destruct (_dbm_thread n) eqn:Ha; [|done].
  destruct (_event_queue n) as [|[t evs] q] eqn:Hq; [done|].
  intros [= <-].
  destruct (taken_dispatch_events t evs t (set_event_queue q n))
    as (done & Hp & Hf & Hc).
  exists t, evs, q, done. split; [done|]. split; [done|]. split; [done|].
  destruct (dispatch_events O t evs t (set_event_queue q n)) as [f m|e m|];
    simpl in Hf; [| |done].
  - destruct f.
    + split; [intros _; by eapply Hc|done].
    + split; [done|]. destruct Hf. by split.
  - split; [done|].
    rewrite <- (app_nil_r (_ <$> done)).
    eapply loop_frame_trans; [exact Hf|].
    etrans; [apply (handled_silent _ (T_log "died" "NDB main loop")); done|].
    by apply handled_fields.
Qed.

Lemma list_elem_of_applies t ev tr :
  (t, ev) ∈ applies tr <-> T_apply t ev ∈ tr.
Proof.
  unfold applies. rewrite list_elem_of_bind. split.
  - intros (e & He & Hin). destruct e; try by apply elem_of_nil in He.
    by apply list_elem_of_singleton in He as [= -> ->].
  - intros H. exists (T_apply t ev). split; [by left|done].
Qed.

Lemma sync_in_syncs tr sid b : T_sync_wait sid b ∈ tr -> b ∈ syncs tr.
Proof.
  intros H. unfold syncs. apply list_elem_of_bind.
  exists (T_sync_wait sid b). split; [by left|done].
Qed.

(** Entries added to a trace that are no barrier seen set leave the ones
    of the trace where they were. *)
Lemma syncs_kept tr tr' :
  tr `prefix_of` tr' -> syncs tr' = syncs tr ->
  (forall i sid b, tr !! i = Some (T_sync_wait sid b) ->
     exists t, (t, E_signal (SigBarrier b)) ∈ applies (take i tr)) ->
  forall i sid b, tr' !! i = Some (T_sync_wait sid b) ->
    exists t, (t, E_signal (SigBarrier b)) ∈ applies (take i tr').
Proof.
  intros [new ->] Hs H i sid b Hi. rewrite syncs_app in Hs.
  assert (Hnew : syncs new = []).
  { apply (f_equal length) in Hs. rewrite length_app in Hs.
    apply length_zero_iff_nil. lia. }
  destruct (decide (i < length tr)) as [Hlt|Hge].
  - rewrite lookup_app_l in Hi by done.
    rewrite take_app_le by lia. by eapply H.
  - rewrite lookup_app_r in Hi by lia.
    apply list_elem_of_lookup_2, sync_in_syncs in Hi.
    rewrite Hnew in Hi. by apply elem_of_nil in Hi.
Qed.

Lemma Inv_dbm n n' : Inv n -> dbm_step O n = Some n' -> Inv n'.
Proof.
  intros [inv_prefix inv_queue inv_signals inv_syncs inv_nodup inv_below inv_pending inv_distinct inv_events]
    (t & evs & q & done & Ha & Hq & [rest ->] & Hc & Hl)%dbm_step_spec.
  destruct Hl as [l_queue l_next l_trace l_envs l_applies l_syncs l_signals l_set l_objs l_head].
  simpl in *.
  assert (Hputs : puts (trace n') = puts (trace n))
    by (unfold puts; by rewrite l_envs).
  assert (Hbar : barriers (trace n') = barriers (trace n))
    by by apply barriers_envs.
  specialize (inv_queue Ha). rewrite Hq in inv_queue.
  rewrite bind_cons in inv_queue. unfold items at 1 in inv_queue.
  simpl in inv_queue. rewrite fmap_app in inv_queue.
  split.
  - rewrite Hputs, l_applies, inv_queue.
    by apply prefix_app, prefix_app_r, prefix_app_r.
  - intros Ha'. specialize (Hc Ha').
    apply (f_equal length) in Hc. rewrite length_app in Hc.
    destruct rest; [|simpl in Hc; lia].
    rewrite Hputs, l_applies, inv_queue, l_queue.
    rewrite fmap_nil, app_nil_r. by rewrite <- app_assoc.
  - intros s Hs. destruct (l_set s Hs) as [H|H].
    + destruct (inv_signals s H) as [t' Ht']. exists t'.
      rewrite l_applies. apply elem_of_app. by left.
    + exists t. rewrite l_applies. apply elem_of_app. right.
      apply list_elem_of_fmap. by exists (E_signal s).
  - by apply (syncs_kept (trace n)).
  - by rewrite Hbar.
  - intros b. rewrite Hbar, l_next. apply inv_below.
  - intros sid s' b Hs Ht. destruct (l_objs sid s' Hs) as (s & Hs0 & Ht0 & _).
    rewrite Hbar, l_next. apply (inv_pending sid s); congruence.
  - intros sid sid' s1 s2 b H1 H2 Ht1 Ht2.
    destruct (l_objs sid s1 H1) as (s1' & H1' & Ht1' & _).
    destruct (l_objs sid' s2 H2) as (s2' & H2' & Ht2' & _).
    apply (inv_distinct sid sid' s1' s2' b); congruence.
  - intros sid s Hs. destruct (l_objs sid s Hs) as (s' & Hs' & _ & He).
    rewrite <- He. by eapply inv_events.
Qed.
End Loop.

Section Pump.
Variable O : oracle.

Lemma barriers_put t (evs : list item) :
  barriers [T_put (t, evs)] = evs ≫= item_barrier.
Proof.
  unfold barriers, puts, envs. rewrite !bind_singleton. unfold items.
  cbn [fst snd]. induction evs as [|ev evs IH]; [done|].
  rewrite fmap_cons, !bind_cons, IH. done.
Qed.

Lemma barriers_msgs t (l : list nlmsg) : barriers [T_put (t, E_msg <$> l)] = [].
Proof.
  rewrite barriers_put. induction l as [|m l IH]; [done|].
  by rewrite fmap_cons, bind_cons, IH.
Qed.

Ltac norm1_in H :=
  cbv [bind ret raise gets modify emit log try_except except_Exception
       self_get self_set self_nl self_put set_state put await when ext
       ext_msgs fresh time_time interrupted] in H;
  cbn [_event_map _rtnl_objects _event_queue sources schema _dbm_thread
       _dbm_ready _global_lock gctime countdown atexit_registered objs live
       next_id signals wait_queues tick trace
       set_event_map set_rtnl_objects set_event_queue set_sources set_schema
       set_dbm_thread set_dbm_ready set_global_lock set_gctime set_countdown
       set_atexit_registered set_objs set_live set_next_id set_signals
       set_wait_queues set_tick set_trace
       th nl target nl_prime nl_kwarg event shutdown started lock persistent
       state with_th with_nl with_shutdown with_started with_lock with_state
       goto is_alive in_try fmap option_fmap option_map
       bind_out catch_out stmt pump_run] in H.

Ltac norm_in H := repeat (progress norm1_in H).

Ltac crack Hs H :=
  repeat (norm_in H; rewrite ?lookup_alter_eq, ?Hs in H;
          cbv beta iota in H; norm_in H;
          match type of H with
          | context [match ?x with _ => _ end] =>
              lazymatch x with
              | context [match _ with _ => _ end] => fail
              | _ => idtac
              end;
              first [is_var x; destruct x | destruct x eqn:?]
          end); norm_in H.

Lemma except_clauses_not_sync e b : except_clauses e <> P_put_sync b.
Proof. by destruct e. Qed.

Lemma pumped_intro sid s p n n' new s' :
  signals n' = signals n -> _dbm_thread n' = _dbm_thread n ->
  _event_map n' = _event_map n -> next_id n <= next_id n' ->
  trace n' = trace n ++ new ->
  _event_queue n' = _event_queue n ++ envs new ->
  applies new = [] ->
  barriers new = pc_barriers s p ->
  (syncs new = [] \/
   exists b, p = P_wait_sync b /\ new = [T_sync_wait sid b] /\
             SigBarrier b ∈ signals n) ->
  (forall sid', sid' <> sid -> objs n' !! sid' = objs n !! sid') ->
  objs n' !! sid = Some s' -> event s' = event s ->
  (forall b, th s' = Some (P_put_sync b) ->
     p = P_new_sync /\ b = next_id n /\ next_id n < next_id n') ->
  pumped sid s p n n'.
Proof. intros. split; eauto 10. Qed.

Ltac land Hs H :=
  injection H as <-; unfold goto;
  eapply pumped_intro;
    cbn [_event_map _rtnl_objects _event_queue sources schema _dbm_thread
         _dbm_ready _global_lock gctime countdown atexit_registered objs live
         next_id signals wait_queues tick trace
         set_event_map set_rtnl_objects set_event_queue set_sources set_schema
         set_dbm_thread set_dbm_ready set_global_lock set_gctime set_countdown
         set_atexit_registered set_objs set_live set_next_id set_signals
         set_wait_queues set_tick set_trace];
  [ reflexivity | reflexivity | reflexivity | lia
  | first [rewrite <- ?app_assoc; reflexivity | symmetry; apply app_nil_r]
  | first [reflexivity | symmetry; apply app_nil_r]
  | reflexivity
  | first [reflexivity | apply barriers_msgs | idtac]
  | first [left; reflexivity | idtac]
  | intros; rewrite ?lookup_alter_ne by done; reflexivity
  | rewrite ?lookup_alter_eq, Hs; reflexivity
  | reflexivity
  | first [by intros ? [=] | idtac] ].

Lemma pump_step_spec sid n n' :
  pump_step O sid n = Some n' ->
  exists s p, objs n !! sid = Some s /\ th s = Some p /\ pumped sid s p n n'.
Proof.
  intros H. unfold pump_step in H.
  destruct (objs n !! sid) as [s|] eqn:Hs; [|done].
  destruct (th s) as [p|] eqn:Hth; [|done].
  exists s, p. split; [done|]. split; [done|].
  destruct p; cbn [is_alive] in H; try done;
    cbn [stmt] in H; crack Hs H; try done;
    try (land Hs H).
  all: try (intros ? [= Hx]; by apply except_clauses_not_sync in Hx).
  - rewrite barriers_put. unfold pc_barriers.
    match goal with H : event s = _ |- _ => rewrite H end. simpl.
    by rewrite app_nil_r.
  - unfold pc_barriers.
    by match goal with H : event s = _ |- _ => rewrite H end.
  - intros b [= <-]. repeat split. lia.
  - right. exists b. repeat split. unfold barrier_set in *.
    match goal with H : bool_decide _ = true |- _ =>
      by apply bool_decide_eq_true in H end.
Qed.
End Pump.

Section Calls.
Variable O : oracle.

Lemma guarantee_refl n : guarantee n n.
Proof.
  split; try done.
  - exists []. by rewrite !app_nil_r.
  - intros sid s b Hs Ht. by exists s.
Qed.

Lemma guarantee_trans n1 n2 n3 :
  guarantee n1 n2 -> guarantee n2 n3 -> guarantee n1 n3.
Proof.
  intros [g_signals g_thread g_next g_trace g_queue g_applies g_syncs g_barriers g_pending g_events g_head] [g_signals0 g_thread0 g_next0 g_trace0 g_queue0 g_applies0 g_syncs0 g_barriers0 g_pending0 g_events0 g_head0]. split.
  - congruence.
  - congruence.
  - lia.
  - by etrans.
  - destruct g_queue as (l & Hq & He), g_queue0 as (l' & Hq' & He').
    exists (l ++ l'). rewrite Hq', Hq, He', He. by rewrite !app_assoc.
  - congruence.
  - congruence.
  - congruence.
  - intros sid s3 b H3 Ht. destruct (g_pending0 sid s3 b H3 Ht) as (s2 & H2 & Ht2).
    by eapply g_pending.
  - intros H. apply g_events0. by apply g_events.
  - auto.
Qed.

#[local] Instance guarantee_preorder : PreOrder guarantee.
Proof. split; [exact guarantee_refl|exact guarantee_trans]. Qed.

(** State changes that respect [guarantee] *)

Lemma guarantee_fields n n' :
  signals n' = signals n -> _dbm_thread n' = _dbm_thread n ->
  next_id n <= next_id n' -> trace n' = trace n ->
  _event_queue n' = _event_queue n -> objs n' = objs n ->
  _event_map n' = _event_map n ->
  guarantee n n'.
Proof.
  intros Hs Hd Hn Ht Hq Ho He. split; rewrite ?Ht, ?Ho; try done.
  - exists []. by rewrite Hq, !app_nil_r.
  - intros sid s b H1 H2. by exists s.
  - unfold head_set, handlers. by rewrite He.
Qed.

Lemma guarantee_silent e n :
  silent e = true -> guarantee n (set_trace (trace n ++ [e]) n).
Proof.
  intros He. destruct (silent_snoc (trace n) e He) as (H1 & H2 & H3).
  split; simpl; try done.
  - by apply prefix_app_r.
  - exists []. by rewrite !app_nil_r.
  - by apply barriers_envs.
  - intros sid s b Hs Ht. by exists s.
Qed.

Lemma framed_ext c : framed guarantee (ext O c).
Proof.
  intros n.
  assert (H : guarantee n
            (set_tick (S (tick n)) (set_trace (trace n ++ [T_call c]) n))).
  { etrans; [by apply (guarantee_silent (T_call c))|].
    by apply guarantee_fields. }
  unfold ext. by destruct (raises O (tick n) c).
Qed.

Lemma framed_log level text : framed guarantee (log level text).
Proof. intros n. by apply (guarantee_silent (T_log level text)). Qed.

Lemma framed_fresh : framed guarantee fresh.
Proof. intros n. apply guarantee_fields; simpl; try done. lia. Qed.

Lemma framed_put t (evs : list item) :
  evs ≫= item_barrier = [] -> framed guarantee (put (t, evs)).
Proof.
  intros Hb. unfold put. apply framed_bind; [apply _|apply framed_await, _|].
  intros _. apply framed_modify. intros n. split; simpl; try done.
  - by apply prefix_app_r.
  - exists [(t, evs)]. split; [done|]. by rewrite envs_app.
  - rewrite applies_app. simpl. by rewrite app_nil_r.
  - rewrite syncs_app. simpl. by rewrite app_nil_r.
  - rewrite barriers_app, barriers_put, Hb. by rewrite app_nil_r.
  - intros sid s b Hs Ht. by exists s.
Qed.

Lemma framed_self_set sid f : benign f -> framed guarantee (self_set sid f).
Proof.
  intros Hf. apply framed_modify. intros n. split; simpl; try done.
  - exists []. by rewrite !app_nil_r.
  - intros sid' s' b. rewrite lookup_alter.
    destruct (decide (sid = sid')) as [->|]; [|by exists s'].
    destruct (objs n !! sid') as [s|]; [|done]. simpl. intros [= <-] Ht.
    exists s. split; [done|]. by apply Hf.
  - intros H sid' s'. rewrite lookup_alter.
    destruct (decide (sid = sid')) as [->|]; [|apply H].
    destruct (objs n !! sid') as [s|] eqn:E; [|done]. simpl. intros [= <-].
    destruct (Hf s) as [-> _]. by eapply H.
Qed.

Lemma framed_self_get {A} sid (f : Source -> A) :
  framed guarantee (self_get sid f).
Proof. intros n. unfold self_get. destruct (objs n !! sid); apply guarantee_refl. Qed.

Lemma head_set_register k h n :
  head_set n ->
  head_set (set_event_map
              (<[k := default [] (_event_map n !! k) ++ [h]]> (_event_map n)) n).
Proof.
  intros [hs Hs]. unfold head_set, handlers in *. simpl.
  destruct (decide (k = K_Event)) as [->|Hk].
  - rewrite lookup_insert_eq. simpl. rewrite Hs. by eexists.
  - rewrite lookup_insert_ne by done. eauto.
Qed.

Lemma framed_register k h : framed guarantee (register_handler k h).
Proof.
  apply framed_modify. intros n. split; simpl; try done.
  - exists []. by rewrite !app_nil_r.
  - intros sid s b Hs Ht. by exists s.
  - apply head_set_register.
Qed.

Lemma framed_unregister k h :
  h <> set_lambda -> framed guarantee (unregister_handler k h).
Proof.
  intros Hh n. unfold unregister_handler.
  destruct (_event_map n !! k) as [l|] eqn:E; [|apply guarantee_refl].
  destruct (list_remove h l) as [l'|] eqn:Er; [|apply guarantee_refl].
  simpl. split; simpl; try done.
  - exists []. by rewrite !app_nil_r.
  - intros sid s b Hs Ht. by exists s.
  - apply (head_set_remove h); [done|]. unfold handlers. by rewrite E.
Qed.

Lemma framed_with_self_lock {A} sid (body : M A) :
  framed guarantee body -> framed guarantee (with_self_lock sid body).
Proof.
  intros Hb. unfold with_self_lock.
  assert (Hl : forall b, framed guarantee (self_set sid (with_lock b))).
  { intros b. apply framed_self_set. by intros []. }
  apply framed_bind; [apply _|apply framed_await, _|]. intros _.
  apply framed_bind; [apply _|apply Hl|]. intros _.
  apply framed_try; [apply _|..].
  - apply framed_bind; [apply _|apply Hb|]. intros a.
    apply framed_bind; [apply _|apply Hl|]. intros _. apply framed_ret, _.
  - intros e. apply framed_bind; [apply _|apply Hl|]. intros _.
    apply framed_raise, _.
Qed.

Lemma framed_Source_start sid : framed guarantee (Source_start sid).
Proof.
  assert (Hs : framed guarantee (self_set sid (with_th (Some P_top)))).
  { apply framed_self_set. intros []. split; [done|]. by intros b [=]. }
  apply framed_with_self_lock.
  apply framed_bind; [apply _|apply framed_self_get|]. intros [p|]; [|done].
  destruct (is_alive p); [apply framed_raise, _|done].
Qed.

Lemma framed_Source_close sid : framed guarantee (Source_close O sid).
Proof.
  apply framed_with_self_lock.
  apply framed_bind; [apply _|apply framed_self_get|]. intros h.
  apply framed_bind; [apply _|..].
  - destruct h; [|apply framed_ret, _].
    apply framed_try; [apply _|apply framed_ext|]. intros e.
    apply framed_except_Exception; [apply _|]. intros _. apply framed_log.
  - intros _. apply framed_bind; [apply _|apply framed_self_get|].
    intros [p|]; [apply framed_await, _|apply framed_ret, _].
Qed.

Lemma framed_ref_start r : framed guarantee (ref_start r).
Proof. destruct r; [apply framed_Source_start|apply framed_raise, _]. Qed.

Lemma framed_ref_close r : framed guarantee (ref_close O r).
Proof. destruct r; [apply framed_Source_close|apply framed_raise, _]. Qed.

Lemma framed_new_source s :
  th s = None -> event_ok (event s) -> framed guarantee (new_source s).
Proof.
  intros Ht He. unfold new_source.
  apply framed_bind; [apply _|apply framed_fresh|]. intros sid.
  apply framed_modify. intros n. split; simpl; try done.
  - exists []. by rewrite !app_nil_r.
  - intros sid' s' b. rewrite lookup_insert.
    destruct (decide (sid = sid')) as [->|]; [|by exists s'].
    intros [= <-]. congruence.
  - intros H sid' s'. rewrite lookup_insert.
    destruct (decide (sid = sid')) as [->|]; [|apply H]. by intros [= <-].
Qed.

Lemma framed_del_source t : framed guarantee (del_source t).
Proof. apply framed_modify. intros n. by apply guarantee_fields. Qed.

Lemma framed_disconnect_source t flush :
  framed guarantee (disconnect_source O t flush).
Proof.
  unfold disconnect_source.
  apply framed_bind; [apply _|apply framed_gets, _|]. intros srcs.
  destruct (srcs !! t); [|apply framed_raise, _].
  apply framed_bind; [apply _|apply framed_ref_close|]. intros _.
  apply framed_bind; [apply _|apply framed_del_source|]. intros _.
  apply framed_when; [apply _|apply framed_ext].
Qed.

Lemma framed_connect_source t src ev :
  event_ok ev -> framed guarantee (connect_source O t src ev).
Proof.
  intros He. unfold connect_source.
  apply framed_bind; [apply _|apply framed_ext|]. intros _.
  apply framed_bind; [apply _|apply framed_gets, _|]. intros srcs.
  apply framed_bind; [apply _|..].
  { apply framed_when; [apply _|apply framed_disconnect_source]. }
  intros _. apply framed_try; [apply _|..].
  - apply framed_bind; [apply _|..].
    + destruct src as [h|[cls|] pers kw| |];
        try (apply framed_raise, _); try (by apply framed_new_source).
      apply framed_modify. intros n. by apply guarantee_fields.
    + intros _. apply framed_bind; [apply _|apply framed_gets, _|].
      intros srcs'. destruct (srcs' !! t);
        [apply framed_ref_start|apply framed_raise, _].
  - intros e. apply framed_bind; [apply _|apply framed_gets, _|].
    intros srcs'. apply framed_bind; [apply _|..].
    + destruct (srcs' !! t); [|apply framed_ret, _].
      apply framed_bind; [apply _|apply framed_ref_close|]. intros _.
      apply framed_del_source.
    + intros _. apply framed_bind; [apply _|apply framed_ext|]. intros _.
      apply framed_raise, _.
Qed.

Lemma framed_with_global_lock {A} (body : M A) :
  framed guarantee body -> framed guarantee (with_global_lock body).
Proof.
  intros Hb. unfold with_global_lock.
  assert (Hl : forall b, framed guarantee (modify (set_global_lock b))).
  { intros b. apply framed_modify. intros n. by apply guarantee_fields. }
  apply framed_bind; [apply _|apply framed_await, _|]. intros _.
  apply framed_bind; [apply _|apply Hl|]. intros _.
  apply framed_try; [apply _|..].
  - apply framed_bind; [apply _|apply Hb|]. intros a.
    apply framed_bind; [apply _|apply Hl|]. intros _. apply framed_ret, _.
  - intros e. apply framed_bind; [apply _|apply Hl|]. intros _.
    apply framed_raise, _.
Qed.

Lemma framed_close : framed guarantee (close O).
Proof.
  apply framed_with_global_lock.
  apply framed_bind; [apply _|..].
  { apply framed_modify. intros n. by apply guarantee_fields. }
  intros _. apply framed_bind; [apply _|apply framed_gets, _|]. intros s.
  apply framed_when; [apply _|].
  apply framed_bind; [apply _|by apply framed_put|]. intros _.
  apply framed_bind; [apply _|apply framed_gets, _|]. intros srcs.
  apply framed_bind; [apply _|..].
  { apply framed_for_each; [apply _|]. intros tr. apply framed_ref_close. }
  intros _. apply framed_bind; [apply _|by apply framed_put|]. intros _.
  apply framed_bind; [apply _|apply framed_await, _|]. intros _.
  apply framed_bind; [apply _|apply framed_ext|]. intros _. apply framed_ext.
Qed.

Lemma framed_Factory_getitem tbl k t :
  framed guarantee (Factory_getitem O tbl k t).
Proof.
  unfold Factory_getitem. destruct (bool_decide _); [|apply framed_raise, _].
  apply framed_bind; [apply _|apply framed_ext|]. intros _.
  apply framed_bind; [apply _|apply framed_fresh|]. intros wr.
  apply framed_bind; [apply _|..].
  { apply framed_modify. intros n. by apply guarantee_fields. }
  intros _. apply framed_bind; [apply _|..].
  { apply framed_for_each; [apply _|]. intros ef. apply framed_register. }
  intros _. apply framed_ret, _.
Qed.

Lemma framed_drop oid : framed guarantee (drop oid).
Proof. apply framed_modify. intros n. by apply guarantee_fields. Qed.

Lemma framed_initdb : framed guarantee (initdb O).
Proof.
  apply framed_with_global_lock.
  apply framed_bind; [apply _|apply framed_gets, _|]. intros s.
  apply framed_when; [apply _|].
  apply framed_bind; [apply _|apply framed_ext|]. intros _. apply framed_ext.
Qed.

Lemma framed_dbm_startup _nl : framed guarantee (dbm_startup O _nl).
Proof.
  unfold dbm_startup.
  apply framed_bind; [apply _|..].
  { apply framed_modify. intros n. split; simpl; try done.
    - exists []. by rewrite !app_nil_r.
    - intros sid s b Hs Ht. by exists s.
    - intros _. by exists []. }
  intros _. apply framed_bind; [apply _|apply framed_initdb|]. intros _.
  apply framed_bind; [apply _|..].
  { apply framed_modify. intros n. by apply guarantee_fields. }
  intros _. apply framed_bind; [apply _|..].
  { apply framed_for_each; [apply _|]. intros ts.
    apply framed_try; [apply _|by apply framed_connect_source|]. intros e.
    apply framed_except_Exception; [apply _|]. intros _. apply framed_log. }
  intros _. apply framed_for_each; [apply _|]. intros eh.
  apply framed_for_each; [apply _|]. intros h. apply framed_register.
Qed.

Lemma framed_classes event : framed guarantee (classes O event).
Proof.
  unfold classes. destruct (schema_classes O event);
    [apply framed_ret, _|apply framed_raise, _].
Qed.

Lemma framed_db_lookup event obj : framed guarantee (db_lookup O event obj).
Proof.
  unfold db_lookup. destruct (dict_get _ _); [|apply framed_raise, _].
  apply framed_bind; [apply _|apply framed_Factory_getitem|]. intros oid.
  apply framed_drop.
Qed.

Lemma framed_check_one c : framed guarantee (check_one O c).
Proof.
  destruct c as [[event evc] obj]. unfold check_one.
  apply framed_bind; [apply _|apply framed_gets, _|]. intros srcs.
  destruct (default _ _); try (apply framed_raise, _).
  destruct (srcs !! _) as [[sid|]|]; try (apply framed_raise, _).
  apply framed_bind; [apply _|apply framed_self_get|]. intros st.
  destruct (bool_decide _); [|apply framed_raise, _].
  apply framed_bind; [apply _|apply framed_gets, _|]. intros i.
  apply framed_try; [apply _|..].
  - apply framed_bind; [apply _|apply framed_db_lookup|]. intros _.
    apply framed_ret, _.
  - intros e. destruct (bool_decide _);
      [apply framed_ret, _|apply framed_raise, _].
Qed.

Lemma framed_check_db snapshot l : framed guarantee (check_db O snapshot l).
Proof.
  revert l. induction snapshot as [|c snapshot IH]; intros l; simpl.
  - apply framed_ret, _.
  - apply framed_bind; [apply _|apply framed_check_one|]. intros [i|]; [|done].
    destruct (list_remove c l); [|apply framed_raise, _].
    apply framed_bind; [apply _|apply IH|]. intros r. apply framed_ret, _.
Qed.

Lemma framed_match_event t msg snapshot l :
  framed guarantee (match_event O t msg snapshot l).
Proof.
  revert l. induction snapshot as [|c snapshot IH]; intros l; simpl.
  - apply framed_ret, _.
  - destruct (event_matches O t msg c); [|done].
    destruct (list_remove c l); [|apply framed_raise, _].
    apply framed_bind; [apply _|apply IH|]. intros r. apply framed_ret, _.
Qed.

Lemma framed_evq_get q : framed guarantee (evq_get q).
Proof.
  intros n. simpl. split; [apply guarantee_refl|]. intros m.
  destruct (wait_queues m !! q) as [[|x l]|]; simpl;
    try apply guarantee_refl.
  by apply guarantee_fields.
Qed.

Lemma framed_wait_loop fuel q wait_for :
  framed guarantee (wait_loop O fuel q wait_for).
Proof.
  revert wait_for. induction fuel as [|fuel IH]; intros [|c l];
    cbn [wait_loop]; try (apply framed_ret, _).
  apply framed_bind; [apply _|apply framed_evq_get|]. intros got.
  apply framed_bind; [apply _|apply framed_check_db|]. intros checked.
  destruct got as [[t msg]|].
  - apply framed_bind; [apply _|apply framed_match_event|]. intros matched.
    apply framed_bind; [apply _|apply IH|]. intros r. apply framed_ret, _.
  - apply framed_bind; [apply _|apply IH|]. intros r. apply framed_ret, _.
Qed.

Lemma framed_build_wait_for spec : framed guarantee (build_wait_for O spec).
Proof.
  induction spec as [|[event objs] spec IH]; simpl.
  - apply framed_ret, _.
  - apply framed_bind; [apply _|apply framed_classes|]. intros evc.
    apply framed_bind; [apply _|apply IH|]. intros rest. apply framed_ret, _.
Qed.

Lemma framed_wait fuel spec : framed guarantee (wait O fuel spec).
Proof.
  destruct spec as [spec|]; [|apply framed_raise, _]. unfold wait.
  apply framed_bind; [apply _|apply framed_fresh|]. intros q.
  apply framed_bind; [apply _|..].
  { apply framed_modify. intros n. by apply guarantee_fields. }
  intros _. apply framed_bind; [apply _|..].
  { apply framed_for_each; [apply _|]. intros eo.
    apply framed_bind; [apply _|apply framed_classes|]. intros evc.
    apply framed_register. }
  intros _. apply framed_bind; [apply _|apply framed_build_wait_for|].
  intros wait_for. apply framed_bind; [apply _|apply framed_check_db|].
  intros checked. apply framed_bind; [apply _|apply framed_wait_loop|].
  intros r. destruct r.1; [|apply framed_ret, _].
  apply framed_bind; [apply _|..]; [|intros _; apply framed_ret, _].
  apply framed_for_each; [apply _|]. intros eo.
  apply framed_bind; [apply _|apply framed_classes|]. intros evc.
  by apply framed_unregister.
Qed.

End Calls.

Section System.
Variable O : oracle.

Lemma Inv_init now : Inv (NDB_init now).
Proof.
  split; simpl.
  - done.
  - done.
  - intros s Hs. by apply not_elem_of_empty in Hs.
  - intros i sid b H. by rewrite lookup_nil in H.
  - constructor.
  - intros b Hb. by apply elem_of_nil in Hb.
  - intros sid s b H. by rewrite lookup_empty in H.
  - intros sid sid' s s' b H. by rewrite lookup_empty in H.
  - intros sid s H. by rewrite lookup_empty in H.
Qed.

Lemma Inv_guarantee n n' : Inv n -> guarantee n n' -> Inv n'.
Proof.
  intros [inv_prefix inv_queue inv_signals inv_syncs inv_nodup inv_below inv_pending inv_distinct inv_events] [g_signals g_thread g_next g_trace g_queue g_applies g_syncs g_barriers g_pending g_events g_head].
  destruct g_queue as (l & Hq & He).
  assert (Hputs : puts (trace n') = puts (trace n) ++ (l ≫= items))
    by (unfold puts; by rewrite He, bind_app).
  split.
  - rewrite g_applies, Hputs. by apply prefix_app_r.
  - rewrite g_thread, g_applies, Hputs, Hq, bind_app. intros Ha.
    by rewrite (inv_queue Ha), app_assoc.
  - rewrite g_signals, g_applies. apply inv_signals.
  - by apply (syncs_kept (trace n)).
  - by rewrite g_barriers.
  - rewrite g_barriers. intros b Hb. specialize (inv_below b Hb). lia.
  - intros sid s' b Hs Ht. destruct (g_pending sid s' b Hs Ht) as (s & Hs0 & Ht0).
    destruct (inv_pending sid s b Hs0 Ht0). rewrite g_barriers. split; [lia|done].
  - intros sid sid' s1 s2 b H1 H2 Ht1 Ht2.
    destruct (g_pending sid s1 b H1 Ht1) as (s1' & H1' & Ht1').
    destruct (g_pending sid' s2 b H2 Ht2) as (s2' & H2' & Ht2').
    by eapply inv_distinct.
  - by apply g_events.
Qed.

Lemma pc_barriers_cases n sid s p :
  Inv n -> objs n !! sid = Some s -> th s = Some p ->
  pc_barriers s p = [] \/
  exists b, p = P_put_sync b /\ pc_barriers s p = [b] /\
            b < next_id n /\ b ∉ barriers (trace n).
Proof.
  intros HI Hs Ht. destruct p; try (by left).
  - left. simpl. pose proof (inv_events n HI sid s Hs) as He.
    by destruct (event s).
  - right. exists b. destruct (inv_pending n HI sid s b Hs Ht). done.
Qed.

Lemma Inv_pump n n' sid : Inv n -> pump_step O sid n = Some n' -> Inv n'.
Proof.
  intros HI (s & p & Hs & Ht & Hp)%pump_step_spec.
  pose proof (pc_barriers_cases n sid s p HI Hs Ht) as Hpc.
  destruct HI as [inv_prefix inv_queue inv_signals inv_syncs inv_nodup inv_below inv_pending inv_distinct inv_events].
  destruct Hp as [p_signals p_thread p_map p_next p_new p_others p_self].
  destruct p_new as (new & Htr & Hq & Hap & Hbar & Hsy).
  destruct p_self as (s' & Hs' & He' & Ht').
  assert (Happlies : applies (trace n') = applies (trace n))
    by (by rewrite Htr, applies_app, Hap, app_nil_r).
  assert (Hputs : puts (trace n') = puts (trace n) ++ (envs new ≫= items))
    by (by rewrite Htr, puts_app).
  assert (Hbars : barriers (trace n') = barriers (trace n) ++ pc_barriers s p)
    by (by rewrite Htr, barriers_app, Hbar).
  split.
  - rewrite Happlies, Hputs. by apply prefix_app_r.
  - rewrite p_thread, Happlies, Hputs, Hq, bind_app. intros Ha.
    by rewrite (inv_queue Ha), app_assoc.
  - rewrite p_signals, Happlies. apply inv_signals.
  - destruct Hsy as [Hsy|(b & -> & -> & Hb)].
    + apply (syncs_kept (trace n)); [by exists new| |done].
      by rewrite Htr, syncs_app, Hsy, app_nil_r.
    + intros i sid0 b0 Hi. rewrite Htr in Hi |- *.
      destruct (decide (i < length (trace n))) as [Hlt|Hge].
      * rewrite lookup_app_l in Hi by done. rewrite take_app_le by lia.
        by eapply inv_syncs.
      * rewrite lookup_app_r in Hi by lia.
        destruct (i - length (trace n)) as [|k] eqn:Ek; [|done].
        injection Hi as <- <-.
        assert (i = length (trace n)) as -> by lia.
        rewrite take_app_length. by apply inv_signals.
  - rewrite Hbars. destruct Hpc as [->|(b & -> & -> & _ & Hb)].
    + by rewrite app_nil_r.
    + apply NoDup_app. split; [done|]. split; [|apply NoDup_singleton].
      intros x Hx ->%list_elem_of_singleton. done.
  - intros b. rewrite Hbars. intros [Hb|Hb]%elem_of_app.
    + specialize (inv_below b Hb). lia.
    + destruct Hpc as [E|(b' & -> & E & Hlt & _)]; rewrite E in Hb.
      * by apply elem_of_nil in Hb.
      * apply list_elem_of_singleton in Hb as ->. lia.
  - intros sid1 s1 b H1 Ht1. rewrite Hbars.
    destruct (decide (sid1 = sid)) as [->|Hne].
    + rewrite Hs' in H1. injection H1 as <-.
      destruct (Ht' b Ht1) as (-> & -> & Hlt). split; [done|].
      simpl. rewrite app_nil_r. intros Hb. specialize (inv_below _ Hb). lia.
    + rewrite p_others in H1 by done.
      destruct (inv_pending sid1 s1 b H1 Ht1) as [Hlt Hnot].
      split; [lia|]. intros [Hb|Hb]%elem_of_app; [done|].
      destruct Hpc as [E|(b' & -> & E & _ & _)]; rewrite E in Hb.
      * by apply elem_of_nil in Hb.
      * apply list_elem_of_singleton in Hb as ->.
        by apply Hne, (inv_distinct sid1 sid s1 s b').
  - intros sid1 sid2 s1 s2 b H1 H2 Ht1 Ht2.
    destruct (decide (sid1 = sid)) as [->|Hne1],
             (decide (sid2 = sid)) as [->|Hne2]; [done|..].
    + rewrite Hs' in H1. injection H1 as <-.
      destruct (Ht' b Ht1) as (_ & -> & _).
      rewrite p_others in H2 by done.
      destruct (inv_pending sid2 s2 _ H2 Ht2). lia.
    + rewrite Hs' in H2. injection H2 as <-.
      destruct (Ht' b Ht2) as (_ & -> & _).
      rewrite p_others in H1 by done.
      destruct (inv_pending sid1 s1 _ H1 Ht1). lia.
    + rewrite p_others in H1, H2 by done. by eapply inv_distinct.
  - intros sid1 s1 H1. destruct (decide (sid1 = sid)) as [->|Hne].
    + rewrite Hs' in H1. injection H1 as <-. rewrite He'. by eapply inv_events.
    + rewrite p_others in H1 by done. by eapply inv_events.
Qed.

Lemma Inv_step n n' : Inv n -> step O n n' -> Inv n'.
Proof.
  intros HI [[sid H]|[H|H]].
  - by eapply Inv_pump.
  - by eapply Inv_dbm.
  - by eapply Inv_guarantee.
Qed.

Lemma Inv_reachable n0 n : Inv n0 -> rtc (step O) n0 n -> Inv n.
Proof. intros H0 Hr. induction Hr; [done|]. eauto using Inv_step. Qed.

Lemma head_set_step n n' : head_set n -> step O n n' -> head_set n'.
Proof.
  intros Hh [[sid H]|[H|H]].
  - apply pump_step_spec in H as (s & p & _ & _ & Hp).
    destruct Hp as [p_signals p_thread p_map p_next p_new p_others p_self].
    unfold head_set, handlers in *. by rewrite p_map.
  - apply dbm_step_spec in H as (t & evs & q & done & _ & _ & _ & _ & Hl).
    destruct Hl as [l_queue l_next l_trace l_envs l_applies l_syncs l_signals l_set l_objs l_head].
    by apply l_head.
  - by apply (g_head n n').
Qed.

End System.

Section Theorems.
Variable O : oracle.

(** Runs of one thread, and calls, as steps of the engine *)

Lemma pump_run_steps k sid n : rtc (step O) n (pump_run O k sid n).
Proof.
  revert n. induction k as [|k IH]; intros n; simpl; [done|].
  destruct (pump_step O sid n) as [n'|] eqn:E; [|done].
  eapply rtc_l; [|apply IH]. left. by exists sid.
Qed.

Lemma dbm_run_steps k n : rtc (step O) n (dbm_run O k n).
Proof.
  revert n. induction k as [|k IH]; intros n; simpl; [done|].
  destruct (dbm_step O n) as [n'|] eqn:E; [|done].
  eapply rtc_l; [|apply IH]. right. by left.
Qed.

Lemma call_step {A} (c : M A) n :
  framed guarantee c -> step O n (state_of (c n)).
Proof.
  intros Hc. right. right. specialize (Hc n).
  destruct (c n); simpl in *; tauto.
Qed.

Lemma in_barriers t b tr :
  (t, E_signal (SigBarrier b)) ∈ puts tr -> b ∈ barriers tr.
Proof.
  intros H. unfold barriers. apply list_elem_of_bind.
  exists (t, E_signal (SigBarrier b)). split; [by left|done].
Qed.

Lemma prefix_snoc_inv {A} (l k : list A) x :
  l `prefix_of` k ++ [x] -> l `prefix_of` k \/ l = k ++ [x].
Proof.
  intros [r Hr]. destruct r as [|y r _] using rev_ind.
  - right. by rewrite app_nil_r in Hr.
  - left. rewrite app_assoc in Hr. apply app_inj_tail in Hr as [-> _].
    by exists r.
Qed.

(** X1.  Whatever the threads of the sources, the main loop and the calls
    of the API have done since [NDB.__init__], the events the main loop
    has taken up are the first of the events that were enqueued, in the
    order they were enqueued in; and as long as the main loop runs, the
    others are those of the envelopes on the queue: nothing is lost and
    nothing is taken up twice. *)
Theorem events_taken_in_order now n :
  rtc (step O) (NDB_init now) n ->
  applies (trace n) `prefix_of` puts (trace n) /\
  (_dbm_thread n = true ->
   puts (trace n) = applies (trace n) ++ (_event_queue n ≫= items)).
Proof.
  intros Hr. destruct (Inv_reachable O _ _ (Inv_init now) Hr) as
    [inv_prefix inv_queue inv_signals inv_syncs inv_nodup inv_below inv_pending inv_distinct inv_events]. done.
Qed.

(** X2.  A signal object is set only by the main loop, when it takes it
    up: every signal that is set was taken off the queue, where it had
    been put, after everything that was enqueued before it had been taken
    up. *)
Theorem signal_set_after_taken now n s :
  rtc (step O) (NDB_init now) n -> s ∈ signals n ->
  exists la lb t,
    trace n = la ++ T_apply t (E_signal s) :: lb /\
    puts (trace n) !! length (applies la) = Some (t, E_signal s) /\
    take (length (applies la)) (puts (trace n)) = applies la.
Proof.
  intros Hr Hs. destruct (Inv_reachable O _ _ (Inv_init now) Hr) as
    [inv_prefix inv_queue inv_signals inv_syncs inv_nodup inv_below inv_pending inv_distinct inv_events].
  destruct (inv_signals s Hs) as [t Ht].
  apply list_elem_of_applies, list_elem_of_split in Ht as (la & lb & E).
  exists la, lb, t. split; [done|].
  destruct inv_prefix as [k Hk]. rewrite Hk, E, applies_app.
  rewrite <- !app_assoc. simpl. split.
  - by apply list_lookup_middle.
  - by rewrite take_app_length.
Qed.

(** X3.  When a thread has seen its barrier set (line 516), the main
    loop had taken up the barrier before, and with it everything that
    was on the queue when the barrier was put there; a barrier is put on
    the queue once. *)
Theorem barrier_passed_after_drain now n l0 t evs l1 sid b l2 :
  rtc (step O) (NDB_init now) n ->
  trace n = l0 ++ T_put (t, evs) :: l1 ++ T_sync_wait sid b :: l2 ->
  E_signal (SigBarrier b) ∈ evs ->
  NoDup (barriers (trace n)) /\
  exists la lb t',
    l0 ++ T_put (t, evs) :: l1 = la ++ T_apply t' (E_signal (SigBarrier b)) :: lb /\
    puts l0 `prefix_of` applies la.
Proof.
  intros Hr E Hin. destruct (Inv_reachable O _ _ (Inv_init now) Hr) as
    [inv_prefix inv_queue inv_signals inv_syncs inv_nodup inv_below inv_pending inv_distinct inv_events].
  split; [done|].
  set (pre := l0 ++ T_put (t, evs) :: l1) in *.
  assert (E' : trace n = pre ++ T_sync_wait sid b :: l2)
    by (unfold pre; by rewrite <- app_assoc).
  destruct (inv_syncs (length pre) sid b) as [t' Ht'].
  { by rewrite E', list_lookup_middle. }
  rewrite E', take_app_length in Ht'.
  apply list_elem_of_applies, list_elem_of_split in Ht' as (la & lb & Epre).
  exists la, lb, t'. split; [done|].
  assert (Hno : (t', E_signal (SigBarrier b)) ∉ puts l0).
  { intros Hb%in_barriers. rewrite E in inv_nodup.
    rewrite barriers_app in inv_nodup. apply NoDup_app in inv_nodup as (_ & Hd & _).
    apply (Hd b Hb). change (T_put (t, evs) :: ?l) with ([T_put (t, evs)] ++ l).
    rewrite barriers_app, barriers_put. apply elem_of_app. left.
    apply list_elem_of_bind. exists (E_signal (SigBarrier b)).
    split; [by left|done]. }
  assert (H1 : applies la ++ [(t', E_signal (SigBarrier b))]
                 `prefix_of` puts (trace n)).
  { etrans; [|exact inv_prefix]. rewrite E', Epre.
    rewrite (applies_app (la ++ _)), (applies_app la).
    unfold applies at 3. rewrite bind_cons. rewrite <- !app_assoc.
    by apply prefix_app, prefix_app_r. }
  assert (H2 : puts l0 `prefix_of` puts (trace n))
    by (rewrite E, puts_app; by apply prefix_app_r).
  destruct (prefix_weak_total _ _ _ H2 H1) as [H|H].
  - apply prefix_snoc_inv in H as [H|H]; [done|].
    exfalso. apply Hno. rewrite H. apply elem_of_app. right. by left.
  - exfalso. apply Hno. eapply elem_of_prefix; [|exact H].
    apply elem_of_app. right. by left.
Qed.

(** X5.  The handler that sets a signal object (line 861) is the first
    handler of its class in the registry [__dbm__] starts with, and it
    stays the first one: no thread and no call of the API removes it or
    puts another before it. *)
Theorem set_handler_stays_first n0 n :
  (forall m, head_set (set_event_map builtin_event_map m)) /\
  (rtc (step O) n0 n -> head_set n0 -> head_set n).
Proof.
  split; [intros m; by exists []|].
  intros Hr H0. induction Hr; [done|]. eauto using head_set_step.
Qed.

Lemma dispatch_event_sets t0 s target n hs :
  _event_map n !! K_Event = Some (set_lambda :: hs) ->
  quick (fun n n' => s ∈ signals n' /\ _event_queue n' = _event_queue n) n
    (dispatch_event O t0 (E_signal s) target n).
Proof.
  intros He. unfold dispatch_event. norm. cbn [class_of]. rewrite He.
  cbn [run_handlers].
  norm. cbn [invoke]. norm.
  match goal with |- context [run_handlers O true _ hs target ?x] =>
    set (m := x) end.
  assert (Hm : s ∈ signals m /\ _event_queue m = _event_queue n).
  { split; [|done]. subst m. simpl. set_solver. }
  pose proof (handled_run_handlers O true (E_signal s) hs target m) as Hf.
  destruct (run_handlers O true (E_signal s) hs target m) as [[t' f] m'|e m'|];
    simpl in Hf |- *; [| |done].
  - assert (Hm' : s ∈ signals m' /\ _event_queue m' = _event_queue n).
    { destruct Hf as [l_queue l_next l_trace l_envs l_applies l_syncs l_signals l_set l_objs l_head], Hm.
      split; [by apply l_signals|congruence]. }
    destruct f; [|done]. norm.
    pose proof (handled_gc_check O [E_signal s] m') as Hg.
    destruct (gc_check O m') as [[] m''|e m''|]; simpl in Hg |- *; [| |done].
    + destruct Hg as [l_queue l_next l_trace l_envs l_applies l_syncs l_signals l_set l_objs l_head], Hm'.
      split; [by apply l_signals|congruence].
    + destruct Hg as [l_queue l_next l_trace l_envs l_applies l_syncs l_signals l_set l_objs l_head], Hm'.
      split; [by apply l_signals|congruence].
  - destruct Hf as [l_queue l_next l_trace l_envs l_applies l_syncs l_signals l_set l_objs l_head], Hm.
    split; [by apply l_signals|congruence].
Qed.

(** X4.  The main loop sets the signal object it finds in an envelope of
    its own, as the barrier of a thread and the event of a source are,
    whatever the handlers registered after the one of line 861 do. *)
Theorem signal_set_when_taken n t s q :
  head_set n -> _dbm_thread n = true ->
  _event_queue n = (t, [E_signal s]) :: q ->
  exists n', dbm_step O n = Some n' /\ s ∈ signals n' /\ _event_queue n' = q.
Proof.
  intros [hs Hh] Ha Hq. unfold dbm_step. rewrite Ha, Hq.
  eexists. split; [reflexivity|].
  assert (He : _event_map (set_event_queue q n) !! K_Event
               = Some (set_lambda :: hs)).
  { simpl. unfold handlers in Hh.
    destruct (_event_map n !! K_Event); simpl in Hh; [by subst|done]. }
  pose proof (dispatch_event_sets t s t (set_event_queue q n) hs He) as Hd.
  cbn [dispatch_events]. unfold bind.
  destruct (dispatch_event O t (E_signal s) t (set_event_queue q n))
    as [[t' f] m|e m|]; simpl in Hd |- *; [| |done].
  - by destruct f.
  - done.
Qed.

(** X7.  Every stretch of a call of the API between two points at
    which it may block, resumed in whatever state the other threads made,
    keeps [guarantee]: it sets no signal, takes nothing off the queue,
    records every envelope it puts there, puts no barrier there, starts
    the thread of a source at its first statement or not at all, and
    leaves the handler of line 861 first. *)
Theorem calls_keep_guarantee :
  (forall k h, framed guarantee (register_handler k h)) /\
  (forall k h, h <> set_lambda -> framed guarantee (unregister_handler k h)) /\
  (forall t src ev, event_ok ev -> framed guarantee (connect_source O t src ev)) /\
  (forall t flush, framed guarantee (disconnect_source O t flush)) /\
  framed guarantee (close O) /\
  (forall fuel spec, framed guarantee (wait O fuel spec)) /\
  (forall tbl k t, framed guarantee (Factory_getitem O tbl k t)) /\
  (forall oid, framed guarantee (drop oid)) /\
  (forall _nl, framed guarantee (dbm_startup O _nl)).
Proof.
  split; [apply framed_register|]. split; [apply framed_unregister|].
  split; [apply framed_connect_source|].
  split; [apply framed_disconnect_source|]. split; [apply framed_close|].
  split; [apply framed_wait|]. split; [apply framed_Factory_getitem|].
  split; [apply framed_drop|apply framed_dbm_startup].
Qed.

(** X8.  A turn of the main loop takes the first envelope off the queue
    and handles its events in order, all of them unless it returns or
    dies on the way; it puts nothing on the queue, makes no object,
    leaves the threads and the events of the sources as they are, and
    sets no signal but those of the events it handled. *)
Theorem main_loop_turn n n' :
  dbm_step O n = Some n' ->
  exists t evs q done,
    _dbm_thread n = true /\ _event_queue n = (t, evs) :: q /\
    done `prefix_of` evs /\ (_dbm_thread n' = true -> done = evs) /\
    loop_frame ((fun ev => (t, ev)) <$> done) done (set_event_queue q n) n'.
Proof. apply dbm_step_spec. Qed.

(** X9.  A step of the thread of a source changes no other source
    object, no signal and no handler; what it adds to the queue is what
    it records as put; it puts a barrier there only at line 513, the one
    made at line 512, and passes line 516 only when the barrier is
    set. *)
Theorem source_thread_step sid n n' :
  pump_step O sid n = Some n' ->
  exists s p, objs n !! sid = Some s /\ th s = Some p /\ pumped sid s p n n'.
Proof. apply pump_step_spec. Qed.

End Theorems.

Section Stop.
Variable O : oracle.

Lemma stops_from_check (n : NDB) (sid : nat) (s : Source) (msg : option (list nlmsg)) :
  objs n !! sid = Some s -> th s = Some (P_check msg) ->
  interrupted msg n = Ret true n ->
  length (_event_queue n) < maxsize ->
  let b := next_id n in
  let n1 := pump_run O 4 sid n in
  trace n1 = trace n ++ [T_state sid "stopped";
                         T_put (target s, [E_signal (SigBarrier b)])] /\
  _event_queue n1 = _event_queue n ++ [(target s, [E_signal (SigBarrier b)])] /\
  objs n1 !! sid
    = Some (with_th (Some (P_wait_sync b)) (with_state "stopped" s)) /\
  signals n1 = signals n.
Proof.
  intros Hs Hth Hi Hroom b n1.
  eassert (Hrun : n1 = _).
  { subst n1.
    erewrite pump_run_S.
    2:{ unfold pump_step. rewrite Hs, Hth. cbn [is_alive stmt].
        unfold bind at 1. rewrite Hi. norm. reflexivity. }
    pstep Hs; [|reflexivity].
    pstep Hs; [|reflexivity].
    pstep Hs; [|room; reflexivity].
    reflexivity. }
  rewrite Hrun. clear Hrun n1. norm. rewrite <- !app_assoc. simpl app.
  split; [done|]. split; [done|]. split; [|done].
  rewrite !lookup_alter_eq, Hs. simpl. by f_equal.
Qed.

Lemma waits_for_barrier (m : NDB) (sid b : nat) (s : Source) :
  objs m !! sid = Some s -> th s = Some (P_wait_sync b) ->
  (SigBarrier b ∉ signals m -> pump_step O sid m = None) /\
  (SigBarrier b ∈ signals m ->
   exists m',
     pump_step O sid m = Some m' /\
     trace m' = trace m ++ [T_sync_wait sid b] /\
     objs m' !! sid = Some (with_th (Some (P_return (RetStopped b))) s) /\
     finished O sid m').
Proof.
  intros Hs Hth. unfold pump_step. rewrite Hs, Hth. cbn [is_alive stmt].
  norm. unfold barrier_set. split; intros Hb.
  - by rewrite bool_decide_eq_false_2.
  - rewrite bool_decide_eq_true_2 by done. norm. eexists. split; [reflexivity|].
    norm. split; [done|].
    assert (Ho : alter (with_th (Some (P_return (RetStopped b)))) sid (objs m)
                 !! sid = Some (with_th (Some (P_return (RetStopped b))) s))
      by (by rewrite lookup_alter_eq, Hs).
    split; [done|]. eapply finished_dead; [exact Ho|reflexivity|done].
Qed.

(** X6.  The end of a thread.  When [get] raises, or returns a message whose
    header carries the error 104, the thread sets the state 'stopped',
    makes a barrier, puts it on the queue in an envelope of its own and
    waits: it cannot move as long as the barrier is not set, and once it
    is, the thread returns, for a persistent source as for any other. *)
Theorem thread_stops_behind_barrier (n : NDB) (sid h : nat) (s : Source) :
  objs n !! sid = Some s -> th s = Some P_get -> nl s = Some h ->
  (exists e, raises O (tick n) (nl_get h) = Some e /\ is_Exception e = true) \/
  (raises O (tick n) (nl_get h) = None /\
   exists m l, returns O (tick n) (nl_get h) = m :: l /\
               header_error m = Some 104%Z) ->
  length (_event_queue n) < maxsize ->
  let b := next_id n in
  let n1 := pump_run O 5 sid n in
  _event_queue n1 = _event_queue n ++ [(target s, [E_signal (SigBarrier b)])] /\
  objs n1 !! sid
    = Some (with_th (Some (P_wait_sync b)) (with_state "stopped" s)) /\
  signals n1 = signals n /\
  forall m, objs m !! sid = objs n1 !! sid ->
    (SigBarrier b ∉ signals m -> pump_step O sid m = None) /\
    (SigBarrier b ∈ signals m ->
     exists m',
       pump_step O sid m = Some m' /\
       trace m' = trace m ++ [T_sync_wait sid b] /\
       (th <$> objs m' !! sid) = Some (Some (P_return (RetStopped b))) /\
       finished O sid m').
Proof.
  intros Hs Hth Hnl Hwhy Hroom b n1.
  assert (H1 : exists n0 msg,
             pump_step O sid n = Some n0 /\
             objs n0 !! sid = Some (with_th (Some (P_check msg)) s) /\
             interrupted msg n0 = Ret true n0 /\
             _event_queue n0 = _event_queue n /\ next_id n0 = next_id n /\
             signals n0 = signals n).
  { unfold pump_step. rewrite Hs, Hth. cbn [is_alive stmt]. norm.
    rewrite Hs. norm. rewrite Hnl. norm.
    destruct Hwhy as [(e & -> & He)|(-> & m & l & Hr & Hm)]; norm.
    - rewrite He. norm. eexists _, None. split; [reflexivity|]. norm.
      by rewrite lookup_alter_eq, Hs.
    - eexists _, (Some (returns O (tick n) (nl_get h))).
      split; [reflexivity|]. norm. rewrite lookup_alter_eq, Hs.
      split; [done|]. rewrite Hr. simpl. rewrite Hm.
      by rewrite bool_decide_eq_true_2. }
  destruct H1 as (n0 & msg & E0 & Ho0 & Hi0 & Hq0 & Hn0 & Hs0).
  subst n1. rewrite (pump_run_S O 4 sid n n0 E0).
  destruct (stops_from_check n0 sid _ msg Ho0 eq_refl Hi0) as (Ht & Hq & Ho & Hsg).
  { by rewrite Hq0. }
  subst b. rewrite <- Hn0, <- Hq0, <- Hs0.
  split; [done|]. split; [by rewrite Ho|]. split; [done|].
  intros m Hm. rewrite Ho in Hm.
  destruct (waits_for_barrier m sid (next_id n0) _ Hm eq_refl) as [Ha Hb].
  split; [done|]. intros Hin. destruct (Hb Hin) as (m' & E & Ht' & Ho' & Hf).
  exists m'. split; [done|]. split; [done|]. split; [|done].
  by rewrite Ho'.
Qed.
End Stop.


(** ** The handlers and the calls, more closely *)

Section Purge.
Variable O : oracle.

Lemma list_remove_middle {A} `{EqDecision A} (x : A) (l k : list A) :
  x ∉ l -> list_remove x (l ++ x :: k) = Some (l ++ k).
Proof.
  intros Hx. induction l as [|y l IH]; simpl.
  - by rewrite decide_True.
  - rewrite decide_False by (intros ->; apply Hx; by left).
    rewrite IH; [done|]. intros H. apply Hx. by right.
Qed.

Lemma invoke_settles h t ev m :
  (forall i c, raises O i c = None) ->
  h <> default_handler -> dead_handler m h = false ->
  exists m',
    (invoke O h t ev m = Ret tt m' \/
     invoke O h t ev m = Exc AttributeError m') /\
    _event_map m' = _event_map m /\ live m' = live m.
Proof.
  intros Hq Hd Hl. destruct h; try done; simpl.
  - destruct ev; eexists; (split; [by (left + right)|done]).
  - unfold ext. rewrite Hq. eexists. split; [by left|done].
  - unfold ext. rewrite Hq. eexists. split; [by left|done].
  - norm. destruct (bool_decide _); norm; eexists; (split; [by left|done]).
  - simpl in Hl. apply negb_false_iff in Hl. norm. rewrite Hl.
    unfold ext. rewrite Hq. eexists. split; [by left|done].
  - unfold modify. destruct (wait_queues m !! q) as [l|];
      [destruct (bool_decide _)|]; eexists; (split; [by left|done]).
  - unfold ext. rewrite Hq. eexists. split; [by left|done].
Qed.

Lemma dead_handler_live m m' h :
  live m' = live m -> dead_handler m' h = dead_handler m h.
Proof. intros H. destruct h; simpl; by rewrite ?H. Qed.

Lemma purge ev kept rest t m :
  (forall i c, raises O i c = None) ->
  default_handler ∉ rest -> NoDup (kept ++ rest) ->
  _event_map m !! class_of ev = Some (kept ++ rest) ->
  exists m',
    run_handlers O true ev rest t m = Ret (t, Continue) m' /\
    _event_map m'
      = <[class_of ev := kept ++ filter (fun h => negb (dead_handler m h)) rest]>
          (_event_map m) /\
    live m' = live m.
Proof.
  intros Hq. revert kept m. induction rest as [|h rest IH]; intros kept m Hd Hn He.
  - exists m. split; [done|]. split; [|done]. by rewrite insert_id.
  - assert (Hd' : default_handler ∉ rest) by (intros H; apply Hd; by right).
    assert (Hh : h <> default_handler) by (intros ->; apply Hd; by left).
    rewrite filter_cons.
    destruct (dead_handler m h) eqn:Edead; cbn [negb].
    + destruct h; try discriminate Edead. simpl in Edead.
      apply negb_true_iff in Edead. cbn [run_handlers]. norm. cbn [invoke].
      norm.
      rewrite Edead. norm. unfold invalidate. rewrite He. simpl.
      rewrite list_remove_middle.
      2:{ apply NoDup_app in Hn as (_ & Hn & _). intros Hin.
          apply (Hn _ Hin). by left. }
      norm.
      match goal with |- context [run_handlers O true ev rest t ?x] =>
        destruct (IH kept x) as (m' & E & Hm & Hl) end.
      * done.
      * apply NoDup_app in Hn as (H1 & H2 & H3). apply NoDup_app.
        split; [done|]. split; [|by apply NoDup_cons in H3 as [_ ?]].
        intros x Hx Hx'. apply (H2 x Hx). by right.
      * simpl. by rewrite lookup_insert_eq.
      * exists m'. split; [done|]. simpl in *. rewrite Hm.
        split; [|done]. by rewrite insert_insert_eq.
    + destruct (invoke_settles h t ev m Hq Hh Edead) as (m1 & Hi & Hm1 & Hl1).
      assert (Hgo : exists m2,
                 run_handlers O true ev (h :: rest) t m
                 = run_handlers O true ev rest t m2 /\
                 _event_map m2 = _event_map m /\ live m2 = live m).
      { destruct Hi as [Hi|Hi].
        - exists m1. by rewrite (run_handlers_ok O true ev h rest t m m1 Hi).
        - eexists. by rewrite (run_handlers_failure O true ev h rest t m _ m1 Hi). }
      destruct Hgo as (m2 & Ego & Hm2 & Hl2). rewrite Ego.
      destruct (IH (kept ++ [h]) m2) as (m' & E & Hm & Hl).
      * done.
      * by rewrite <- app_assoc.
      * rewrite Hm2, He. by rewrite <- app_assoc.
      * exists m'. split; [done|]. rewrite Hm, Hm2, Hl, <- app_assoc.
        split; [|done]. f_equal. simpl. f_equal. f_equal.
        apply list_filter_iff. intros x.
        by rewrite (dead_handler_live m m2 x Hl2).
Qed.

(** X10.  When the main loop handles an event of a class, the weak
    handlers of that class whose referent is gone leave the registry, and
    the other handlers stay, in their order: the handlers being distinct,
    none of them the default handler, and no call out of main.py raising.
    The handlers of the other classes are left alone. *)
Theorem dead_handlers_purged t0 ev target n hs :
  (forall i c, raises O i c = None) ->
  _event_map n !! class_of ev = Some hs -> NoDup hs ->
  default_handler ∉ hs ->
  exists n',
    dispatch_event O t0 ev target n = Ret (target, Continue) n' /\
    handlers n' (class_of ev) = filter (fun h => negb (dead_handler n h)) hs /\
    forall k, k <> class_of ev -> _event_map n' !! k = _event_map n !! k.
Proof.
  intros Hq He Hn Hd. unfold dispatch_event. norm. rewrite He.
  match goal with |- context [run_handlers O true ev hs target ?x] =>
    destruct (purge ev [] hs target x Hq Hd Hn) as (m & E & Hm & Hl) end;
    [done|].
  rewrite E. norm.
  destruct (gc_check_ret O m) as (n2 & Eg & _ & _).
  assert (Hmap : _event_map n2 = _event_map m).
  { revert Eg. unfold gc_check. norm. destruct (bool_decide _); norm;
      by intros [= <-]. }
  rewrite Eg. norm. exists n2. split; [done|]. unfold handlers.
  rewrite Hmap, Hm. simpl. split.
  - rewrite lookup_insert_eq. simpl. done.
  - intros k Hk. by rewrite lookup_insert_ne.
Qed.

End Purge.

Section Calls2.
Variable O : oracle.

(** X11.  Registering a handler that was not there and unregistering it
    gives the class its handlers back, but leaves the class in the
    registry: a class that was not registered is now, with no handler,
    and an event of that class is then taken up without the warning or
    the exception the default handler had for it. *)
Theorem register_then_unregister (n : NDB) (k : kind) (h : handler) :
  h ∉ handlers n k ->
  let n' := set_event_map (<[k := handlers n k]> (_event_map n)) n in
  (register_handler k h ;;; unregister_handler k h) n = Ret tt n' /\
  (_event_map n !! k = None ->
   forall t0 ev target, class_of ev = k ->
     exists n2, dispatch_event O t0 ev target n' = Ret (target, Continue) n2 /\
                trace n2 = trace n' ++ [T_apply t0 ev]).
Proof.
  intros Hh n'. split.
  - unfold register_handler, unregister_handler. norm.
    rewrite lookup_insert_eq. fold (handlers n k).
    rewrite (list_remove_middle h (handlers n k) [] Hh), app_nil_r.
    by rewrite insert_insert_eq.
  - intros Hnone t0 ev target <-. apply emptied_class_ignored.
    subst n'. simpl. rewrite lookup_insert_eq. unfold handlers.
    by rewrite Hnone.
Qed.

Lemma shutdown_all_class l target n :
  (exists t, (t, Source_class) ∈ l) ->
  exists m, shutdown_all l target n = Exc AttributeError m /\
            _event_queue m = _event_queue n.
Proof.
  revert target n. induction l as [|[t' [sid|]] l IH]; intros target n [t Ht].
  - by apply elem_of_nil in Ht.
  - cbn [shutdown_all]. norm.
    match goal with |- context [shutdown_all l t' ?x] =>
      destruct (IH t' x) as (m & E & Hq) end.
    { exists t. apply elem_of_cons in Ht as [[=]|Ht]; done. }
    exists m. by split.
  - by eexists.
Qed.

(** X12.  [connect_source] given a Source object stores the class Source
    itself under the target (line 833): the call raises a TypeError, the
    entry stays in [sources], and the store is flushed once, not twice;
    and with such an entry the main loop dies when it takes up the
    shutdown event, which only the default handler handles. *)
Theorem connect_Source_object :
  (forall n t ev,
     sources n !! t = None -> raises O (tick n) (schema_flush t) = None ->
     exists n',
       connect_source O t a_Source ev n = Exc TypeError n' /\
       sources n' = <[t := Source_class]> (sources n) /\
       objs n' = objs n /\
       trace n' = trace n ++ [T_call (schema_flush t)]) /\
  (forall n t target q,
     sources n !! t = Some Source_class ->
     _dbm_thread n = true ->
     _event_queue n = (target, [E_exc ShutdownException]) :: q ->
     _event_map n !! K_exc ShutdownException = None ->
     exists n',
       dbm_step O n = Some n' /\ _dbm_thread n' = false /\
       _event_queue n' = q /\ T_log "died" "NDB main loop" ∈ trace n').
Proof.
  split.
  - intros n t ev Hnone Hflush. unfold connect_source. norm.
    rewrite Hflush. norm. rewrite Hnone.
    rewrite bool_decide_eq_false_2 by (by intros [? ?]). norm.
    rewrite lookup_insert_eq. norm. cbn [ref_start]. norm.
    rewrite lookup_insert_eq. cbn [ref_close]. norm.
    eexists. split; [reflexivity|]. done.
  - intros n t target q Hs Ha Hq He. unfold dbm_step. rewrite Ha, Hq.
    eexists. split; [reflexivity|].
    cbn [dispatch_events]. unfold dispatch_event. norm. cbn [class_of].
    rewrite He. cbn [run_handlers]. norm. cbn [invoke is_Exception]. norm.
    match goal with |- context [shutdown_all ?l ?tg ?x] =>
      destruct (shutdown_all_class l tg x) as (m & -> & Hm) end.
    { exists t. by apply elem_of_map_to_list. }
    norm. split; [done|]. split; [by rewrite Hm|].
    apply elem_of_app. right. by left.
Qed.

(** X13.  [Source.start] refuses a source whose thread is alive: it raises
    RuntimeError and leaves the engine as it was, the lock of the source
    free again.  A source that never ran, or whose thread is over, gets a
    thread at the first statement of the routine, and nothing else
    changes. *)
Theorem start_refused_while_running (n : NDB) (sid : nat) (s : Source) :
  objs n !! sid = Some s -> lock s = false ->
  (forall p, th s = Some p -> is_alive p = true ->
     Source_start sid n = Exc RuntimeError n) /\
  (th s = None \/ (exists p, th s = Some p /\ is_alive p = false) ->
   Source_start sid n
   = Ret tt (set_objs (<[sid := with_th (Some P_top) s]> (objs n)) n)).
Proof.
  intros Hs Hl.
  assert (Hgo : alter (with_lock false) sid
                  (alter (with_th (Some P_top)) sid
                     (alter (with_lock true) sid (objs n)))
                = <[sid := with_th (Some P_top) s]> (objs n)).
  { apply map_eq. intros i. destruct (decide (i = sid)) as [->|Hi].
    - rewrite !lookup_alter_eq, Hs, lookup_insert_eq. simpl. f_equal.
      destruct s. simpl in *. by subst.
    - by rewrite !lookup_alter_ne, lookup_insert_ne. }
  split.
  - intros p Hp Ha. unfold Source_start, with_self_lock, lock_free. norm.
    rewrite Hs, Hl. cbn [negb]. norm. rewrite lookup_alter_eq, Hs. norm.
    rewrite Hp, Ha. norm. rewrite (relock sid s (objs n) Hs Hl).
    by destruct n.
  - intros Hth. unfold Source_start, with_self_lock, lock_free. norm.
    rewrite Hs, Hl. cbn [negb]. norm. rewrite lookup_alter_eq, Hs. norm.
    destruct Hth as [->|(p & -> & ->)]; norm; rewrite Hgo; by destruct n.
Qed.

Lemma register_schema_handlers (l : list (kind * list nat)) (n : NDB) :
  exists em,
    for_each l (fun eh =>
      for_each eh.2 (fun h => register_handler eh.1 (ext_handler h))) n
    = Ret tt (set_event_map em n).
Proof.
  assert (Hin : forall k hs n, exists em,
             for_each hs (fun h => register_handler k (ext_handler h)) n
             = Ret tt (set_event_map em n)).
  { intros k hs. induction hs as [|h hs IH]; intros m.
    - exists (_event_map m). by destruct m.
    - cbn [for_each]. unfold bind, register_handler at 1, modify. simpl.
      destruct (IH (set_event_map
                      (<[k:=default [] (_event_map m !! k) ++ [ext_handler h]]>
                         (_event_map m)) m)) as (em & ->).
      exists em. by destruct m. }
  revert n. induction l as [|[k hs] l IH]; intros n.
  - exists (_event_map n). by destruct n.
  - cbn [for_each]. unfold bind at 1. simpl.
    destruct (Hin k hs n) as (em & ->). simpl.
    destruct (IH (set_event_map em n)) as (em' & ->).
    exists em'. by destruct n.
Qed.

Lemma startup_no_sources (n : NDB) :
  _global_lock n = false -> schema n = false ->
  exists n0,
    dbm_startup O [] n = Ret tt n0 /\
    _dbm_ready n0 = _dbm_ready n /\ objs n0 = objs n /\
    _event_queue n0 = _event_queue n.
Proof.
  intros Hl Hs. unfold dbm_startup, initdb, with_global_lock. norm.
  rewrite Hl. cbn [negb]. norm. rewrite Hs. norm. cbn [for_each]. norm.
  match goal with |- context [for_each (schema_event_map O) ?f ?x] =>
    destruct (register_schema_handlers (schema_event_map O) x) as (em & ->) end.
  eexists. split; [reflexivity|]. done.
Qed.

(** X14.  An engine made with an empty dict of sources never becomes
    ready: [__dbm__] counts down from the number of sources and sets
    [_dbm_ready] when the count reaches zero at the start event of a
    source, of which there is none; after the start-up the queue is empty
    and no thread can move, so [NDB.__init__] waits at line 599 for
    ever. *)
Theorem no_sources_never_ready (now : Z) :
  exists n0,
    dbm_startup O [] (NDB_init now) = Ret tt n0 /\
    _dbm_ready n0 = false /\
    forall n,
      rtc (fun n n' => (exists sid, pump_step O sid n = Some n') \/
                       dbm_step O n = Some n') n0 n ->
      n = n0.
Proof.
  destruct (startup_no_sources (NDB_init now) eq_refl eq_refl)
    as (n0 & E & Hr & Ho & Hq).
  exists n0. split; [exact E|]. split; [exact Hr|].
  intros n Hrtc. inversion Hrtc as [|? n2 ? Hs _]; [done|]. subst.
  exfalso. destruct Hs as [[sid Hs]|Hs].
  - unfold pump_step in Hs. rewrite Ho in Hs. simpl in Hs.
    by rewrite lookup_empty in Hs.
  - unfold dbm_step in Hs. rewrite Hq in Hs. simpl in Hs.
    by destruct (_dbm_thread n0).
Qed.

End Calls2.

(** ** Reports *)

Lemma append_assoc (a b c : string) : (a +:+ b) +:+ c = a +:+ b +:+ c.
Proof.
  induction a as [|x a IH]; [done|].
  change (String x ((a +:+ b) +:+ c) = String x (a +:+ b +:+ c)).
  by rewrite IH.
Qed.

Lemma concat_cons2 (sep x y : string) (l : list string) :
  String.concat sep (x :: y :: l) = x +:+ sep +:+ String.concat sep (y :: l).
Proof. done. Qed.

(** X15.  [_csv] escapes nothing: a field whose text holds the three
    characters [','] gives the line that two fields give, wherever it is
    in the record, so the fields of a line cannot be told apart by the
    quotes and the commas. *)
Theorem csv_no_escaping (r1 r2 : list cell) (a b : string) :
  csv_row (r1 ++ F_other (a +:+ "','" +:+ b) :: r2)
  = csv_row (r1 ++ F_other a :: F_other b :: r2).
Proof.
  unfold csv_row. induction r1 as [|f r1 IH].
  - cbn [app fmap list_fmap csv_field]. destruct r2 as [|g r2].
    + cbn [fmap list_fmap]. rewrite concat_cons2. cbn [String.concat].
      by rewrite !append_assoc.
    + cbn [fmap list_fmap]. rewrite !concat_cons2. by rewrite !append_assoc.
  - cbn [app fmap list_fmap] in *.
    destruct r1 as [|g r1]; cbn [app fmap list_fmap] in *;
      rewrite !(concat_cons2 _ (csv_field f)); by rewrite IH.
Qed.

Lemma occ_app c (s1 s2 : string) : occ c (s1 +:+ s2) = occ c s1 + occ c s2.
Proof.
  induction s1 as [|a s1 IH]; [done|].
  change (occ c (String a (s1 +:+ s2)) = occ c (String a s1) + occ c s2).
  cbn [occ]. rewrite IH. lia.
Qed.

Section MatchProps.
Variables (cls_name2nla : string -> string) (keys : list string)
          (alias plch : string).

Lemma keyc_in key k : k ∈ keyc cls_name2nla keys key -> k ∈ keys.
Proof.
  unfold keyc. intros [H|H]%elem_of_app.
  - destruct (bool_decide _) eqn:E; [|by apply elem_of_nil in H].
    apply list_elem_of_singleton in H as ->. by apply bool_decide_eq_true in E.
  - destruct (bool_decide _) eqn:E; [|by apply elem_of_nil in H].
    apply list_elem_of_singleton in H as ->. by apply bool_decide_eq_true in E.
Qed.

Lemma keyc_length key : length (keyc cls_name2nla keys key) <= 2.
Proof. unfold keyc. repeat destruct (bool_decide _); simpl; lia. Qed.

(** What the loop computes *)
Lemma match_conditions_spec (items : dict) :
  (forall kv, kv ∈ items -> keyc cls_name2nla keys kv.1 <> []) ->
  exists conditions,
    match_conditions cls_name2nla keys alias plch items
    = inr (conditions,
           flat_map (fun kv => replicate (length (keyc cls_name2nla keys kv.1)) kv.2)
             items) /\
    length conditions = length items.
Proof.
  induction items as [|[key value] items IH]; intros Hk.
  - by exists [].
  - destruct IH as (conds & E & Hl).
    { intros kv Hin. apply Hk. by right. }
    pose proof (Hk (key, value) ltac:(by left)) as Hne.
    pose proof (keyc_length key) as Hlen. cbn [fst snd] in *.
    cbn [match_conditions flat_map fst snd]. rewrite E.
    destruct (keyc cls_name2nla keys key) as [|k1 [|k2 [|k3 l]]];
      [done| | |simpl in Hlen; lia]; eexists; (split; [reflexivity|]);
      simpl; by rewrite Hl.
Qed.

Lemma match_conditions_KeyError (items : dict) :
  (exists kv, kv ∈ items /\ keyc cls_name2nla keys kv.1 = []) ->
  match_conditions cls_name2nla keys alias plch items = inl KeyError.
Proof.
  induction items as [|[key value] items IH]; intros (kv & Hin & Hk).
  - by apply elem_of_nil in Hin.
  - cbn [match_conditions].
    destruct (keyc cls_name2nla keys key) as [|k1 l] eqn:E; [done|].
    rewrite IH; [done|]. exists kv. split; [|done].
    apply elem_of_cons in Hin as [->|Hin]; [|done]. simpl in Hk. congruence.
Qed.

(** X17.  [_match] raises KeyError as soon as a key of the match, after
    the keys taken from [match_src] are filled in, is neither a name of
    [keys] nor the NLA name of one; otherwise it returns, with every
    value of the match once, or twice when the key is known under both
    names, in the order of the match; and with an empty match the clause
    is empty and so are the values. *)
Theorem match_values match_src match_pairs (m : option dict) :
  let m' := match_fill match_src match_pairs (default [] m) in
  ((exists kv, kv ∈ m' /\ keyc cls_name2nla keys kv.1 = []) ->
   _match cls_name2nla keys alias plch match_src match_pairs m
   = inl KeyError) /\
  ((forall kv, kv ∈ m' -> keyc cls_name2nla keys kv.1 <> []) ->
   exists spec,
     _match cls_name2nla keys alias plch match_src match_pairs m
     = inr (spec,
            flat_map
              (fun kv => replicate (length (keyc cls_name2nla keys kv.1)) kv.2)
              m') /\
     (m' = [] -> spec = "")).
Proof.
  intros m'. unfold _match. fold m'. split.
  - intros Hex. rewrite bool_decide_eq_true_2.
    + by rewrite match_conditions_KeyError.
    + intros E. destruct Hex as (kv & Hin & _). rewrite E in Hin.
      by apply elem_of_nil in Hin.
  - intros Hall. destruct (match_conditions_spec m' Hall) as (conds & E & _).
    destruct (decide (m' = [])) as [E0|Hne].
    + rewrite bool_decide_eq_false_2 by (by intros ?). exists "".
      by rewrite E0.
    + rewrite bool_decide_eq_true_2 by done. rewrite E. eexists.
      split; [reflexivity|done].
Qed.

End MatchProps.

Lemma occ_concat c (sep : string) (l : list string) :
  occ c sep = 0 ->
  occ c (String.concat sep l) = sum_list_with (occ c) l.
Proof.
  intros Hs. induction l as [|x [|y l] IH]; [done|simpl; lia|].
  rewrite concat_cons2, !occ_app, IH, Hs. simpl. lia.
Qed.

Section Placeholders.
Variables (cls_name2nla : string -> string) (keys : list string)
          (alias plch : string) (c : Ascii.ascii).

Hypothesis text_clean : occ c match_text = 0.
Hypothesis alias_clean : occ c alias = 0.
Hypothesis keys_clean : forall k, k ∈ keys -> occ c k = 0.
Hypothesis plch_once : occ c plch = 1.

Lemma text_pieces :
  occ c " WHERE " = 0 /\ occ c " AND " = 0 /\ occ c ".f_" = 0 /\
  occ c " = " = 0 /\ occ c "(" = 0 /\ occ c " OR " = 0 /\ occ c ")" = 0.
Proof.
  pose proof text_clean as H. unfold match_text in H. cbn [occ] in H.
  repeat match type of H with
         | context [bool_decide (?a = c)] =>
             destruct (bool_decide_reflect (a = c)) as [?|?];
               [exfalso; cbn in H; lia|]
         end.
  cbn [occ]. repeat split; by rewrite !bool_decide_eq_false_2.
Qed.

Lemma occ_one_key k : k ∈ keys -> occ c (one_key alias plch k) = 1.
Proof.
  intros Hk. destruct text_pieces as (_ & _ & H1 & H2 & _).
  unfold one_key. rewrite !occ_app, alias_clean, H1, H2, plch_once.
  by rewrite (keys_clean k Hk).
Qed.

Lemma occ_two_keys k1 k2 :
  k1 ∈ keys -> k2 ∈ keys -> occ c (two_keys alias plch k1 k2) = 2.
Proof.
  intros Hk1 Hk2. destruct text_pieces as (_ & _ & H1 & H2 & H3 & H4 & H5).
  unfold two_keys. rewrite !occ_app, alias_clean, H1, H2, H3, H4, H5, plch_once.
  by rewrite (keys_clean k1 Hk1), (keys_clean k2 Hk2).
Qed.

Lemma match_conditions_marks (items : dict) conditions values :
  match_conditions cls_name2nla keys alias plch items
  = inr (conditions, values) ->
  sum_list_with (occ c) conditions = length values.
Proof.
  revert conditions values.
  induction items as [|[key value] items IH]; intros conds values.
  - by intros [= <- <-].
  - cbn [match_conditions].
    pose proof (keyc_in cls_name2nla keys key) as Hin.
    destruct (keyc cls_name2nla keys key) as [|k1 [|k2 [|k3 l]]]; [done|..];
      destruct (match_conditions cls_name2nla keys alias plch items)
        as [e|[conds' values']]; try done; intros [= <- <-];
      specialize (IH _ _ eq_refl); cbn [sum_list_with length].
    + rewrite occ_one_key by (apply Hin; by left). lia.
    + rewrite occ_two_keys by (apply Hin; set_solver). lia.
    + done.
Qed.

(** X16.  The clause [_match] returns has as many placeholders as there
    are values next to it: a character that occurs once in the
    placeholder, and neither in the alias, nor in a name of [keys], nor
    in the text [_match] writes, occurs in the clause as many times as
    there are values. *)
Theorem match_placeholders match_src match_pairs (m : option dict) spec values :
  _match cls_name2nla keys alias plch match_src match_pairs m
  = inr (spec, values) ->
  occ c spec = length values.
Proof.
  unfold _match. destruct (bool_decide _); [|by intros [= <- <-]].
  destruct (match_conditions _ _ _ _ _) as [e|[conds vals]] eqn:E; [done|].
  intros [= <- <-]. destruct text_pieces as (H1 & H2 & _).
  rewrite occ_app, H1, occ_concat by done.
  by apply (match_conditions_marks _ _ _ E).
Qed.

End Placeholders.

(** ** [NDB.debug] *)

Lemma debug_set (mode : option string) :
  exists r calls,
    debug mode true = (r, calls, true) /\
    (addHandler ∉ calls) /\ (setLevel "DEBUG" ∉ calls).
Proof.
  destruct mode as [m|]; simpl.
  - rewrite andb_false_r, andb_true_r. destruct (bool_decide (m = "off")).
    + eexists _, _. split; [reflexivity|].
      split; intros [H|[H|H]%elem_of_cons]%elem_of_cons;
        try discriminate H; by apply elem_of_nil in H.
    + eexists _, _. split; [reflexivity|]. split; apply not_elem_of_nil.
  - eexists _, _. split; [reflexivity|]. split; apply not_elem_of_nil.
Qed.

Lemma debug_calls_set (modes : list (option string)) :
  (debug_calls modes true).2 = true /\
  (addHandler ∉ (debug_calls modes true).1) /\
  (setLevel "DEBUG" ∉ (debug_calls modes true).1).
Proof.
  induction modes as [|mode modes IH]; cbn [debug_calls].
  - split; [done|]. split; apply not_elem_of_nil.
  - destruct (debug_set mode) as (r & calls & -> & H1 & H2).
    destruct (debug_calls modes true) as [calls' d]. simpl in *.
    destruct IH as (-> & H3 & H4). split; [done|].
    split; intros [H|H]%elem_of_app; done.
Qed.

Lemma filter_absent (calls : list logcall) :
  addHandler ∉ calls -> filter (fun x => x = addHandler) calls = [].
Proof.
  induction calls as [|x calls IH]; [done|]. intros H.
  rewrite filter_cons_False by (intros ->; apply H; by left).
  apply IH. intros Hin. apply H. by right.
Qed.

Lemma debug_cases (mode : option string) (d : bool) :
  debug mode d = (None, [addHandler; setLevel "DEBUG"], true) \/
  exists r calls d', debug mode d = (r, calls, d') /\ addHandler ∉ calls.
Proof.
  destruct mode as [m|]; simpl.
  - destruct (bool_decide (m = "on") && negb d); [by left|right].
    destruct (bool_decide (m = "off") && d); eexists _, _, _;
      (split; [reflexivity|]).
    + intros [H|[H|H]%elem_of_cons]%elem_of_cons;
        try discriminate H; by apply elem_of_nil in H.
    + apply not_elem_of_nil.
  - right. eexists _, _, _. split; [reflexivity|]. apply not_elem_of_nil.
Qed.

Lemma added_once (modes : list (option string)) (d : bool) :
  length (filter (fun x => x = addHandler) (debug_calls modes d).1) <= 1.
Proof.
  revert d. induction modes as [|mode modes IH]; intros d; [simpl; lia|].
  cbn [debug_calls].
  destruct (debug_cases mode d) as [->|(r & calls & d' & -> & Hc)].
  - pose proof (debug_calls_set modes) as (_ & Hb & _).
    destruct (debug_calls modes true) as [calls' d']. cbn [fst] in *.
    rewrite filter_app, filter_cons_True by done.
    rewrite filter_cons_False by done. rewrite filter_nil.
    rewrite filter_absent by done. simpl. lia.
  - specialize (IH d'). destruct (debug_calls modes d') as [calls' d''].
    cbn [fst] in *. rewrite filter_app, filter_absent by done. exact IH.
Qed.

(** X18.  [debug('on')] works once.  [debug('off')] leaves [self._debug]
    set, so that from the first ['on'] on, whatever calls of [debug]
    follow, [debug()] answers True, the handler is never added again and
    the level is never set to DEBUG again; over any sequence of calls the
    handler is added at most once. *)
Theorem debug_on_once (modes : list (option string)) :
  length (filter (fun x => x = addHandler) (debug_calls modes false).1) <= 1 /\
  (debug None (debug_calls (Some "on" :: modes) false).2).1.1 = Some true /\
  exists calls,
    (debug_calls (Some "on" :: modes) false).1
    = addHandler :: setLevel "DEBUG" :: calls /\
    (addHandler ∉ calls) /\ (setLevel "DEBUG" ∉ calls).
Proof.
  pose proof (debug_calls_set modes) as (Hd & Ha & Hl).
  assert (Hon : debug_calls (Some "on" :: modes) false
                = (addHandler :: setLevel "DEBUG" :: (debug_calls modes true).1,
                   (debug_calls modes true).2)).
  { cbn [debug_calls debug]. rewrite bool_decide_eq_true_2 by done.
    simpl. by destruct (debug_calls modes true). }
  split; [apply added_once|]. split.
  - rewrite Hon. simpl. by rewrite Hd.
  - rewrite Hon. eexists. split; [reflexivity|done].
Qed.

Lemma C2_initial_load_order_witness :
  let n' := pump_run quiet 14 0 at_loading in
  trace n' = trace at_loading ++ (loaded quiet 0 1 "localhost" 2).1 /\
  _event_queue n' =
    _event_queue at_loading ++ (loaded quiet 0 1 "localhost" 2).2 /\
  state <$> objs n' !! 0 = Some "running".
Proof.
  pose proof (C2_initial_load_order quiet at_loading 0 1
    {| th := Some P_loading; nl := Some 1; target := "localhost";
       nl_prime := a_type "IPRoute"; nl_kwarg := [];
       event := Some (E_exc SyncStart); shutdown := false;
       started := false; lock := false; persistent := false;
       state := "connecting" |}) as H.
  destruct H as (H1 & H2 & H3); try (vm_compute; reflexivity).
  - replace (length (_event_queue at_loading)) with 0
      by (vm_compute; reflexivity).
    unfold maxsize. lia.
  - split; [exact H1|]. split; [exact H2|]. rewrite H3. reflexivity.
Defined.

Lemma C3_failure_policy_witness :
  let n1 := pump_run get_addr_OSError 4 0 at_get_addr in
  let n2 := pump_run get_addr_OSError 3 0 n1 in
  _event_queue n1 =
    _event_queue at_get_addr ++ [("localhost", [E_exc MarkFailed])] /\
  th <$> objs n2 !! 0 = Some (Some P_top) /\
  state <$> objs n2 !! 0 = Some "failed".
Proof.
  pose proof (C3_failure_policy get_addr_OSError at_get_addr 0
    {| th := Some P_get_addr; nl := Some 1; target := "localhost";
       nl_prime := a_type "IPRoute"; nl_kwarg := [];
       event := Some (E_exc SyncStart); shutdown := false;
       started := false; lock := false; persistent := true;
       state := "loading" |} P_get_addr (nl_get_addr 1)
    (OtherException "OSError")) as H.
  destruct H as ((_ & Hq & _) & Hp & _);
    try (vm_compute; reflexivity); try discriminate.
  - replace (length (_event_queue at_get_addr)) with 2
      by (vm_compute; reflexivity).
    unfold maxsize. lia.
  - destruct (Hp eq_refl) as (_ & _ & Ho & _).
    split; [exact Hq|]. split; rewrite Ho; reflexivity.
Defined.

(** The claim C3 as the specification states it fails for a TypeError
    that is not the one of line 483: [bind] raises it, the thread dies,
    the state stays 'loading', nothing is put on the queue, and the
    source, persistent as it is, does not try again. *)
Lemma C3_counterexample :
  th <$> objs bind_TypeError_run !! 0 = Some (Some (P_raise TypeError)) /\
  state <$> objs bind_TypeError_run !! 0 = Some "loading" /\
  persistent <$> objs bind_TypeError_run !! 0 = Some true /\
  _event_queue bind_TypeError_run = [] /\
  pump_step bind_TypeError 0 bind_TypeError_run = None.
Proof. vm_compute. repeat split; reflexivity. Qed.





Lemma C5_wait_witness :
  (exists e n', wait quiet 3 (Some wait_for_lo) booted = Exc e n') /\
  (conditions quiet wait_for_lo
     ≡ₚ seen_cond <$> [by_lookup ("interfaces", K_msg "ifinfmsg",
                                  [("ifname", VStr "lo")]) 7]).
Proof.
  destruct (C5_wait quiet) as (_ & Hraise & _ & Hsound). split.
  - apply Hraise.
    + repeat constructor. by eexists.
    + eexists. split; [by left|]. vm_compute. discriminate.
  - refine (proj1 (Hsound [] 3 wait_for_lo running _ (state_of lo_by_lookup) _)).
    vm_compute. reflexivity.
Defined.

(** The two ways an entry is satisfied, on the concrete engine: by the
    store, and by an event the main loop hands to the handler of [wait]. *)
Example wait_satisfied_by_event :
  match lo_by_event with
  | Ret (Done, [by_event c "localhost" (E_msg m)]) _ =>
      c = ("interfaces", K_msg "ifinfmsg", [("ifname", VStr "lo")]) /\ m = lo
  | _ => False
  end.
Proof. vm_compute. done. Qed.

Lemma C9_wait_leaves_handlers_witness :
  exists e n',
    wait quiet 3 (Some wait_for_lo) booted = Exc e n' /\
    exists added,
      handlers n' (K_msg "ifinfmsg")
        = handlers booted (K_msg "ifinfmsg") ++ added /\
      wait_handler (next_id booted) ∈ added.
Proof.
  destruct (C9_wait_leaves_handlers quiet 3 wait_for_lo booted)
    as (e & n' & E & H).
  - repeat constructor. by eexists.
  - eexists. split; [by left|]. vm_compute. discriminate.
  - exists e, n'. split; [exact E|].
    apply (H ("interfaces", [[("ifname", VStr "lo")]]) "ifinfmsg").
    + by left.
    + reflexivity.
Defined.


